(** * Gate-A structural validation: a shallow embedding of
      [scripts/gate_a_check.py] and the properties of its specification.

    The development has two parts.  The first part transcribes the data
    model and the functions of the script: check results and the verdict
    aggregator, the identifier extractor with its two regular expressions,
    the ID-integrity, readability and evidence checks, the section slicer,
    and the configuration resolver over an explicit object store.  The
    second part states and proves the properties. *)

From Stdlib Require Import NArith String Ascii Lia.
From stdpp Require Import base list gmap sorting.

Set Default Proof Using "Type".
Set Warnings "-register-all,-clear-no-such-hyp".
Local Open Scope N_scope.
Local Open Scope nat_scope.

(** ** Text

    A Python [str] is a sequence of Unicode code points.  A character is its
    code point, a string is a list of them. *)

Abbreviation char := N (only parsing).
Abbreviation str := (list N) (only parsing).

(** ASCII literals of the script, as code points. *)
Definition lit (s : string) : str :=
  map N_of_ascii (list_ascii_of_string s).

(** The Unicode character database of the interpreter is not part of the
    repository.  It is an interface: the three properties the [re] and
    [str] primitives consult, queried only for code points from 128 on.
    ASCII is classified by the definitions below. *)
Class UnicodeDB := {
  uni_decimal : N -> bool;     (* category Nd: what [\d] matches *)
  uni_alnum_other : N -> bool; (* alphabetic or numeric, other than Nd *)
  uni_space : N -> bool        (* what [str.isspace] and [\s] accept *)
}.

(** A database with no character beyond ASCII classified; it is the instance
    the closed examples below are evaluated with. *)
Definition ascii_db : UnicodeDB :=
  {| uni_decimal := fun _ => false;
     uni_alnum_other := fun _ => false;
     uni_space := fun _ => false |}.

Section Chars.
Context {U : UnicodeDB}.

Definition in_range (lo hi c : N) : bool := ((lo <=? c) && (c <=? hi))%N.

(** [[A-Z]] *)
Definition is_upper (c : N) : bool := in_range 65 90 c.

(** [\d] on a [str] pattern: a Unicode decimal digit. *)
Definition is_digit (c : N) : bool :=
  if (c <? 128)%N then in_range 48 57 c else uni_decimal c.

(** [\w]: alphanumeric or underscore. *)
Definition is_word (c : N) : bool :=
  if (c <? 128)%N
  then in_range 48 57 c || in_range 65 90 c || in_range 97 122 c || (c =? 95)%N
  else uni_decimal c || uni_alnum_other c.

(** [\s] and the characters removed by [str.strip()]. *)
Definition is_space (c : N) : bool :=
  if (c <? 128)%N
  then in_range 9 13 c || in_range 28 32 c
  else uni_space c.

(** [\b] between the character before the position and the one at it; outside
    the text counts as a non-word character. *)
Definition opt_word (o : option N) : bool :=
  match o with Some c => is_word c | None => false end.

Definition word_boundary (prev next : option N) : bool :=
  xorb (opt_word prev) (opt_word next).

End Chars.

(** ** String primitives *)

Definition str_eqb (a b : str) : bool := bool_decide (a = b).

(** [s.startswith(p)] *)
Fixpoint startswith (p s : str) : bool :=
  match p, s with
  | [], _ => true
  | a :: p', b :: s' => (a =? b)%N && startswith p' s'
  | _ :: _, [] => false
  end.

(** [p in s] *)
Fixpoint contains (p s : str) : bool :=
  startswith p s ||
  match s with
  | [] => false
  | _ :: s' => contains p s'
  end.

(** [text.split('\n')]: always at least one piece. *)
Fixpoint split_lines (s : str) : list str :=
  match s with
  | [] => [[]]
  | c :: s' =>
      if (c =? 10)%N then [] :: split_lines s'
      else match split_lines s' with
           | l :: ls => (c :: l) :: ls
           | [] => [[c]]
           end
  end.

(** ['\n'.join(lines)] *)
Fixpoint join_lines (ls : list str) : str :=
  match ls with
  | [] => []
  | [l] => l
  | l :: ls' => l ++ 10%N :: join_lines ls'
  end.

Section Strip.
Context {U : UnicodeDB}.

Fixpoint lstrip (s : str) : str :=
  match s with
  | c :: s' => if is_space c then lstrip s' else s
  | [] => []
  end.

Definition rstrip (s : str) : str := reverse (lstrip (reverse s)).

(** [s.strip()] *)
Definition strip (s : str) : str := rstrip (lstrip s).

End Strip.

(** Python compares strings by code point, lexicographically; [sorted] on a
    set of strings uses this order. *)
Fixpoint str_leb (a b : str) : bool :=
  match a, b with
  | [], _ => true
  | _ :: _, [] => false
  | x :: a', y :: b' => (x <? y)%N || ((x =? y)%N && str_leb a' b')
  end.

Definition str_le (a b : str) : Prop := str_leb a b = true.

#[global] Instance str_le_dec : RelDecision str_le.
Proof. intros a b. unfold str_le. apply _. Defined.

(** [sorted(s)] for a set [s] of strings. *)
Definition sorted (s : gset str) : list str := merge_sort str_le (elements s).

(** ** Check results *)

Inductive check_kind := Hard | Soft.

(** The messages of the checks modelled here, one constructor per format
    string, carrying the interpolated values. *)
Inductive issue :=
| DuplicateIdDefinition (id_str : str) (count : nat)
    (* "Duplicate ID definition: {id_str} (defined {count} times)" *)
| DanglingReference (d : str)
    (* "Dangling reference: {d} (referenced but not defined)" *)
| WhenThenSameLine (i : nat) (scn_id : str)
    (* "Line {i}: {scn_id} has WHEN and THEN on same line ..." *)
| ParagraphTooLong (i : nat)
    (* "Line {i}: consecutive text paragraph exceeds 10 lines ..." *)
| MissingEvd (evd : str)
    (* "EVD referenced in rfc.md but missing in evidence.json: {evd}" *)
| OtherIssue (msg : str).

Record CheckResult := {
  name : str;
  kind : check_kind;
  passed : bool;
  issues : list issue;
  warnings : list str
}.

(** [CheckResult(name)] and [CheckResult(name, kind="soft")] *)
Definition new_result (n : str) (k : check_kind) : CheckResult :=
  {| name := n; kind := k; passed := true; issues := []; warnings := [] |}.

(** [r.fail(msg)] *)
Definition fail (r : CheckResult) (msg : issue) : CheckResult :=
  {| name := name r; kind := kind r; passed := false;
     issues := issues r ++ [msg]; warnings := warnings r |}.

(** [r.warn(msg)] *)
Definition warn (r : CheckResult) (msg : str) : CheckResult :=
  {| name := name r; kind := kind r; passed := passed r;
     issues := issues r; warnings := warnings r ++ [msg] |}.

(** ** Verdict aggregation: [run_gate_a] *)

Inductive verdict := PASS | WARN | FAIL.

Record detail := {
  d_passed : bool;
  d_issues : list issue;
  d_warnings : list str
}.

Record report := {
  hard_pass : list str;
  hard_fail : list str;
  soft_warn : list str;
  overall : verdict;
  details : list (str * detail)
}.

(** [d[k] = v] on a dict kept in insertion order. *)
Fixpoint dict_set {V} (d : list (str * V)) (k : str) (v : V) : list (str * V) :=
  match d with
  | [] => [(k, v)]
  | (k', v') :: d' =>
      if str_eqb k' k then (k', v) :: d' else (k', v') :: dict_set d' k v
  end.

(** Truth value of a list. *)
Definition nonempty {A} (l : list A) : bool :=
  match l with [] => false | _ => true end.

Definition run_gate_a (hard_results soft_results : list CheckResult) : report :=
  let hard_pass := map name (filter (fun r => passed r = true) hard_results) in
  let hard_fail := map name (filter (fun r => passed r = false) hard_results) in
  let soft_warn := map name (filter (fun r => nonempty (warnings r) = true) soft_results) in
  let details :=
    fold_left
      (fun d r =>
         dict_set d (name r)
           {| d_passed := passed r; d_issues := issues r; d_warnings := warnings r |})
      (hard_results ++ soft_results) [] in
  let overall :=
    if nonempty hard_fail then FAIL
    else if nonempty soft_warn then WARN
    else PASS in
  {| hard_pass := hard_pass; hard_fail := hard_fail; soft_warn := soft_warn;
     overall := overall; details := details |}.

(** ** Regular expressions

    The patterns of the script are transcribed construct by construct, with
    the backtracking of the [re] engine written out.  A matcher is tried at
    one position: it sees the character before the position (for [\b]) and
    the text from the position on. *)

Section Regex.
Context {U : UnicodeDB}.

(** Greedy repetition of a character class ([c*], [c+], [c{m,}]): take as
    many characters as possible, then run the rest [k] of the pattern; when
    [k] fails give one character back and try again.  [k] gets the last
    character consumed before its position, the number [n] of repetitions
    taken, and the remaining text; a lower bound on [n] is tested there. *)
Fixpoint greedy {A} (cls : N -> bool) (k : option N -> nat -> str -> option A)
    (prev : option N) (n : nat) (s : str) : option A :=
  match s with
  | c :: tl =>
      if cls c then
        match greedy cls k (Some c) (S n) tl with
        | Some r => Some r
        | None => k prev n s
        end
      else k prev n s
  | [] => k prev n s
  end.

(** The same with an upper bound ([c{m,max}]). *)
Fixpoint greedy_upto {A} (max : nat) (cls : N -> bool)
    (k : option N -> nat -> str -> option A)
    (prev : option N) (n : nat) (s : str) : option A :=
  match s with
  | c :: tl =>
      if cls c && (n <? max) then
        match greedy_upto max cls k (Some c) (S n) tl with
        | Some r => Some r
        | None => k prev n s
        end
      else k prev n s
  | [] => k prev n s
  end.

(** Alternation of literals [(a|b|...)]: the first alternative, in order,
    after which the rest of the pattern succeeds. *)
Fixpoint first_alt {A} (alts : list str) (k : str -> str -> option A) (s : str)
    : option A :=
  match alts with
  | [] => None
  | a :: alts' =>
      match (if startswith a s then k a (drop (length a) s) else None) with
      | Some r => Some r
      | None => first_alt alts' k s
      end
  end.

(** The tail of [\d{3,}\b]. *)
Definition end_of_number {A} (result : nat -> A)
    (p : option N) (n : nat) (rest : str) : option A :=
  if (3 <=? n) && word_boundary p (head rest) then Some (result n) else None.

(** [ID_PATTERN = \b(HR|DEC|REQ|SCN|CHG|EVD)-(\d{3,})\b].  A match gives its
    length and the two groups. *)
Definition kinds : list str :=
  [lit "HR"; lit "DEC"; lit "REQ"; lit "SCN"; lit "CHG"; lit "EVD"].

Definition ID_PATTERN (prev : option N) (s : str) : option (nat * (str * str)) :=
  if word_boundary prev (head s) then
    first_alt kinds
      (fun a r =>
         match r with
         | 45%N :: r2 =>
             greedy is_digit
               (end_of_number (fun n => (length a + 1 + n, (a, take n r2))))
               (Some 45%N) 0 r2
         | _ => None
         end) s
  else None.

(** [DOMAIN_HR_PATTERN = \b([A-Z]+)-HR-(\d{3,})\b]. *)
Definition DOMAIN_HR_PATTERN (prev : option N) (s : str)
    : option (nat * (str * str)) :=
  if word_boundary prev (head s) then
    greedy is_upper
      (fun _ n r =>
         if (1 <=? n) && startswith (lit "-HR-") r then
           let r2 := drop 4 r in
           greedy is_digit
             (end_of_number (fun n' => (n + 4 + n', (take n s, take n' r2))))
             (Some 45%N) 0 r2
         else None)
      prev 0 s
  else None.

(** A match object: [m.start()], [m.end()] and the groups. *)
Record rmatch := {
  m_start : nat;
  m_end : nat;
  m_groups : str * str
}.

(** [pattern.finditer(text)]: the leftmost match from the current position,
    then on from its end.  [skip] counts the characters of the last match
    still to be passed.  The patterns here match no empty string. *)
Fixpoint finditer_from (p : option N -> str -> option (nat * (str * str)))
    (prev : option N) (pos : nat) (rest : str) (skip : nat) : list rmatch :=
  match rest with
  | [] => []
  | c :: tl =>
      match skip with
      | S k => finditer_from p (Some c) (S pos) tl k
      | O =>
          match p prev rest with
          | Some (len, g) =>
              {| m_start := pos; m_end := pos + len; m_groups := g |}
                :: finditer_from p (Some c) (S pos) tl (pred len)
          | None => finditer_from p (Some c) (S pos) tl 0
          end
      end
  end.

Definition finditer p (text : str) : list rmatch :=
  finditer_from p None 0 text 0.

(** [f"{m.group(1)}-{m.group(2)}"] and [f"{m.group(1)}-HR-{m.group(2)}"] *)
Definition generic_id (m : rmatch) : str :=
  fst (m_groups m) ++ lit "-" ++ snd (m_groups m).

Definition domain_id (m : rmatch) : str :=
  fst (m_groups m) ++ lit "-HR-" ++ snd (m_groups m).

(** ** Identifier extraction *)

Definition _domain_hr_spans (text : str) : gset (nat * nat) :=
  list_to_set (map (fun m => (m_start m, m_end m)) (finditer DOMAIN_HR_PATTERN text)).

Definition _is_inside_domain_hr (pos e : nat) (spans : gset (nat * nat)) : bool :=
  existsb (fun se => (fst se <=? pos) && (e <=? snd se)) (elements spans).

Definition extract_ids (text : str) : gset str :=
  let domain_spans := _domain_hr_spans text in
  let ids :=
    fold_left
      (fun ids m =>
         if negb (_is_inside_domain_hr (m_start m) (m_end m) domain_spans)
         then ids ∪ {[ generic_id m ]} else ids)
      (finditer ID_PATTERN text) ∅ in
  fold_left (fun ids m => ids ∪ {[ domain_id m ]})
    (finditer DOMAIN_HR_PATTERN text) ids.

(** [re.match(r'^[-*>#\d.]+\s*' + re.escape(full_id), stripped)]: the
    identifier is letters, hyphens and digits, which [re.escape] leaves
    literal. *)
Definition is_marker (c : N) : bool :=
  (c =? 45)%N || (c =? 42)%N || (c =? 62)%N || (c =? 35)%N || (c =? 46)%N
  || is_digit c.

Definition then_literal (full_id : str) (_ : option N) (_ : nat) (r : str)
    : option unit :=
  if startswith full_id r then Some tt else None.

Definition after_marker (full_id stripped : str) : bool :=
  bool_decide (is_Some
    (greedy is_marker
       (fun _ n r =>
          if 1 <=? n then greedy is_space (then_literal full_id) None 0 r
          else None)
       None 0 stripped)).

(** [re.match(r'^\|\s*' + re.escape(full_id), stripped)] *)
Definition in_table_cell (full_id stripped : str) : bool :=
  match stripped with
  | 124%N :: r => bool_decide (is_Some (greedy is_space (then_literal full_id) None 0 r))
  | _ => false
  end.

(** The test of [extract_defined_ids] for "this occurrence is a
    definition". *)
Definition is_definition (full_id stripped : str) : bool :=
  startswith full_id stripped
  || after_marker full_id stripped
  || in_table_cell full_id stripped.

Definition extract_defined_ids (text : str) : gset str * gset str :=
  fold_left
    (fun '(defined, all_ids) line =>
       let stripped := strip line in
       let domain_spans := _domain_hr_spans stripped in
       let st1 :=
         fold_left
           (fun '(defined, all_ids) m =>
              if _is_inside_domain_hr (m_start m) (m_end m) domain_spans
              then (defined, all_ids)
              else
                let full_id := generic_id m in
                let all_ids := all_ids ∪ {[ full_id ]} in
                if is_definition full_id stripped
                then (defined ∪ {[ full_id ]}, all_ids)
                else (defined, all_ids))
           (finditer ID_PATTERN stripped) (defined, all_ids) in
       fold_left
         (fun '(defined, all_ids) m =>
            let full_id := domain_id m in
            let all_ids := all_ids ∪ {[ full_id ]} in
            if is_definition full_id stripped
            then (defined ∪ {[ full_id ]}, all_ids)
            else (defined, all_ids))
         (finditer DOMAIN_HR_PATTERN stripped) st1)
    (split_lines text) (∅, ∅).

(** ** Check 2: ID integrity *)

(** [d[k] = d.get(k, 0) + 1] on a dict kept in insertion order. *)
Fixpoint dict_incr (d : list (str * nat)) (k : str) : list (str * nat) :=
  match d with
  | [] => [(k, 1)]
  | (k', c) :: d' =>
      if str_eqb k' k then (k', S c) :: d' else (k', c) :: dict_incr d' k
  end.

Definition id_def_count (rfc : str) : list (str * nat) :=
  fold_left
    (fun cnt line =>
       let stripped := strip line in
       let domain_spans := _domain_hr_spans stripped in
       let cnt1 :=
         fold_left
           (fun cnt m =>
              if _is_inside_domain_hr (m_start m) (m_end m) domain_spans
              then cnt
              else
                let full_id := generic_id m in
                if startswith full_id stripped then dict_incr cnt full_id
                else cnt)
           (finditer ID_PATTERN stripped) cnt in
       fold_left
         (fun cnt m =>
            let full_id := domain_id m in
            if startswith full_id stripped || after_marker full_id stripped
            then dict_incr cnt full_id else cnt)
         (finditer DOMAIN_HR_PATTERN stripped) cnt1)
    (split_lines rfc) [].

Definition check_2_id_integrity (rfc : str) : CheckResult :=
  let r := new_result (lit "2. ID integrity & references") Hard in
  let '(defined, all_ids) := extract_defined_ids rfc in
  let referenced := all_ids ∖ defined in
  let r :=
    fold_left
      (fun r '(id_str, count) =>
         if 1 <? count then fail r (DuplicateIdDefinition id_str count) else r)
      (id_def_count rfc) r in
  let dangling := referenced ∖ defined in
  if bool_decide (dangling ≠ ∅) then
    fold_left (fun r d => fail r (DanglingReference d))
      (take 10 (sorted dangling)) r
  else r.

End Regex.

(** ** Section slicer: [_extract_section] *)

Section Slicer.
Context {U : UnicodeDB}.

(** [re.match(r'^(#{1,6})\s+(.+)', stripped)]: the heading level
    [len(group(1))] and the title [group(2)].  [.] is any character but a
    line feed. *)
Definition is_hash (c : N) : bool := (c =? 35)%N.
Definition not_newline (c : N) : bool := negb (c =? 10)%N.

Definition heading_match (stripped : str) : option (nat * str) :=
  greedy_upto 6 is_hash
    (fun _ level r =>
       if 1 <=? level then
         greedy is_space
           (fun _ n r2 =>
              if 1 <=? n then
                greedy not_newline
                  (fun _ n3 _ => if 1 <=? n3 then Some (level, take n3 r2) else None)
                  None 0 r2
              else None)
           None 0 r
       else None)
    None 0 stripped.

(** The loop of [_extract_section].  The heading pattern enters through
    [pat], the test [re.search(heading_pattern, title, re.IGNORECASE)] on a
    title.  Leaving the loop by [break] returns the lines gathered. *)
Fixpoint section_loop (pat : str -> bool) (lines : list str)
    (in_section : bool) (section_level : nat) (section_lines : list str)
    : list str :=
  match lines with
  | [] => section_lines
  | line :: rest =>
      let stripped := strip line in
      match heading_match stripped with
      | Some (level, title) =>
          if in_section then
            if level <=? section_level then section_lines
            else section_loop pat rest in_section section_level
                   (section_lines ++ [stripped])
          else if pat title then
            section_loop pat rest true level (section_lines ++ [stripped])
          else section_loop pat rest in_section section_level section_lines
      | None =>
          if in_section then
            section_loop pat rest in_section section_level
              (section_lines ++ [stripped])
          else section_loop pat rest in_section section_level section_lines
      end
  end.

Definition _extract_section (rfc : str) (pat : str -> bool) : option str :=
  let section_lines := section_loop pat (split_lines rfc) false 0 [] in
  if nonempty section_lines then Some (join_lines section_lines) else None.

End Slicer.

(** ** Check 5: readability *)

Section Check5.
Context {U : UnicodeDB}.

(** [re.match(r'(K1|K2|...)-\d{3,}', stripped)] for a list of kinds. *)
Definition starts_with_id (alts : list str) (stripped : str) : bool :=
  bool_decide (is_Some
    (first_alt alts
       (fun _ r =>
          match r with
          | 45%N :: r2 =>
              greedy is_digit (fun _ n _ => if 3 <=? n then Some tt else None)
                None 0 r2
          | _ => None
          end) stripped)).

(** First loop: WHEN and THEN of a scenario on separate lines.  [i] is the
    line number, from 1. *)
Fixpoint scn_loop (lines : list str) (i : nat) (in_scn : bool) (scn_id : str)
    (r : CheckResult) : CheckResult :=
  match lines with
  | [] => r
  | line :: rest =>
      let stripped := strip line in
      let '(in_scn, scn_id) :=
        if starts_with_id [lit "SCN"] stripped then (true, take 8 stripped)
        else if in_scn
                && (startswith (lit "#") stripped
                    || str_eqb stripped []
                    || starts_with_id [lit "HR"; lit "DEC"; lit "REQ"; lit "CHG"] stripped)
        then (false, scn_id)
        else (in_scn, scn_id) in
      let r :=
        if in_scn && contains (lit "WHEN") stripped && contains (lit "THEN") stripped
        then fail r (WhenThenSameLine i scn_id) else r in
      scn_loop rest (S i) in_scn scn_id r
  end.

(** The test of the second loop for a line of running text. *)
Definition is_text_line (stripped : str) : bool :=
  nonempty stripped
  && negb (startswith (lit "#") stripped)
  && negb (startswith (lit "-") stripped)
  && negb (startswith (lit "|") stripped)
  && negb (startswith (lit ">") stripped).

Definition is_fence (stripped : str) : bool := startswith (lit "```") stripped.

(** Second loop: length of paragraphs outside fenced blocks. *)
Fixpoint paragraph_loop (lines : list str) (i : nat) (consecutive_text : nat)
    (in_block : bool) (r : CheckResult) : CheckResult :=
  match lines with
  | [] => r
  | line :: rest =>
      let stripped := strip line in
      if is_fence stripped then
        paragraph_loop rest (S i) 0 (negb in_block) r
      else if in_block then
        paragraph_loop rest (S i) consecutive_text in_block r
      else if is_text_line stripped then
        let consecutive_text := consecutive_text + 1 in
        if 10 <? consecutive_text then
          paragraph_loop rest (S i) 0 in_block (fail r (ParagraphTooLong i))
        else paragraph_loop rest (S i) consecutive_text in_block r
      else paragraph_loop rest (S i) 0 in_block r
  end.

Definition check_5_readability (rfc : str) : CheckResult :=
  let r := new_result (lit "5. Readability") Hard in
  let lines := split_lines rfc in
  let r := scn_loop lines 1 false [] r in
  paragraph_loop lines 1 0 false r.

End Check5.

(** ** JSON values

    What [json.load] returns: None, booleans, numbers, strings, lists and
    dicts with string keys.  A number is kept as its literal; nothing here
    computes with one. *)

Inductive json :=
| JNull
| JBool (b : bool)
| JNum (literal : str)
| JStr (s : str)
| JArr (items : list json)
| JObj (fields : list (str * json)).

(** [d.get(k)] on a dict in insertion order. *)
Fixpoint dict_get {V} (d : list (str * V)) (k : str) : option V :=
  match d with
  | [] => None
  | (k', v) :: d' => if str_eqb k' k then Some v else dict_get d' k
  end.

(** ** Check 7: the evidence references and the evidence store *)

Section Check7.
Context {U : UnicodeDB}.

(** [re.finditer(r'EVD-\d{3,}', rfc)]; [m.group()] is kept as the first
    group. *)
Definition EVD_PATTERN (_ : option N) (s : str) : option (nat * (str * str)) :=
  if startswith (lit "EVD-") s then
    greedy is_digit
      (fun _ n _ => if 3 <=? n then Some (4 + n, (take (4 + n) s, [])) else None)
      None 0 (drop 4 s)
  else None.

Definition rfc_evd_refs (rfc : str) : gset str :=
  fold_left (fun refs m => refs ∪ {[ fst (m_groups m) ]})
    (finditer EVD_PATTERN rfc) ∅.

(** Iterating [evidence.get("items", [])]: a list gives its elements; an
    empty string or dict gives nothing; iterating anything else, or calling
    [.get] on what a non-empty string or dict yields, raises. *)
Definition evidence_items (evidence : list (str * json)) : option (list json) :=
  match dict_get evidence (lit "items") with
  | None => Some []
  | Some (JArr items) => Some items
  | Some (JStr []) => Some []
  | Some (JObj []) => Some []
  | Some _ => None
  end.

(** [item.get("evd_id", "")] followed by [evd_ids_in_json.add(evd_id)]: the
    item has to be a dict and the value hashable. *)
Definition item_evd_id (item : json) : option json :=
  match item with
  | JObj fields =>
      match dict_get fields (lit "evd_id") with
      | None => Some (JStr [])
      | Some (JArr _) => None
      | Some (JObj _) => None
      | Some v => Some v
      end
  | _ => None
  end.

Fixpoint evd_ids_in_json (items : list json) : option (list json) :=
  match items with
  | [] => Some []
  | item :: rest =>
      match item_evd_id item with
      | None => None
      | Some v =>
          match evd_ids_in_json rest with
          | None => None
          | Some vs => Some (v :: vs)
          end
      end
  end.

(** A string of the text equals a member of [evd_ids_in_json] only when that
    member is the same string. *)
Definition json_is_str (x : str) (v : json) : bool :=
  match v with JStr s => str_eqb s x | _ => false end.

End Check7.

(** ** The object store

    Lists and dicts are mutable objects with an identity; a variable or a
    field holds a reference to one.  The store maps locations to objects.  A
    new object takes the next free location. *)

Inductive val :=
| VNull
| VBool (b : bool)
| VNum (literal : str)
| VStr (s : str)
| VRef (l : nat).

Inductive obj :=
| OList (items : list val)
| ODict (fields : list (str * val)).

Abbreviation heap := (list obj) (only parsing).

(** Building a value in the store, as a literal or [json.load] does: the
    parts first, then the container that refers to them. *)
Fixpoint alloc (j : json) (h : list obj) : list obj * val :=
  match j with
  | JNull => (h, VNull)
  | JBool b => (h, VBool b)
  | JNum n => (h, VNum n)
  | JStr s => (h, VStr s)
  | JArr items =>
      let '(h', vs) :=
        (fix alloc_items (items : list json) (h : list obj) : list obj * list val :=
           match items with
           | [] => (h, [])
           | x :: xs =>
               let '(h1, v) := alloc x h in
               let '(h2, vs) := alloc_items xs h1 in
               (h2, v :: vs)
           end) items h in
      (h' ++ [OList vs], VRef (length h'))
  | JObj fields =>
      let '(h', kvs) :=
        (fix alloc_fields (fields : list (str * json)) (h : list obj)
           : list obj * list (str * val) :=
           match fields with
           | [] => (h, [])
           | (k, x) :: xs =>
               let '(h1, v) := alloc x h in
               let '(h2, kvs) := alloc_fields xs h1 in
               (h2, (k, v) :: kvs)
           end) fields h in
      (h' ++ [ODict kvs], VRef (length h'))
  end.

Fixpoint alloc_fields (fields : list (str * json)) (h : list obj)
    : list obj * list (str * val) :=
  match fields with
  | [] => (h, [])
  | (k, x) :: xs =>
      let '(h1, v) := alloc x h in
      let '(h2, kvs) := alloc_fields xs h1 in
      (h2, (k, v) :: kvs)
  end.

(** Reading a value of the store back as a tree.  The fuel bounds the
    nesting; a dangling reference or a cycle gives [None]. *)
Fixpoint read (fuel : nat) (h : list obj) (v : val) : option json :=
  match v with
  | VNull => Some JNull
  | VBool b => Some (JBool b)
  | VNum n => Some (JNum n)
  | VStr s => Some (JStr s)
  | VRef l =>
      match fuel with
      | O => None
      | S fuel' =>
          match h !! l with
          | None => None
          | Some (OList items) =>
              JArr <$> mapM (read fuel' h) items
          | Some (ODict fields) =>
              JObj <$> mapM (fun kv => pair (fst kv) <$> read fuel' h (snd kv)) fields
          end
      end
  end.

(** The value a reference denotes in a store. *)
Definition denotes (h : list obj) (v : val) : option json := read (length h) h v.

(** [copy.deepcopy(v)]: a structure of new objects with the same contents.
    The model copies tree-shaped values, which is what [DEFAULT_CONFIG] is; it
    has no memo table, and gives [None] on a cyclic store. *)
Definition deepcopy (h : list obj) (v : val) : option (list obj * val) :=
  match denotes h v with
  | Some j => Some (alloc j h)
  | None => None
  end.

(** ** Configuration *)

(** The literal assigned to [DEFAULT_CONFIG]; its non-ASCII keywords are
    written as code points. *)
Definition DEFAULT_CONFIG_literal : json :=
  JObj [
    (lit "min_scn_categories",
     JArr (map JStr [lit "normal"; lit "reject_authn"; lit "reject_authz";
                     lit "limits_quota"; lit "dependency_down"; lit "abuse"]));
    (lit "reject_categories",
     JArr (map JStr [lit "reject_authn"; lit "reject_authz"]));
    (lit "allowed_lang_tags",
     JArr (map JStr [[]; lit "text"; lit "contract"; lit "json";
                     lit "mermaid"; lit "bash"]));
    (lit "meta_fields",
     JArr (map JStr [lit "template_id"; lit "template_version"; lit "strictness"]));
    (lit "review_keywords",
     JArr (map JStr [[32972; 26223]; [30171; 28857]; [30446; 26631];
                     [32467; 35770]; [26041; 26696]; [24433; 21709]]%N));
    (lit "normative_keywords",
     JArr (map JStr [[23433; 20840]; [21487; 38752]; [39564; 25910];
                     [20915; 31574]; [21487; 35266; 27979]]%N));
    (lit "heading_category_map",
     JObj [
       (lit "normal", JStr (lit "normal"));
       ([27491; 24120]%N, JStr (lit "normal"));
       (lit "authn", JStr (lit "reject_authn"));
       (lit "authz", JStr (lit "reject_authz"));
       ([26435; 38480]%N, JStr (lit "reject_authz"));
       ([36234; 26435]%N, JStr (lit "reject_authz"));
       (lit "reject", JStr (lit "reject_authz"));
       (lit "limits", JStr (lit "limits_quota"));
       (lit "quota", JStr (lit "limits_quota"));
       ([38750; 27861; 20540]%N, JStr (lit "limits_quota"));
       ([36793; 30028]%N, JStr (lit "limits_quota"));
       (lit "dependency", JStr (lit "dependency_down"));
       ([20381; 36182]%N, JStr (lit "dependency_down"));
       ([25925; 38556]%N, JStr (lit "dependency_down"));
       (lit "recovery", JStr (lit "dependency_down"));
       (lit "abuse", JStr (lit "abuse"));
       ([28389; 29992]%N, JStr (lit "abuse"));
       ([40065; 26834]%N, JStr (lit "abuse"))
     ]);
    (lit "placeholder_patterns",
     JArr (map JStr [lit "(?<![A-Za-z])TBD(?![A-Za-z])";
                     lit "(?<![A-Za-z])XXX(?![A-Za-z])";
                     lit "(?<![A-Za-z])TODO(?![A-Za-z])";
                     lit "(?<![A-Za-z])FIXME(?![A-Za-z])";
                     lit "<\.\.\.>"]))
  ].

(** The store after the module-level assignment of [DEFAULT_CONFIG], and the
    reference the name holds. *)
Definition module_heap : list obj := fst (alloc DEFAULT_CONFIG_literal []).
Definition DEFAULT_CONFIG : val := snd (alloc DEFAULT_CONFIG_literal []).

(** Exceptions of [open] and [json.load], and results of calls that may
    raise. *)
Inductive exn :=
| FileNotFoundError
| JSONDecodeError
| OtherError (what : str).

Inductive outcome (A : Type) :=
| Returned (a : A)
| Raised (e : exn).
Arguments Returned {A} a.
Arguments Raised {A} e.

(** What lies outside the script: the file system with the JSON parser, the
    path of [gate_a_config.json] next to the script, and [dict.update] given
    something that is not a mapping (it raises, or sets the pairs the
    iterable spells out). *)
Record environment := {
  open_and_load : str -> outcome json;
  adjacent_config : str;
  update_from_iterable : json -> outcome (list (str * json))
}.

(** The key/value pairs [cfg.update(overrides)] sets. *)
Definition update_pairs (env : environment) (overrides : json)
    : outcome (list (str * json)) :=
  match overrides with
  | JObj fields => Returned fields
  | other => update_from_iterable env other
  end.

(** [cfg.update(...)] on the dict at location [cfg]: each key is set in turn,
    in place. *)
Definition dict_update (h : list obj) (cfg : nat) (kvs : list (str * val))
    : list obj :=
  match h !! cfg with
  | Some (ODict fields) =>
      <[cfg := ODict (fold_left (fun d kv => dict_set d (fst kv) (snd kv)) kvs fields)]> h
  | _ => h
  end.

Definition load_config (env : environment) (config_path : option str)
    (h : list obj) : option (outcome (list obj * val)) :=
  match deepcopy h DEFAULT_CONFIG with
  | None => None
  | Some (h1, cfg) =>
      let config_path :=
        match config_path with
        | None => adjacent_config env
        | Some p => p
        end in
      Some
        match open_and_load env config_path with
        | Raised FileNotFoundError => Returned (h1, cfg)
        | Raised JSONDecodeError => Returned (h1, cfg)
        | Raised e => Raised e
        | Returned overrides =>
            match update_pairs env overrides with
            | Raised e => Raised e
            | Returned fields =>
                let '(h2, kvs) := alloc_fields fields h1 in
                match cfg with
                | VRef c => Returned (dict_update h2 c kvs, cfg)
                | _ => Returned (h2, cfg)
                end
            end
        end
  end.

(** ** Auxiliary notions of the statements *)

(** The character before the position reached after taking [ds]. *)
Definition last_or (prev : option N) (ds : str) : option N :=
  match last ds with Some c => Some c | None => prev end.

(** The token of the no-double-counting property. *)
Definition token : str := lit "SEC-HR-001".

(** The character before position [i] of a text. *)
Definition char_before (t : str) (i : nat) : option N :=
  match i with O => None | S j => t !! j end.

(** The text carries the string [a] from position [i] on. *)
Definition literal_at (t : str) (i : nat) (a : str) : Prop :=
  ∀ j c, a !! j = Some c → t !! (i + j) = Some c.

(** The [n] characters from position [i] on are all of a class. *)
Definition run_at (cls : N → bool) (t : str) (i n : nat) : Prop :=
  ∀ j, j < n → ∃ c, t !! (i + j) = Some c ∧ cls c = true.

Section Shapes.
Context {U : UnicodeDB}.

(** What a match of [ID_PATTERN] spanning [s, e) says about the text. *)
Definition generic_shape (t : str) (s e : nat) (a : str) (n : nat) : Prop :=
  a ∈ kinds ∧ literal_at t s a ∧ t !! (s + length a) = Some 45%N
  ∧ run_at is_digit t (s + length a + 1) n ∧ 3 ≤ n
  ∧ e = s + length a + 1 + n ∧ opt_word (t !! e) = false.

(** What a match of [DOMAIN_HR_PATTERN] spanning [s, e) says about the
    text. *)
Definition domain_shape (t : str) (s e : nat) (n nd : nat) : Prop :=
  1 ≤ n ∧ run_at is_upper t s n ∧ literal_at t (s + n) (lit "-HR-")
  ∧ run_at is_digit t (s + n + 4) nd ∧ 3 ≤ nd
  ∧ e = s + n + 4 + nd ∧ opt_word (t !! e) = false.

(** Two spans share a character. *)
Definition overlap (g d : rmatch) : Prop :=
  m_start g < m_end d ∧ m_start d < m_end g.

(** A generic match that is counted by [extract_ids]. *)
Definition counted (text : str) (g : rmatch) : Prop :=
  g ∈ finditer ID_PATTERN text
  ∧ _is_inside_domain_hr (m_start g) (m_end g) (_domain_hr_spans text) = false.

End Shapes.

(** The messages that report a dangling reference. *)
Definition is_dangling_issue (i : issue) : bool :=
  match i with DanglingReference _ => true | _ => false end.

(** The messages that report a duplicate definition of [id_str]. *)
Definition is_duplicate_issue (id_str : str) (i : issue) : bool :=
  match i with DuplicateIdDefinition x _ => str_eqb x id_str | _ => false end.

(** A document with two bulleted definitions of [DEC-001]. *)
Definition bulleted_duplicate : str :=
  lit "- DEC-001: choose plan A" ++ [10%N] ++ lit "- DEC-001: choose plan B".

(** A document with two table rows defining [SEC-HR-001]. *)
Definition table_duplicate : str :=
  lit "| SEC-HR-001 | no access |" ++ [10%N] ++ lit "| SEC-HR-001 | no access |".

(** A document that refers to eleven identifiers and defines none. *)
Definition eleven_dangling : str :=
  lit "see DEC-001 DEC-002 DEC-003 DEC-004 DEC-005 DEC-006 DEC-007 DEC-008 DEC-009 DEC-010 DEC-011".

Section SlicerNotions.
Context {U : UnicodeDB}.

(** A line that is a heading whose title the pattern matches. *)
Definition matching_heading (pat : str → bool) (line : str) : Prop :=
  ∃ level title, heading_match (strip line) = Some (level, title) ∧ pat title = true.

(** A line that is a heading of depth at most [level]. *)
Definition closing_heading (level : nat) (line : str) : Prop :=
  ∃ lv title, heading_match (strip line) = Some (lv, title) ∧ lv ≤ level.

End SlicerNotions.

Section ParagraphNotions.
Context {U : UnicodeDB}.

(** Line by line: is this a non-empty line outside fenced blocks that the
    paragraph loop counts, one that starts with none of [#], [-], [|] and
    [>]?  The fence lines themselves are not. *)
Fixpoint text_outside_fences (lines : list str) (in_block : bool) : list bool :=
  match lines with
  | [] => []
  | line :: rest =>
      let stripped := strip line in
      if is_fence stripped then false :: text_outside_fences rest (negb in_block)
      else (negb in_block && is_text_line stripped)
             :: text_outside_fences rest in_block
  end.

End ParagraphNotions.

(** ** Notions for the evidence check *)

(** The evidence id [x] is the [evd_id] of an item of the store. *)
Definition in_store (x : str) (items : list json) : Prop :=
  ∃ item, item ∈ items ∧ item_evd_id item = Some (JStr x).

(** A store of the shape the specification gives, with one item whose
    [evidence_id] is EVD-001. *)
Definition store_with_evidence_id : list (str * json) :=
  [(lit "schema_version", JStr (lit "v1"));
   (lit "items", JArr [JObj [(lit "evidence_id", JStr (lit "EVD-001"))]])].

(** The same item under the key the check reads. *)
Definition store_with_evd_id : list (str * json) :=
  [(lit "schema_version", JStr (lit "v1"));
   (lit "items", JArr [JObj [(lit "evd_id", JStr (lit "EVD-001"))]])].

(** A store with one item, and a text that cites six other ids. *)
Definition six_missing : str :=
  lit "EVD-101 EVD-102 EVD-103 EVD-104 EVD-105 EVD-106".

(** ** Notions for the object store *)

(** The list part of [alloc], by name. *)
Fixpoint alloc_items (items : list json) (h : list obj) : list obj * list val :=
  match items with
  | [] => (h, [])
  | x :: xs =>
      let '(h1, v) := alloc x h in
      let '(h2, vs) := alloc_items xs h1 in
      (h2, v :: vs)
  end.

(** Nesting of containers in a value. *)
Fixpoint depth (j : json) : nat :=
  match j with
  | JArr items => S (foldr (λ x m, max (depth x) m) 0 items)
  | JObj fields => S (foldr (λ kv m, max (depth (snd kv)) m) 0 fields)
  | _ => 0
  end.

(** A value that is no reference, or a reference into the locations
    [a, b). *)
Definition val_in (a b : nat) (v : val) : Prop :=
  match v with VRef l => a ≤ l < b | _ => True end.

Definition obj_in (a b : nat) (o : obj) : Prop :=
  match o with
  | OList items => Forall (val_in a b) items
  | ODict fields => Forall (λ kv, val_in a b (snd kv)) fields
  end.

(** The objects at the locations [a, b) of a store refer to nothing outside
    [a, b). *)
Definition closed_region (a b : nat) (h : list obj) : Prop :=
  b ≤ length h ∧ ∀ l o, a ≤ l < b → h !! l = Some o → obj_in a b o.

(** Two stores with the same objects at the locations [a, b). *)
Definition agree_on (a b : nat) (h h' : list obj) : Prop :=
  ∀ l, a ≤ l < b → h' !! l = h !! l.

(** The objects of the default configuration are as the module made them. *)
Definition defaults_intact (h : list obj) : Prop :=
  agree_on 0 (length module_heap) module_heap h.

(** Field [k] of the dict [cfg] holds a reference to the object at [l]: a
    collection-valued field. *)
Definition field_ref (h : list obj) (cfg : val) (k : str) (l : nat) : Prop :=
  ∃ c fields, cfg = VRef c ∧ h !! c = Some (ODict fields)
              ∧ dict_get fields k = Some (VRef l).


(** An environment where [gate_a_config.json] next to the script overrides
    [meta_fields], and no other file exists. *)
Definition adjacent_override : environment :=
  {| open_and_load := λ p,
       if str_eqb p (lit "/opt/ohrfc/scripts/gate_a_config.json")
       then Returned (JObj [(lit "meta_fields", JArr [JStr (lit "strictness")])])
       else Raised FileNotFoundError;
     adjacent_config := lit "/opt/ohrfc/scripts/gate_a_config.json";
     update_from_iterable := λ _, Raised (OtherError (lit "TypeError")) |}.


(** What allocating the value [j] in the store [h], a store whose region from
    [a] on is closed, guarantees of the new store [h'] and the value [v]
    returned: the old objects are kept, the region is still closed, [v]
    refers to a new object, and reads back as [j]. *)
Definition alloc_post (a : nat) (h : list obj) (j : json) (h' : list obj) (v : val)
    : Prop :=
  (∃ ext, h' = h ++ ext)
  ∧ closed_region a (length h') h'
  ∧ val_in (length h) (length h') v
  ∧ (∀ n, depth j ≤ n → read n h' v = Some j)
  ∧ length h + depth j ≤ length h'.

Definition alloc_items_post (a : nat) (h : list obj) (items : list json)
    (h' : list obj) (vs : list val) : Prop :=
  (∃ ext, h' = h ++ ext)
  ∧ closed_region a (length h') h'
  ∧ Forall (val_in (length h) (length h')) vs
  ∧ (∀ n, Forall (λ x, depth x ≤ n) items → mapM (read n h') vs = Some items)
  ∧ length h + foldr (λ x m, max (depth x) m) 0 items ≤ length h'.

Definition alloc_fields_post (a : nat) (h : list obj) (fields : list (str * json))
    (h' : list obj) (kvs : list (str * val)) : Prop :=
  (∃ ext, h' = h ++ ext)
  ∧ closed_region a (length h') h'
  ∧ Forall (λ kv, val_in (length h) (length h') (snd kv)) kvs
  ∧ (∀ n, Forall (λ kv, depth (snd kv) ≤ n) fields →
          mapM (λ kv, pair (fst kv) <$> read n h' (snd kv)) kvs = Some fields)
  ∧ length h + foldr (λ kv m, max (depth (snd kv)) m) 0 fields ≤ length h'.

(** The store and the configuration a resolution returned. *)
Definition heap_of (r : option (outcome (list obj * val))) : list obj :=
  match r with Some (Returned (h, _)) => h | _ => [] end.

Definition cfg_of (r : option (outcome (list obj * val))) : val :=
  match r with Some (Returned (_, cfg)) => cfg | _ => VNull end.

(** A path with no file behind it, as in the regression test. *)
Definition nonexistent_path : str := lit "/nonexistent/path.json".

(** Two resolutions in a row, the first with the override next to the
    script. *)
Definition first_resolution : option (outcome (list obj * val)) :=
  load_config adjacent_override None module_heap.

Definition second_resolution : option (outcome (list obj * val)) :=
  load_config adjacent_override (Some nonexistent_path) (heap_of first_resolution).

(** A document with an acceptance section that has a sub-section and is
    closed by the next section of the same depth. *)
Definition sliced_document : str :=
  lit "intro" ++ [10%N] ++ lit "## 11. Acceptance" ++ [10%N]
  ++ lit "  must pass" ++ [10%N] ++ lit "### 11.1 Cases" ++ [10%N]
  ++ lit "SCN-001" ++ [10%N] ++ lit "## 12. Next" ++ [10%N] ++ lit "tail".

(** The shallow merge of [cfg.update]: each override key replaces the value
    of the default key wholesale, or is added. *)
Definition merge_fields {V} (fields overrides : list (str * V)) : list (str * V) :=
  fold_left (λ d kv, dict_set d (fst kv) (snd kv)) overrides fields.

(** The fields of the default configuration. *)
Definition default_fields : list (str * json) :=
  match DEFAULT_CONFIG_literal with JObj fields => fields | _ => [] end.

(** ** Notions for the further properties *)

Section IdNotions.
Context {U : UnicodeDB}.

(** The two canonical forms of an identifier: [KIND-NNN] and
    [DOMAIN-HR-NNN], with at least three digits. *)
Definition generic_form (x : str) : Prop :=
  ∃ a ds, a ∈ kinds ∧ Forall (λ c, is_digit c = true) ds ∧ 3 ≤ length ds
          ∧ x = a ++ lit "-" ++ ds.

Definition domain_form (x : str) : Prop :=
  ∃ dom ds, dom ≠ [] ∧ Forall (λ c, is_upper c = true) dom
            ∧ Forall (λ c, is_digit c = true) ds ∧ 3 ≤ length ds
            ∧ x = dom ++ lit "-HR-" ++ ds.

End IdNotions.

(** [x] occurs in [text]. *)
Definition occurs_in (x text : str) : Prop := ∃ pre post, text = pre ++ x ++ post.

Section LineNotions.
Context {U : UnicodeDB}.

(** The trimmed line starts with the identifier [x] as a whole token: no word
    character follows it. *)
Definition starts_line (x stripped : str) : Prop :=
  ∃ rest, stripped = x ++ rest ∧ opt_word (head rest) = false.

End LineNotions.

(** [d.get(k, 0)] on a counting dict. *)
Definition count_of (d : list (str * nat)) (k : str) : nat :=
  default 0 (dict_get d k).

(** A document that defines [DEC-001] at the start of two lines. *)
Definition line_start_duplicate : str :=
  lit "DEC-001: choose plan A" ++ [10%N] ++ lit "text" ++ [10%N]
  ++ lit "  DEC-001: choose plan B".

Section CountLine.
Context {U : UnicodeDB}.

(** One iteration of the line loop of the duplicate counter of check 2. *)
Definition count_line (cnt : list (str * nat)) (line : str) : list (str * nat) :=
  let stripped := strip line in
  let domain_spans := _domain_hr_spans stripped in
  let cnt1 :=
    fold_left
      (fun cnt m =>
         if _is_inside_domain_hr (m_start m) (m_end m) domain_spans
         then cnt
         else
           let full_id := generic_id m in
           if startswith full_id stripped then dict_incr cnt full_id
           else cnt)
      (finditer ID_PATTERN stripped) cnt in
  fold_left
    (fun cnt m =>
       let full_id := domain_id m in
       if startswith full_id stripped || after_marker full_id stripped
       then dict_incr cnt full_id else cnt)
    (finditer DOMAIN_HR_PATTERN stripped) cnt1.

End CountLine.

Section ScenarioNotions.
Context {U : UnicodeDB}.

(** The line opens a scenario block: trimmed, it starts with [SCN-] and at
    least three digits. *)
Definition opens_scenario (line : str) : Prop :=
  starts_with_id [lit "SCN"] (strip line) = true.

(** The line closes a scenario block: trimmed, it is empty, a heading, or
    starts with an identifier of another kind. *)
Definition closes_scenario (line : str) : Prop :=
  startswith (lit "#") (strip line)
  || str_eqb (strip line) []
  || starts_with_id [lit "HR"; lit "DEC"; lit "REQ"; lit "CHG"] (strip line)
  = true.

Definition continues_scenario (line : str) : Prop :=
  ¬ opens_scenario line ∧ ¬ closes_scenario line.

Definition when_and_then (line : str) : Prop :=
  contains (lit "WHEN") (strip line) = true
  ∧ contains (lit "THEN") (strip line) = true.

(** The update of [in_scn] and [scn_id] by one line in the first loop of
    check 5. *)
Definition scn_step (st : bool * str) (line : str) : bool * str :=
  let stripped := strip line in
  if starts_with_id [lit "SCN"] stripped then (true, take 8 stripped)
  else if st.1
          && (startswith (lit "#") stripped
              || str_eqb stripped []
              || starts_with_id [lit "HR"; lit "DEC"; lit "REQ"; lit "CHG"] stripped)
  then (false, st.2)
  else st.

End ScenarioNotions.

(** The entry of [details] for a result. *)
Definition detail_of (r : CheckResult) : detail :=
  {| d_passed := passed r; d_issues := issues r; d_warnings := warnings r |}.

(** The path a resolution opens. *)
Definition resolved_path (env : environment) (config_path : option str) : str :=
  match config_path with
  | None => adjacent_config env
  | Some p => p
  end.

(** An environment where every file is there and none may be read. *)
Definition unreadable_files : environment :=
  {| open_and_load := λ _, Raised (OtherError (lit "PermissionError"));
     adjacent_config := lit "/opt/ohrfc/scripts/gate_a_config.json";
     update_from_iterable := λ _, Raised (OtherError (lit "TypeError")) |}.

(** ** Check 3: placeholder residuals *)

(** [[A-Za-z]] *)
Definition is_ascii_letter (c : N) : bool :=
  in_range 65 90 c || in_range 97 122 c.

Definition opt_letter (o : option N) : bool :=
  match o with Some c => is_ascii_letter c | None => false end.

(** One alternative [(?<![A-Za-z])W(?![A-Za-z])]: the word [W], with no
    ASCII letter before it and none after it.  [m.group()] is kept as the
    first group. *)
Definition bare_word (w : str) (prev : option N) (s : str)
    : option (nat * (str * str)) :=
  if negb (opt_letter prev) && startswith w s
     && negb (opt_letter (head (drop (length w) s)))
  then Some (length w, (w, []))
  else None.

(** An alternative that is a literal, as [<\.\.\.>]. *)
Definition literal_here (w : str) (_ : option N) (s : str)
    : option (nat * (str * str)) :=
  if startswith w s then Some (length w, (w, [])) else None.

(** [a1|a2|...]: the first alternative that matches. *)
Fixpoint first_match (alts : list (option N -> str -> option (nat * (str * str))))
    (prev : option N) (s : str) : option (nat * (str * str)) :=
  match alts with
  | [] => None
  | a :: rest =>
      match a prev s with
      | Some m => Some m
      | None => first_match rest prev s
      end
  end.

(** [PLACEHOLDER_PATTERN], compiled from the [placeholder_patterns] of the
    default configuration joined by [|]. *)
Definition PLACEHOLDER_PATTERN : option N -> str -> option (nat * (str * str)) :=
  first_match
    [bare_word (lit "TBD"); bare_word (lit "XXX"); bare_word (lit "TODO");
     bare_word (lit "FIXME"); literal_here (lit "<...>")].

(** [str(i)] for a line number. *)
Fixpoint uint_digits (d : Decimal.uint) : str :=
  match d with
  | Decimal.Nil => []
  | Decimal.D0 d => 48%N :: uint_digits d
  | Decimal.D1 d => 49%N :: uint_digits d
  | Decimal.D2 d => 50%N :: uint_digits d
  | Decimal.D3 d => 51%N :: uint_digits d
  | Decimal.D4 d => 52%N :: uint_digits d
  | Decimal.D5 d => 53%N :: uint_digits d
  | Decimal.D6 d => 54%N :: uint_digits d
  | Decimal.D7 d => 55%N :: uint_digits d
  | Decimal.D8 d => 56%N :: uint_digits d
  | Decimal.D9 d => 57%N :: uint_digits d
  end.

Definition decimal (n : nat) : str := uint_digits (Nat.to_uint n).

(** [f"Line {i}: placeholder '{m.group()}' found"] *)
Definition placeholder_message (i : nat) (m : rmatch) : issue :=
  OtherIssue (lit "Line " ++ decimal i ++ lit ": placeholder '"
              ++ fst (m_groups m) ++ lit "' found").

(** The loop of check 3 over the lines, numbered from [i]; the lines are not
    trimmed. *)
Fixpoint placeholder_loop (lines : list str) (i : nat) (r : CheckResult)
    : CheckResult :=
  match lines with
  | [] => r
  | line :: rest =>
      placeholder_loop rest (S i)
        (fold_left (fun r m => fail r (placeholder_message i m))
           (finditer PLACEHOLDER_PATTERN line) r)
  end.

Definition check_3_placeholders (rfc : str) : CheckResult :=
  placeholder_loop (split_lines rfc) 1
    (new_result (lit "3. Placeholder residuals") Hard).

(** The words check 3 looks for. *)
Definition placeholder_words : list str :=
  [lit "TBD"; lit "XXX"; lit "TODO"; lit "FIXME"].

(** The line holds a placeholder: the literal [<...>], or one of the words
    with no ASCII letter next to it on either side. *)
Definition has_placeholder (line : str) : Prop :=
  ∃ pre w post,
    line = pre ++ w ++ post
    ∧ (w = lit "<...>"
       ∨ (w ∈ placeholder_words
          ∧ opt_letter (last pre) = false ∧ opt_letter (head post) = false)).

(** A document with a bare [TODO] on its second line. *)
Definition todo_document : str :=
  lit "# Title" ++ [10%N] ++ lit "- TODO: write this".

(** The flag and the issue list of a hard result agree, and it carries no
    warning. *)
Definition consistent (r : CheckResult) : Prop :=
  (passed r = true ↔ issues r = []) ∧ warnings r = [] ∧ kind r = Hard.

(** The paragraph counter, started at [c], passes 10 at position [q] of the
    line flags: the flags up to [q] are all set and with [c] they make a
    multiple of eleven, or the flags after some unset flag up to [q] are all
    set and make a multiple of eleven. *)
Definition reported_at (flags : list bool) (c q : nat) : Prop :=
  (∃ n, 1 ≤ n ∧ c + q + 1 = 11 * n ∧ ∀ k, k ≤ q → flags !! k = Some true)
  ∨ (∃ s n, 1 ≤ n ∧ q = s + 11 * n ∧ flags !! s = Some false
            ∧ ∀ k, s < k ≤ q → flags !! k = Some true).

(** ** List items, as the script reads them elsewhere *)

Section ListItems.
Context {U : UnicodeDB}.

(** The test of check 16 for a list item:
    [stripped.startswith('-') or stripped.startswith('*') or
     re.match(r'^\d+\.', stripped)]. *)
Definition is_list_item (stripped : str) : bool :=
  startswith (lit "-") stripped
  || startswith (lit "*") stripped
  || bool_decide (is_Some
       (greedy is_digit
          (fun _ n r =>
             if 1 <=? n then
               match r with
               | 46%N :: _ => Some tt
               | _ => None
               end
             else None)
          None 0 stripped)).

End ListItems.

(** Eleven items of a list marked with [*]. *)
Definition starred_list : str :=
  lit "* item" ++ [10%N] ++ lit "* item" ++ [10%N] ++ lit "* item" ++ [10%N]
  ++ lit "* item" ++ [10%N] ++ lit "* item" ++ [10%N] ++ lit "* item" ++ [10%N]
  ++ lit "* item" ++ [10%N] ++ lit "* item" ++ [10%N] ++ lit "* item" ++ [10%N]
  ++ lit "* item" ++ [10%N] ++ lit "* item".

(** Eleven numbered steps. *)
Definition numbered_steps : str :=
  lit "1. step" ++ [10%N] ++ lit "2. step" ++ [10%N] ++ lit "3. step" ++ [10%N]
  ++ lit "4. step" ++ [10%N] ++ lit "5. step" ++ [10%N] ++ lit "6. step" ++ [10%N]
  ++ lit "7. step" ++ [10%N] ++ lit "8. step" ++ [10%N] ++ lit "9. step" ++ [10%N]
  ++ lit "10. step" ++ [10%N] ++ lit "11. step".

(** Eleven items of a list marked with [-]. *)
Definition dashed_list : str :=
  lit "- item" ++ [10%N] ++ lit "- item" ++ [10%N] ++ lit "- item" ++ [10%N]
  ++ lit "- item" ++ [10%N] ++ lit "- item" ++ [10%N] ++ lit "- item" ++ [10%N]
  ++ lit "- item" ++ [10%N] ++ lit "- item" ++ [10%N] ++ lit "- item" ++ [10%N]
  ++ lit "- item" ++ [10%N] ++ lit "- item".

(** ** Check 7 in full: [check_7_evidence]

    What the check takes from the Python run time beyond the text
    primitives above: [str(v)] of a value that is no string, the truth value
    of a number, [str.lower()], and the comparison of a pattern character
    with a text character under [re.IGNORECASE]. *)

Class PyRuntime := {
  py_repr : json -> str;
  num_nonzero : str -> bool;
  py_lower : str -> str;
  ci_match : N -> N -> bool
}.

(** A run time for ASCII texts and stores whose values are strings, as in
    the examples: the truth value of a number by its digits, ASCII
    lower-casing; [py_repr] gives the constants and the literal of a
    number, and is not defined further. *)
Definition ascii_lower (c : N) : N :=
  if in_range 65 90 c then (c + 32)%N else c.

Definition ascii_runtime : PyRuntime :=
  {| py_repr := fun v =>
       match v with
       | JNull => lit "None"
       | JBool true => lit "True"
       | JBool false => lit "False"
       | JNum l => l
       | _ => []
       end;
     num_nonzero := fun l => existsb (in_range 49 57) l;
     py_lower := map ascii_lower;
     ci_match := fun c d => (ascii_lower c =? ascii_lower d)%N |}.

(** The messages of check 7 that report a missing evidence id. *)
Definition is_missing_issue (i : issue) : bool :=
  match i with MissingEvd _ => true | _ => false end.

Section Check7Full.
Context {U : UnicodeDB} {R : PyRuntime}.

(** Truth value of a value, as [if v] takes it. *)
Definition truthy (v : json) : bool :=
  match v with
  | JNull => false
  | JBool b => b
  | JNum l => num_nonzero l
  | JStr s => nonempty s
  | JArr items => nonempty items
  | JObj fields => nonempty fields
  end.

(** [str(v)], which is also what an f-string puts for [v]. *)
Definition py_str (v : json) : str :=
  match v with
  | JStr s => s
  | _ => py_repr v
  end.

(** The truth value of [item.get(k)]. *)
Definition get_truthy (fields : list (str * json)) (k : str) : bool :=
  match dict_get fields k with
  | Some v => truthy v
  | None => false
  end.

(** [item["links_to"] if isinstance(item["links_to"], list)
     else [item["links_to"]]], reached when [item.get("links_to")] is
    true. *)
Definition truncated_links (fields : list (str * json)) : list json :=
  match dict_get fields (lit "links_to") with
  | Some (JArr links) => links
  | Some v => [v]
  | None => []
  end.

(** Lines 481-489: the truncated-evidence test for one item. *)
Definition truncated_item (rfc : str) (fields : list (str * json))
    (evd_id : json) (r : CheckResult) : CheckResult :=
  if get_truthy fields (lit "truncated") && get_truthy fields (lit "links_to")
  then
    fold_left
      (fun r link =>
         if contains (lit "HR-") (py_str link)
            || contains (lit "REQ-") (py_str link)
         then
           if negb (contains (lit "Unresolved") rfc)
              && negb (contains (lit "unresolved") (py_lower rfc))
           then fail r (OtherIssue
                  (lit "Truncated evidence " ++ py_str evd_id
                   ++ lit " supports hard assertion but no Unresolved/DEC in rfc.md"))
           else r
         else r)
      (truncated_links fields) r
  else r.

(** Lines 477-489: the loop over the items.  It gathers the ids and runs
    the truncated-evidence test; an item that is no dict, or whose
    [evd_id] cannot go into a set, makes it raise. *)
Fixpoint evidence_loop (rfc : str) (items : list json) (ids : list json)
    (r : CheckResult) : option (list json * CheckResult) :=
  match items with
  | [] => Some (ids, r)
  | item :: rest =>
      match item, item_evd_id item with
      | JObj fields, Some evd_id =>
          evidence_loop rfc rest (ids ++ [evd_id])
            (truncated_item rfc fields evd_id r)
      | _, _ => None
      end
  end.

(** Lines 491-499, part A: the evidence ids of the text that are no id of
    the store, the first five in sorted order, when the store has items. *)
Definition part_a (rfc : str) (items ids : list json) (r : CheckResult)
    : CheckResult :=
  let missing_evd :=
    filter (fun x => existsb (json_is_str x) ids = false) (rfc_evd_refs rfc) in
  if bool_decide (missing_evd ≠ ∅) && nonempty items
  then fold_left (fun r evd => fail r (MissingEvd evd))
         (take 5 (sorted missing_evd)) r
  else r.

(** Lines 506-515: the definitions of hard rules on one line, the generic
    ones of kind [HR] first, then the domain-prefixed ones. *)
Definition hr_definitions_in (i : nat) (stripped : str)
    : list (nat * str * str) :=
  flat_map
    (fun m =>
       if str_eqb (fst (m_groups m)) (lit "HR")
       then [(i, lit "HR-" ++ snd (m_groups m), stripped)]
       else [])
    (finditer ID_PATTERN stripped)
  ++ map (fun m => (i, domain_id m, stripped))
       (finditer DOMAIN_HR_PATTERN stripped).

(** Lines 503-515, with [enumerate(lines)] from [i]. *)
Fixpoint hr_definitions_from (i : nat) (lines : list str)
    : list (nat * str * str) :=
  match lines with
  | [] => []
  | line :: rest =>
      hr_definitions_in i (strip line) ++ hr_definitions_from (S i) rest
  end.

Definition hr_definitions (lines : list str) : list (nat * str * str) :=
  hr_definitions_from 0 lines.

(** ['\n'.join(lines[max(0, i - before) : min(len(lines), i + after)])] *)
Definition window (lines : list str) (i before after : nat) : str :=
  let window_start := i - before in
  let window_end := min (length lines) (i + after) in
  join_lines (take (window_end - window_start) (drop window_start lines)).

(** [pattern.search(text)]: does the pattern match at some position? *)
Fixpoint search_from (p : option N -> str -> bool) (prev : option N) (s : str)
    : bool :=
  p prev s ||
  match s with
  | [] => false
  | c :: tl => search_from p (Some c) tl
  end.

Definition search (p : option N -> str -> bool) (text : str) : bool :=
  search_from p None text.

(** [evd_line_pattern = re.compile(r'EVD-\d{3,}')] at a position. *)
Definition evd_line_pattern (prev : option N) (s : str) : bool :=
  bool_decide (is_Some (EVD_PATTERN prev s)).

(** What iterating [links] gives in line 530, after a string was wrapped
    in a list: the elements of a list, the keys of a dict; iterating
    [None], a boolean or a number raises. *)
Definition links_iter (links : option json) : option (list json) :=
  match links with
  | None => Some []
  | Some (JStr s) => Some [JStr s]
  | Some (JArr items) => Some items
  | Some (JObj fields) => Some (map (fun kv => JStr (fst kv)) fields)
  | Some _ => None
  end.

(** Lines 525-532: does an item of the store link to [hr_id]?  The loop
    stops at the first item that does. *)
Fixpoint has_evd_linked (hr_id : str) (items : list json) : option bool :=
  match items with
  | [] => Some false
  | item :: rest =>
      match item with
      | JObj fields =>
          match links_iter (dict_get fields (lit "links_to")) with
          | None => None
          | Some links =>
              if existsb (fun link => contains hr_id (py_str link)) links
              then Some true
              else has_evd_linked hr_id rest
          end
      | _ => None
      end
  end.

(** Lines 518-534: the loop over the definitions of hard rules. *)
Fixpoint hr_loop (lines : list str) (items : list json)
    (defs : list (nat * str * str)) (r : CheckResult) : option CheckResult :=
  match defs with
  | [] => Some r
  | (line_num, hr_id, _) :: rest =>
      let has_evd_nearby := search evd_line_pattern (window lines line_num 10 11) in
      match has_evd_linked hr_id items with
      | None => None
      | Some linked =>
          hr_loop lines items rest
            (if negb has_evd_nearby && negb linked
             then fail r (OtherIssue
                    (lit "Hard rule " ++ hr_id
                     ++ lit " has no EVD reference nearby or linked in evidence.json"))
             else r)
      end
  end.

(** A literal of a pattern compiled with [re.IGNORECASE]: the last
    character taken and the rest of the text. *)
Fixpoint ci_literal (w : str) (prev : option N) (s : str)
    : option (option N * str) :=
  match w, s with
  | [], _ => Some (prev, s)
  | c :: w', d :: s' => if ci_match c d then ci_literal w' (Some d) s' else None
  | _ :: _, [] => None
  end.

(** [(?:\b(?:w1|w2|...)\b|(?:l1|l2|...))] under [re.IGNORECASE], at a
    position. *)
Definition words_or_literals (words literals : list str)
    (prev : option N) (s : str) : bool :=
  (word_boundary prev (head s)
   && existsb
        (fun w =>
           match ci_literal w prev s with
           | Some (last, rest) => word_boundary last (head rest)
           | None => false
           end)
        words)
  || existsb (fun l => bool_decide (is_Some (ci_literal l prev s))) literals.

Definition HARD_ASSERTION_KEYWORDS : option N -> str -> bool :=
  words_or_literals
    [lit "must"; lit "forbidden"; lit "never"; lit "always"; lit "only";
     lit "shall not"]
    [[24517; 39035]; [31105; 27490]; [19981; 24471]; [20165; 20801; 35768];
     [19981; 21487]]%N.

Definition HARD_ASSERTION_CONTEXT : option N -> str -> bool :=
  words_or_literals
    [lit "boundary"; lit "trust"; lit "permission"; lit "auth"; lit "security";
     lit "limit"; lit "threshold"; lit "timeout"; lit "quota"]
    [[36793; 30028]; [20449; 20219]; [26435; 38480]; [23433; 20840];
     [19978; 38480]; [38408; 20540]; [36229; 26102]; [37197; 39069]]%N.

(** [i in hr_line_nums] and [any(abs(i - ln) <= 5 for ln in hr_line_nums)] *)
Definition on_hr_line (defs : list (nat * str * str)) (i : nat) : bool :=
  existsb (fun d => fst (fst d) =? i) defs.

Definition hr_within_five (defs : list (nat * str * str)) (i : nat) : bool :=
  existsb (fun d => (i - fst (fst d) <=? 5) && (fst (fst d) - i <=? 5)) defs.

(** Lines 541-557: the loop of part B.2, with [enumerate(lines)] from
    [i]; the state is [implicit_hard_count] and
    [implicit_hard_without_evd]. *)
Fixpoint implicit_loop (lines : list str) (defs : list (nat * str * str))
    (rest : list str) (i : nat) (st : nat * nat) : nat * nat :=
  match rest with
  | [] => st
  | line :: rest' =>
      let stripped := strip line in
      let st :=
        if on_hr_line defs i then st
        else if negb (nonempty stripped) || startswith (lit "#") stripped
                || startswith (lit "```") stripped
        then st
        else if search HARD_ASSERTION_KEYWORDS stripped
                && search HARD_ASSERTION_CONTEXT stripped
        then
          let implicit_hard_count := fst st + 1 in
          if negb (search evd_line_pattern (window lines i 5 6))
          then
            if negb (hr_within_five defs i)
            then (implicit_hard_count, snd st + 1)
            else (implicit_hard_count, snd st)
          else (implicit_hard_count, snd st)
        else st in
      implicit_loop lines defs rest' (S i) st
  end.

(** Lines 536-562, part B.2. *)
Definition implicit_part (lines : list str) (defs : list (nat * str * str))
    (r : CheckResult) : CheckResult :=
  let '(implicit_hard_count, implicit_hard_without_evd) :=
    implicit_loop lines defs lines 0 (0, 0) in
  if 0 <? implicit_hard_without_evd
  then fail r (OtherIssue
         (decimal implicit_hard_without_evd
          ++ lit " implicit hard assertion(s) (must/forbidden/never in boundary/trust context) lack EVD reference (out of "
          ++ decimal implicit_hard_count ++ lit " detected)"))
  else r.

(** [check_7_evidence(rfc, evidence)] for a store that is a dict; [None]
    when the call raises. *)
Definition check_7_evidence (rfc : str) (evidence : list (str * json))
    : option CheckResult :=
  let r := new_result (lit "7. Evidence cross-check") Hard in
  match evidence_items evidence with
  | None => None
  | Some items =>
      match evidence_loop rfc items [] r with
      | None => None
      | Some (ids, r) =>
          let r := part_a rfc items ids r in
          let lines := split_lines rfc in
          let defs := hr_definitions lines in
          match hr_loop lines items defs r with
          | None => None
          | Some r => Some (implicit_part lines defs r)
          end
      end
  end.

(** The precondition on [links_to]: the item is a dict and the value,
    when there is one, is a string, a list or a dict. *)
Definition links_well_formed (item : json) : Prop :=
  ∃ fields, item = JObj fields
    ∧ (dict_get fields (lit "links_to") = None
       ∨ (∃ s, dict_get fields (lit "links_to") = Some (JStr s))
       ∨ (∃ links, dict_get fields (lit "links_to") = Some (JArr links))
       ∨ (∃ keyed, dict_get fields (lit "links_to") = Some (JObj keyed))).

End Check7Full.

(** A store whose item links to a number, and a text with a hard rule. *)
Definition store_with_numeric_link : list (str * json) :=
  [(lit "schema_version", JStr (lit "v1"));
   (lit "items",
    JArr [JObj [(lit "evd_id", JStr (lit "EVD-001"));
                (lit "links_to", JNum (lit "5"))]])].

Definition hard_rule_text : str :=
  lit "HR-001: the service must check EVD-001 and EVD-002".
(** * Properties *)

(** ** Verdict aggregation *)

Lemma nonempty_true {A} (l : list A) : nonempty l = true <-> l ≠ [].
Proof. destruct l; simpl; split; congruence. Qed.

Lemma nonempty_map {A B} (f : A -> B) (l : list A) :
  nonempty (map f l) = nonempty l.
Proof. by destruct l. Qed.

Lemma nonempty_filter_true {A} (P : A -> Prop) `{!∀ x, Decision (P x)} (l : list A) :
  nonempty (filter P l) = true <-> ∃ x, x ∈ l ∧ P x.
Proof.
  rewrite nonempty_true. split.
  - intros Hne. destruct (filter P l) as [|x l'] eqn:E; [done|].
    assert (x ∈ filter P l) as Hin by (rewrite E; left).
    apply list_elem_of_filter in Hin as [? ?]. eauto.
  - intros (x & Hx & HP) E.
    assert (x ∈ filter P l) as Hin by (by apply list_elem_of_filter).
    rewrite E in Hin. by apply elem_of_nil in Hin.
Qed.

Lemma nonempty_filter_false {A} (P : A -> Prop) `{!∀ x, Decision (P x)} (l : list A) :
  nonempty (filter P l) = false <-> ¬ ∃ x, x ∈ l ∧ P x.
Proof.
  pose proof (nonempty_filter_true P l) as Ht.
  destruct (nonempty (filter P l)); split; try done.
  - intros Hn. destruct Hn. by apply Ht.
  - intros _ Hex. by apply Ht in Hex.
Qed.

Lemma length_passed_split (l : list CheckResult) :
  length (filter (λ r, passed r = true) l)
  + length (filter (λ r, passed r = false) l) = length l.
Proof.
  induction l as [|r l IH]; [done|].
  rewrite !filter_cons. destruct (passed r) eqn:E.
  - rewrite decide_True by done. rewrite decide_False by done. simpl. lia.
  - rewrite decide_False by done. rewrite decide_True by done. simpl. lia.
Qed.

Ltac names_of_filter :=
  rewrite list_elem_of_fmap; split;
  [ intros (r & -> & Hr); apply list_elem_of_filter in Hr as [? ?]; eauto
  | intros (r & Hr & Hp & <-); exists r; split; [done|];
    by apply list_elem_of_filter ].

(** C1.  The aggregator's verdict is FAIL exactly when some hard result has
    [passed = false]; otherwise WARN exactly when some soft result carries a
    warning; otherwise PASS.  The three lists are the names, in order, of the
    hard results that passed, of those that failed, and of the soft results
    with a warning; every hard result is counted in exactly one of the first
    two. *)
Theorem run_gate_a_precedence (hard_results soft_results : list CheckResult) :
  let rep := run_gate_a hard_results soft_results in
  let hard_failed := ∃ r, r ∈ hard_results ∧ passed r = false in
  let soft_warned := ∃ r, r ∈ soft_results ∧ warnings r ≠ [] in
  (overall rep = FAIL ↔ hard_failed)
  ∧ (overall rep = WARN ↔ ¬ hard_failed ∧ soft_warned)
  ∧ (overall rep = PASS ↔ ¬ hard_failed ∧ ¬ soft_warned)
  ∧ (∀ n, n ∈ hard_pass rep ↔ ∃ r, r ∈ hard_results ∧ passed r = true ∧ name r = n)
  ∧ (∀ n, n ∈ hard_fail rep ↔ ∃ r, r ∈ hard_results ∧ passed r = false ∧ name r = n)
  ∧ (∀ n, n ∈ soft_warn rep ↔ ∃ r, r ∈ soft_results ∧ warnings r ≠ [] ∧ name r = n)
  ∧ hard_pass rep = name <$> filter (λ r, passed r = true) hard_results
  ∧ hard_fail rep = name <$> filter (λ r, passed r = false) hard_results
  ∧ soft_warn rep = name <$> filter (λ r, warnings r ≠ []) soft_results
  ∧ length (hard_pass rep) + length (hard_fail rep) = length hard_results.
Proof.
  cbn zeta. unfold run_gate_a; cbn [overall hard_pass hard_fail soft_warn].
  rewrite !nonempty_map.
  assert (Hsw : filter (λ r, nonempty (warnings r) = true) soft_results
                = filter (λ r, warnings r ≠ []) soft_results).
  { apply list_filter_iff. intros r. apply nonempty_true. }
  rewrite Hsw.
  pose proof (nonempty_filter_true (λ r, passed r = false) hard_results) as Hf.
  pose proof (nonempty_filter_true (λ r, warnings r ≠ []) soft_results) as Hw.
  assert (Hov :
    ∀ b1 b2 : bool,
      ((if b1 then FAIL else if b2 then WARN else PASS) = FAIL ↔ b1 = true)
      ∧ ((if b1 then FAIL else if b2 then WARN else PASS) = WARN
         ↔ ¬ b1 = true ∧ b2 = true)
      ∧ ((if b1 then FAIL else if b2 then WARN else PASS) = PASS
         ↔ ¬ b1 = true ∧ ¬ b2 = true)).
  { intros [] []; intuition congruence. }
  destruct (Hov (nonempty (filter (λ r, passed r = false) hard_results))
                (nonempty (filter (λ r, warnings r ≠ []) soft_results)))
    as (H1 & H2 & H3).
  rewrite H1, H2, H3, Hf, Hw.
  split_and!; try done.
  - intros n. names_of_filter.
  - intros n. names_of_filter.
  - intros n. names_of_filter.
  - rewrite !length_map. apply length_passed_split.
Qed.

(** ** Identifier extraction *)

(** Loop invariants: a property that holds before a [for] loop and is kept by
    each iteration holds after it. *)
Lemma fold_left_ind {A B} (P : A → Prop) (f : A → B → A) (l : list B) (a : A) :
  P a → (∀ a x, x ∈ l → P a → P (f a x)) → P (fold_left f l a).
Proof.
  revert a. induction l as [|x l IH]; intros a Ha Hstep; [done|].
  simpl. apply IH.
  - apply Hstep; [left | done].
  - intros a' y Hy. apply Hstep. by right.
Qed.

Section ExtractDefined.
Context {U : UnicodeDB}.

(** C10.  In the pair [(defined, all_ids)] returned by
    [extract_defined_ids], every identifier classified as a definition is
    also among the identifiers seen, for the generic and for the
    domain-prefixed form alike. *)
Theorem extract_defined_ids_subset (text : str) :
  (extract_defined_ids text).1 ⊆ (extract_defined_ids text).2.
Proof.
  unfold extract_defined_ids.
  apply (fold_left_ind (λ st : gset str * gset str, st.1 ⊆ st.2)); [done|].
  intros [d a] line _ Hda.
  apply (fold_left_ind (λ st : gset str * gset str, st.1 ⊆ st.2)).
  - apply (fold_left_ind (λ st : gset str * gset str, st.1 ⊆ st.2)); [done|].
    intros [d' a'] m _ Hda'. simpl in *.
    destruct (_is_inside_domain_hr _ _ _); [done|].
    destruct (is_definition _ _); simpl; set_solver.
  - intros [d' a'] m _ Hda'. simpl in *.
    destruct (is_definition _ _); simpl; set_solver.
Qed.

End ExtractDefined.

(** ** Character classes *)

Section CharFacts.
Context {U : UnicodeDB}.

Lemma in_range_spec lo hi c : in_range lo hi c = true ↔ (lo ≤ c ∧ c ≤ hi)%N.
Proof.
  unfold in_range. rewrite andb_true_iff, !N.leb_le. done.
Qed.

Lemma is_digit_word c : is_digit c = true → is_word c = true.
Proof.
  unfold is_digit, is_word. destruct (c <? 128)%N; intros ->; done.
Qed.

Lemma is_upper_word c : is_upper c = true → is_word c = true.
Proof.
  unfold is_upper, is_word. intros H.
  pose proof H as H'. apply in_range_spec in H' as [? ?].
  replace (c <? 128)%N with true by (symmetry; apply N.ltb_lt; lia).
  rewrite H. by rewrite orb_true_r.
Qed.

Lemma is_upper_not_digit c : is_upper c = true → is_digit c = false.
Proof.
  unfold is_upper, is_digit. intros H. apply in_range_spec in H as [? ?].
  replace (c <? 128)%N with true by (symmetry; apply N.ltb_lt; lia).
  apply not_true_is_false. rewrite in_range_spec. lia.
Qed.

(** A position where the last character taken is a word character and [\b]
    holds is followed by no word character. *)
Lemma boundary_after_word c next :
  is_word c = true → word_boundary (Some c) next = true → opt_word next = false.
Proof.
  unfold word_boundary. simpl. intros ->. by destruct (opt_word next).
Qed.

Lemma boundary_before_word prev c :
  opt_word prev = false → is_word c = true → word_boundary prev (Some c) = true.
Proof. unfold word_boundary. simpl. by intros -> ->. Qed.

End CharFacts.

(** ** The matchers *)

Section MatcherFacts.
Context {U : UnicodeDB}.

Lemma last_or_cons prev c ds : last_or prev (c :: ds) = last_or (Some c) ds.
Proof.
  unfold last_or. destruct ds as [|d ds]; [done|].
  change (last (c :: d :: ds)) with (last (d :: ds)).
  destruct (last (d :: ds)) eqn:E; [done|].
  by apply last_None in E.
Qed.

Lemma last_or_app_digit prev ds (cls : N → bool) :
  Forall (λ c, cls c = true) ds → ds ≠ [] →
  ∃ c, last_or prev ds = Some c ∧ cls c = true.
Proof.
  intros Hall Hne. unfold last_or.
  destruct (last ds) as [c|] eqn:E.
  - exists c. split; [done|].
    apply last_Some in E as [l' ->]. apply Forall_app in Hall as [_ Hc].
    by inversion Hc.
  - by apply last_None in E.
Qed.

(** A greedy repetition that succeeds took some run [ds] of characters of the
    class and its continuation succeeded there. *)
Lemma greedy_Some {A} cls (k : option N → nat → str → option A) prev n s r :
  greedy cls k prev n s = Some r →
  ∃ ds rest, s = ds ++ rest ∧ Forall (λ c, cls c = true) ds
             ∧ k (last_or prev ds) (n + length ds) rest = Some r.
Proof.
  revert prev n. induction s as [|c tl IH]; intros prev n; simpl.
  - intros Hk. exists [], []. rewrite Nat.add_0_r. done.
  - destruct (cls c) eqn:Hc.
    + destruct (greedy cls k (Some c) (S n) tl) as [r'|] eqn:Hg.
      * intros [= <-]. apply IH in Hg as (ds & rest & -> & Hall & Hk).
        exists (c :: ds), rest. split; [done|]. split; [by constructor|].
        rewrite last_or_cons. simpl. by rewrite <- Nat.add_succ_comm.
      * intros Hk. exists [], (c :: tl). rewrite Nat.add_0_r. done.
    + intros Hk. exists [], (c :: tl). rewrite Nat.add_0_r. done.
Qed.

Lemma greedy_upto_Some {A} max cls (k : option N → nat → str → option A) prev n s r :
  greedy_upto max cls k prev n s = Some r →
  ∃ ds rest, s = ds ++ rest ∧ Forall (λ c, cls c = true) ds
             ∧ (ds ≠ [] → n + length ds ≤ max)
             ∧ k (last_or prev ds) (n + length ds) rest = Some r.
Proof.
  revert prev n. induction s as [|c tl IH]; intros prev n; simpl.
  - intros Hk. exists [], []. rewrite Nat.add_0_r. done.
  - destruct (cls c && (n <? max)) eqn:Hc.
    + apply andb_true_iff in Hc as [Hc Hn]. apply Nat.ltb_lt in Hn.
      destruct (greedy_upto max cls k (Some c) (S n) tl) as [r'|] eqn:Hg.
      * intros [= <-]. apply IH in Hg as (ds & rest & -> & Hall & Hmax & Hk).
        exists (c :: ds), rest. split; [done|]. split; [by constructor|].
        rewrite last_or_cons. simpl. rewrite <- Nat.add_succ_comm.
        split; [|done]. intros _. destruct ds; [simpl; lia|].
        apply Hmax. done.
      * intros Hk. exists [], (c :: tl). rewrite Nat.add_0_r. done.
    + intros Hk. exists [], (c :: tl). rewrite Nat.add_0_r. done.
Qed.

(** When the text does not go on with a character of the class, the
    repetition takes nothing. *)
Lemma greedy_stop {A} cls (k : option N → nat → str → option A) prev n s :
  (∀ c, head s = Some c → cls c = false) →
  greedy cls k prev n s = k prev n s.
Proof.
  destruct s as [|c tl]; [done|]. simpl. intros H. by rewrite (H c).
Qed.

(** When the continuation succeeds after the whole run, that is the match. *)
Lemma greedy_run {A} cls (k : option N → nat → str → option A) prev n ds rest r :
  Forall (λ c, cls c = true) ds →
  (∀ c, head rest = Some c → cls c = false) →
  k (last_or prev ds) (n + length ds) rest = Some r →
  greedy cls k prev n (ds ++ rest) = Some r.
Proof.
  revert prev n. induction ds as [|c ds IH]; intros prev n Hall Hrest Hk.
  - simpl in *. rewrite Nat.add_0_r in Hk. rewrite greedy_stop; done.
  - apply Forall_cons in Hall as [Hc Hall]. simpl. rewrite Hc.
    rewrite (IH (Some c) (S n)); [done..|].
    rewrite last_or_cons in Hk. simpl in Hk. by rewrite Nat.add_succ_comm.
Qed.

End MatcherFacts.

Lemma startswith_spec (p s : str) :
  startswith p s = true ↔ ∃ rest, s = p ++ rest.
Proof.
  revert s. induction p as [|a p IH]; intros s; simpl.
  - split; [eauto | done].
  - destruct s as [|b s].
    + split; [done | intros [rest ?]; done].
    + rewrite andb_true_iff, N.eqb_eq, IH. split.
      * intros [-> [rest ->]]. eauto.
      * intros [rest [= -> ->]]. eauto.
Qed.

Lemma startswith_app (p rest : str) : startswith p (p ++ rest) = true.
Proof. apply startswith_spec. eauto. Qed.

Section PatternFacts.
Context {U : UnicodeDB}.

Lemma first_alt_Some {A} alts (k : str → str → option A) s r :
  first_alt alts k s = Some r →
  ∃ a rest, a ∈ alts ∧ s = a ++ rest ∧ k a rest = Some r.
Proof.
  induction alts as [|a alts IH]; simpl; [done|].
  destruct (startswith a s) eqn:Hs.
  - apply startswith_spec in Hs as [rest ->]. rewrite drop_app_length.
    destruct (k a rest) as [r'|] eqn:Hk.
    + intros [= <-]. exists a, rest. split; [left | done].
    + intros H. apply IH in H as (a' & rest' & ? & ? & ?).
      exists a', rest'. split; [by right | done].
  - intros H. apply IH in H as (a' & rest' & ? & ? & ?).
    exists a', rest'. split; [by right | done].
Qed.

(** [\d{3,}\b]: at least three digits, all of the run, and no word character
    after them. *)
Lemma number_Some {A} (result : nat → A) s r :
  greedy is_digit (end_of_number result) (Some 45%N) 0 s = Some r →
  ∃ ds rest, s = ds ++ rest ∧ Forall (λ c, is_digit c = true) ds
             ∧ 3 ≤ length ds ∧ r = result (length ds)
             ∧ opt_word (head rest) = false.
Proof.
  intros H. apply greedy_Some in H as (ds & rest & -> & Hall & Hk).
  unfold end_of_number in Hk. rewrite Nat.add_0_l in Hk.
  destruct (3 <=? length ds) eqn:Hlen; [|done]. apply Nat.leb_le in Hlen.
  destruct (word_boundary _ _) eqn:Hb; [|done].
  injection Hk as <-.
  exists ds, rest. split_and!; try done.
  destruct (last_or_app_digit (Some 45%N) ds is_digit Hall) as (c & Hc & Hd).
  { intros ->. simpl in Hlen. lia. }
  rewrite Hc in Hb. eapply boundary_after_word; [|done]. by apply is_digit_word.
Qed.

Lemma number_run {A} (result : nat → A) ds rest :
  Forall (λ c, is_digit c = true) ds → 3 ≤ length ds →
  opt_word (head rest) = false →
  greedy is_digit (end_of_number result) (Some 45%N) 0 (ds ++ rest)
  = Some (result (length ds)).
Proof.
  intros Hall Hlen Hrest. apply greedy_run; [done|..].
  - intros c Hc. rewrite Hc in Hrest. simpl in Hrest.
    destruct (is_digit c) eqn:E; [|done]. apply is_digit_word in E. congruence.
  - unfold end_of_number. rewrite Nat.add_0_l.
    replace (3 <=? length ds) with true by (symmetry; by apply Nat.leb_le).
    destruct (last_or_app_digit (Some 45%N) ds is_digit Hall) as (c & Hc & Hd).
    { intros ->. simpl in Hlen. lia. }
    rewrite Hc. unfold word_boundary. simpl.
    rewrite (is_digit_word c Hd), Hrest. done.
Qed.

(** The shape of a match of [ID_PATTERN]: a kind, a hyphen, a complete run
    of at least three digits, between word boundaries. *)
Lemma ID_PATTERN_Some prev s len a ds :
  ID_PATTERN prev s = Some (len, (a, ds)) →
  word_boundary prev (head s) = true
  ∧ a ∈ kinds ∧ Forall (λ c, is_digit c = true) ds ∧ 3 ≤ length ds
  ∧ len = length a + 1 + length ds
  ∧ ∃ rest, s = a ++ 45%N :: ds ++ rest ∧ opt_word (head rest) = false.
Proof.
  unfold ID_PATTERN. destruct (word_boundary prev (head s)) eqn:Hb; [|done].
  intros H. apply first_alt_Some in H as (a' & r & Ha & -> & Hk).
  destruct r as [|c r2]; [done|].
  destruct (decide (c = 45%N)) as [->|Hne].
  - apply number_Some in Hk as (ds' & rest & -> & Hall & Hlen & Heq & Hw).
    injection Heq as -> -> ->. rewrite take_app_length.
    split_and!; try done. eauto.
  - destruct c as [|p]; [done|].
    repeat (destruct p as [p|p|]; try done).
Qed.

(** The shape of a match of [DOMAIN_HR_PATTERN]. *)
Lemma DOMAIN_HR_PATTERN_Some prev s len dom ds :
  DOMAIN_HR_PATTERN prev s = Some (len, (dom, ds)) →
  word_boundary prev (head s) = true
  ∧ Forall (λ c, is_upper c = true) dom ∧ 1 ≤ length dom
  ∧ Forall (λ c, is_digit c = true) ds ∧ 3 ≤ length ds
  ∧ len = length dom + 4 + length ds
  ∧ ∃ rest, s = dom ++ lit "-HR-" ++ ds ++ rest ∧ opt_word (head rest) = false.
Proof.
  unfold DOMAIN_HR_PATTERN. destruct (word_boundary prev (head s)) eqn:Hb; [|done].
  intros H. apply greedy_Some in H as (L & r & -> & HL & Hk).
  cbv beta in Hk. rewrite !Nat.add_0_l in Hk.
  destruct (1 <=? length L) eqn:HlenL; [|done]. apply Nat.leb_le in HlenL.
  destruct (startswith (lit "-HR-") r) eqn:Hs; [|done]. cbv beta iota zeta in Hk.
  rewrite andb_true_l in Hk.
  apply startswith_spec in Hs as [r2 ->].
  change (drop 4 (lit "-HR-" ++ r2)) with r2 in Hk.
  apply number_Some in Hk as (ds' & rest & -> & Hall & Hlen & Heq & Hw).
  injection Heq as -> -> ->. rewrite !take_app_length.
  split_and!; try done. eauto.
Qed.

End PatternFacts.

(** ** [finditer] *)

Section FinditerFacts.
Context {U : UnicodeDB}.

(** Each match reported was found by the matcher at its start position. *)
Lemma finditer_from_elem p prev pos rest skip m :
  m ∈ finditer_from p prev pos rest skip →
  ∃ i, i < length rest ∧ m_start m = pos + i
       ∧ p (match i with O => prev | S j => rest !! j end) (drop i rest)
         = Some (m_end m - m_start m, m_groups m)
       ∧ m_start m ≤ m_end m.
Proof.
  revert prev pos skip. induction rest as [|c tl IH]; intros prev pos skip; simpl.
  - intros H. by apply elem_of_nil in H.
  - assert (Hrec : ∀ k, m ∈ finditer_from p (Some c) (S pos) tl k →
      ∃ i, i < S (length tl) ∧ m_start m = pos + i
           ∧ p (match i with O => prev | S j => (c :: tl) !! j end)
               (drop i (c :: tl))
             = Some (m_end m - m_start m, m_groups m)
           ∧ m_start m ≤ m_end m).
    { intros k Hm. apply IH in Hm as (i & Hi & Hs & Hp & Hle).
      exists (S i). split; [lia|]. split; [lia|]. split; [|done].
      simpl. destruct i; done. }
    destruct skip as [|k]; [|apply Hrec].
    destruct (p prev (c :: tl)) as [[len g]|] eqn:Hp; [|apply Hrec].
    intros Hm. apply elem_of_cons in Hm as [-> | Hm]; [|by eapply Hrec].
    exists 0. simpl. split; [lia|]. split; [lia|].
    replace (pos + len - pos) with len by lia. split; [done | lia].
Qed.

Lemma finditer_elem p text m :
  m ∈ finditer p text →
  m_start m < length text
  ∧ p (char_before text (m_start m)) (drop (m_start m) text)
    = Some (m_end m - m_start m, m_groups m)
  ∧ m_start m ≤ m_end m.
Proof.
  intros H. apply finditer_from_elem in H as (i & Hi & Hs & Hp & Hle).
  simpl in Hs. subst i. done.
Qed.

Lemma drop_app_split (t : str) s l1 l2 :
  drop s t = l1 ++ l2 → literal_at t s l1 ∧ drop (s + length l1) t = l2.
Proof.
  intros H. split.
  - intros j c Hj. rewrite <- lookup_drop, H. by apply lookup_app_l_Some.
  - rewrite <- drop_drop, H. apply drop_app_length.
Qed.

Lemma head_drop (t : str) i : head (drop i t) = t !! i.
Proof. rewrite head_lookup, lookup_drop. f_equal. lia. Qed.

Lemma literal_run cls (t : str) i ds :
  literal_at t i ds → Forall (λ c, cls c = true) ds →
  run_at cls t i (length ds).
Proof.
  intros Hlit Hall j Hj.
  destruct (lookup_lt_is_Some_2 ds j Hj) as [c Hc].
  exists c. split; [by apply Hlit|].
  rewrite Forall_forall in Hall. apply Hall. by eapply list_elem_of_lookup_2.
Qed.

(** The matches of [ID_PATTERN] in a text have the generic shape, and their
    first group is the kind and the second the digits. *)
Lemma ID_PATTERN_shape text m :
  m ∈ finditer ID_PATTERN text →
  generic_shape text (m_start m) (m_end m)
    (fst (m_groups m)) (length (snd (m_groups m)))
  ∧ literal_at text (m_start m) (generic_id m).
Proof.
  intros H. apply finditer_elem in H as (Hlt & Hp & Hle).
  destruct (m_groups m) as [a ds] eqn:Hg. unfold generic_id. rewrite Hg.
  apply ID_PATTERN_Some in Hp as (Hb & Ha & Hds & Hlen & Hl & rest & Hdrop & Hw).
  assert (He : m_end m = m_start m + length a + 1 + length ds) by lia.
  pose proof Hdrop as Hd0.
  apply drop_app_split in Hdrop as [Hlit Hdrop].
  pose proof (f_equal head Hdrop) as Hh. rewrite head_drop in Hh. simpl in Hh.
  change (45%N :: ds ++ rest) with ([45%N] ++ ds ++ rest) in Hdrop.
  apply drop_app_split in Hdrop as [_ Hdrop]. simpl in Hdrop.
  apply drop_app_split in Hdrop as [Hlitd Hdrop].
  split.
  - split_and!; try done.
    + by apply literal_run.
    + rewrite He, <- head_drop, Hdrop. done.
  - simpl.
    replace (a ++ 45%N :: ds) with (a ++ [45%N] ++ ds) by done.
    intros j c Hj. rewrite <- lookup_drop, Hd0.
    change (45%N :: ds ++ rest) with ([45%N] ++ ds ++ rest).
    rewrite !app_assoc. apply lookup_app_l_Some. by rewrite <- !app_assoc.
Qed.

Lemma DOMAIN_HR_PATTERN_shape text m :
  m ∈ finditer DOMAIN_HR_PATTERN text →
  domain_shape text (m_start m) (m_end m)
    (length (fst (m_groups m))) (length (snd (m_groups m)))
  ∧ literal_at text (m_start m) (domain_id m).
Proof.
  intros H. apply finditer_elem in H as (Hlt & Hp & Hle).
  destruct (m_groups m) as [dom ds] eqn:Hg. unfold domain_id. rewrite Hg.
  apply DOMAIN_HR_PATTERN_Some in Hp
    as (Hb & Hdom & Hn & Hds & Hlen & Hl & rest & Hdrop & Hw).
  assert (He : m_end m = m_start m + length dom + 4 + length ds) by lia.
  pose proof Hdrop as Hd0.
  apply drop_app_split in Hdrop as [Hlit Hdrop].
  apply drop_app_split in Hdrop as [Hlit2 Hdrop].
  apply drop_app_split in Hdrop as [Hlitd Hdrop].
  split.
  - split_and!; try done.
    + by apply literal_run.
    + by apply literal_run.
    + rewrite He, <- head_drop. simpl in *. rewrite Hdrop. done.
  - simpl. intros j c Hj. rewrite <- lookup_drop, Hd0.
    rewrite !app_assoc. apply lookup_app_l_Some. by rewrite <- !app_assoc.
Qed.

End FinditerFacts.

(** ** Generic and domain-prefixed matches do not straddle *)

Section Overlap.
Context {U : UnicodeDB}.

Lemma kinds_facts a :
  a ∈ kinds → Forall (λ c, is_upper c = true) a ∧ 2 ≤ length a ≤ 3.
Proof.
  unfold kinds. intros H.
  repeat (apply elem_of_cons in H as [-> | H];
          [split; [repeat constructor | simpl; lia]|]).
  by apply elem_of_nil in H.
Qed.

Lemma kind_letter_at (t : str) s a i :
  a ∈ kinds → literal_at t s a → s ≤ i < s + length a →
  ∃ c, t !! i = Some c ∧ is_upper c = true.
Proof.
  intros Ha Hlit Hi. apply kinds_facts in Ha as [Hup _].
  destruct (lookup_lt_is_Some_2 a (i - s)) as [c Hc]; [lia|].
  exists c. split.
  - replace i with (s + (i - s)) by lia. by apply Hlit.
  - rewrite Forall_forall in Hup. apply Hup. by eapply list_elem_of_lookup_2.
Qed.

Lemma run_at_pos cls (t : str) i n p :
  run_at cls t i n → i ≤ p < i + n → ∃ c, t !! p = Some c ∧ cls c = true.
Proof.
  intros Hrun Hp. destruct (Hrun (p - i)) as (c & Hc & Hcls); [lia|].
  exists c. split; [|done]. by replace p with (i + (p - i)) by lia.
Qed.

Lemma literal_at_pos (t : str) i (a : str) p c :
  literal_at t i a → i ≤ p → a !! (p - i) = Some c → t !! p = Some c.
Proof.
  intros Hlit Hp Hc. replace p with (i + (p - i)) by lia. by apply Hlit.
Qed.

(** Contradictions between what two shapes say about one position. *)
Ltac clash :=
  match goal with
  | H1 : ?t !! ?p = Some ?c1, H2 : ?t !! ?p = Some ?c2 |- _ =>
      rewrite H1 in H2; injection H2 as ?; subst
  end;
  repeat match goal with
  | H : is_upper _ = true |- _ =>
      first [ discriminate H
            | pose proof (is_upper_not_digit _ H); clear H ]
  end;
  try congruence; try discriminate.

(** A match of [ID_PATTERN] and a match of [DOMAIN_HR_PATTERN] that share a
    character: the generic match lies inside the domain-prefixed one. *)
Lemma overlap_inside (t : str) s e a n ds de dn dnd :
  generic_shape t s e a n → domain_shape t ds de dn dnd →
  s < de → ds < e →
  ds ≤ s ∧ e ≤ de.
Proof.
  intros (Ha & Hlit & Hhyp & Hdig & Hn & -> & Hend)
         (Hdn & Hup & Hlit2 & Hdig2 & Hdnd & -> & Hend2) Hov1 Hov2.
  pose proof (kinds_facts a Ha) as [_ Hla].
  set (h := s + length a) in *.
  destruct (decide (h < ds)) as [Hlt|Hge].
  { (* the hyphen before the domain: a digit meets a domain letter *)
    destruct (run_at_pos is_digit t (h + 1) n ds Hdig) as (c & Hc & Hcd); [lia|].
    destruct (run_at_pos is_upper t ds dn ds Hup) as (c' & Hc' & Hcu); [lia|].
    clash. }
  destruct (decide (h < ds + dn)) as [Hlt1|Hge1].
  { destruct (run_at_pos is_upper t ds dn h Hup) as (c' & Hc' & Hcu); [lia|].
    clash. }
  destruct (decide (h = ds + dn)) as [Heq|Hne].
  { destruct (run_at_pos is_digit t (h + 1) n (h + 1) Hdig) as (c & Hc & Hcd); [lia|].
    pose proof (literal_at_pos t (ds + dn) (lit "-HR-") (h + 1) 72%N Hlit2) as Hc'.
    rewrite Hc' in Hc.
    - injection Hc as <-. unfold is_digit in Hcd. done.
    - lia.
    - by replace (h + 1 - (ds + dn)) with 1 by lia. }
  destruct (decide (h = ds + dn + 1)) as [Heq1|Hne1].
  { pose proof (literal_at_pos t (ds + dn) (lit "-HR-") h 72%N Hlit2) as Hc'.
    rewrite Hc' in Hhyp; [done | lia |].
    by replace (h - (ds + dn)) with 1 by lia. }
  destruct (decide (h = ds + dn + 2)) as [Heq2|Hne2].
  { pose proof (literal_at_pos t (ds + dn) (lit "-HR-") h 82%N Hlit2) as Hc'.
    rewrite Hc' in Hhyp; [done | lia |].
    by replace (h - (ds + dn)) with 2 by lia. }
  destruct (decide (h = ds + dn + 3)) as [Heq3|Hne3].
  { (* the two runs of digits start together, so they end together *)
    assert (h + 1 + n = ds + dn + 4 + dnd) as Hsame.
    { destruct (decide (h + 1 + n < ds + dn + 4 + dnd)) as [Hl|Hnl].
      - destruct (run_at_pos is_digit t (ds + dn + 4) dnd (h + 1 + n) Hdig2)
          as (c & Hc & Hcd); [lia|].
        rewrite Hc in Hend. simpl in Hend.
        apply is_digit_word in Hcd. congruence.
      - destruct (decide (ds + dn + 4 + dnd < h + 1 + n)) as [Hl'|]; [|lia].
        destruct (run_at_pos is_digit t (h + 1) n (ds + dn + 4 + dnd) Hdig)
          as (c & Hc & Hcd); [lia|].
        rewrite Hc in Hend2. simpl in Hend2.
        apply is_digit_word in Hcd. congruence. }
    unfold h in *. lia. }
  destruct (decide (h < ds + dn + 4 + dnd)) as [Hlt4|Hge4].
  { destruct (run_at_pos is_digit t (ds + dn + 4) dnd h Hdig2)
      as (c & Hc & Hcd); [lia|].
    rewrite Hc in Hhyp. injection Hhyp as ->. unfold is_digit in Hcd. done. }
  (* the hyphen after the domain match: a kind letter meets a domain digit *)
  destruct (run_at_pos is_digit t (ds + dn + 4) dnd (ds + dn + 4 + dnd - 1) Hdig2)
    as (c & Hc & Hcd); [lia|].
  destruct (kind_letter_at t s a (ds + dn + 4 + dnd - 1) Ha Hlit)
    as (c' & Hc' & Hcu); [unfold h in *; lia|].
  clash.
Qed.

End Overlap.

(** ** Suppression of generic matches inside domain-prefixed ones *)

Section Suppression.
Context {U : UnicodeDB}.

Lemma is_inside_domain_hr_true text pos e :
  _is_inside_domain_hr pos e (_domain_hr_spans text) = true
  ↔ ∃ d, d ∈ finditer DOMAIN_HR_PATTERN text ∧ m_start d ≤ pos ∧ e ≤ m_end d.
Proof.
  unfold _is_inside_domain_hr, _domain_hr_spans.
  rewrite existsb_exists. split.
  - intros ([s' e'] & Hin & Hle). simpl in Hle.
    apply list_elem_of_In, elem_of_elements, elem_of_list_to_set in Hin.
    apply list_elem_of_fmap in Hin as (d & [= -> ->] & Hd).
    apply andb_true_iff in Hle as [H1 H2].
    apply Nat.leb_le in H1, H2. eauto.
  - intros (d & Hd & H1 & H2). exists (m_start d, m_end d). split.
    + apply list_elem_of_In, elem_of_elements, elem_of_list_to_set.
      apply list_elem_of_fmap. eauto.
    + simpl. apply andb_true_iff. split; by apply Nat.leb_le.
Qed.

(** A loop that adds [f m] to a set for the matches [m] that pass a test. *)
Lemma fold_add_elem {B} (c : B → bool) (f : B → str) (l : list B) (X : gset str) x :
  x ∈ fold_left (λ ids m, if c m then ids ∪ {[ f m ]} else ids) l X
  ↔ x ∈ X ∨ ∃ m, m ∈ l ∧ c m = true ∧ f m = x.
Proof.
  revert X. induction l as [|m l IH]; intros X; simpl.
  - split; [eauto|]. intros [?|(m & Hm & _)]; [done|]. by apply elem_of_nil in Hm.
  - rewrite IH. split.
    + intros [Hx | (m' & Hm' & Hc & Hf)].
      * destruct (c m) eqn:Hc; [|eauto].
        apply elem_of_union in Hx as [?|Hx]; [eauto|].
        apply elem_of_singleton in Hx. right. exists m.
        split; [left | done].
      * right. exists m'. split; [by right | done].
    + intros [Hx | (m' & Hm' & Hc & Hf)].
      * left. destruct (c m); [|done]. apply elem_of_union. eauto.
      * apply elem_of_cons in Hm' as [-> | Hm'].
        -- left. rewrite Hc. apply elem_of_union. right.
           by apply elem_of_singleton.
        -- right. eauto.
Qed.

Lemma fold_add_all_elem {B} (f : B → str) (l : list B) (X : gset str) x :
  x ∈ fold_left (λ ids m, ids ∪ {[ f m ]}) l X
  ↔ x ∈ X ∨ ∃ m, m ∈ l ∧ f m = x.
Proof.
  pose proof (fold_add_elem (λ _, true) f l X x) as H. simpl in H.
  rewrite H. split; intros [?|(m & ? & ?)]; eauto.
  right. exists m. tauto.
Qed.

(** The identifiers [extract_ids] returns: those of the generic matches not
    inside a domain-prefixed match, and those of the domain-prefixed
    matches. *)
Lemma extract_ids_elem text x :
  x ∈ extract_ids text
  ↔ (∃ g, counted text g ∧ generic_id g = x)
    ∨ (∃ d, d ∈ finditer DOMAIN_HR_PATTERN text ∧ domain_id d = x).
Proof.
  unfold extract_ids, counted. rewrite fold_add_all_elem.
  rewrite (fold_add_elem
    (λ m, negb (_is_inside_domain_hr (m_start m) (m_end m) (_domain_hr_spans text)))
    generic_id).
  split.
  - intros [[Hx | (g & Hg & Hc & Hf)] | Hd]; [set_solver | | by right].
    left. exists g. apply negb_true_iff in Hc. done.
  - intros [(g & [Hg Hc] & Hf) | Hd]; [|by right].
    left. right. exists g. by rewrite Hc.
Qed.

End Suppression.

(** ** The token [SEC-HR-001] *)

Section Token.
Context {U : UnicodeDB}.

Lemma last_or_None (pre : str) : last_or None pre = last pre.
Proof. unfold last_or. by destruct (last pre). Qed.

Lemma last_or_app prev (pre1 pre2 : str) :
  pre2 ≠ [] → last_or prev (pre1 ++ pre2) = last_or None pre2.
Proof.
  intros Hne. unfold last_or. rewrite last_app.
  destruct (last pre2) eqn:E; [done|]. by apply last_None in E.
Qed.

(** The scan reaches the end of a prefix [pre] free, when no match that
    starts inside [pre] runs over its end. *)
Lemma finditer_from_reach p prev pos (pre rest : str) skip m :
  skip ≤ length pre →
  (∀ pre1 pre2 len g, pre = pre1 ++ pre2 → pre2 ≠ [] →
     p (last_or prev pre1) (pre2 ++ rest) = Some (len, g) → len ≤ length pre2) →
  m ∈ finditer_from p (last_or prev pre) (pos + length pre) rest 0 →
  m ∈ finditer_from p prev pos (pre ++ rest) skip.
Proof.
  revert prev pos skip. induction pre as [|c pre IH]; intros prev pos skip Hskip Hno.
  - simpl in *. replace skip with 0 by lia. by rewrite Nat.add_0_r.
  - rewrite last_or_cons. simpl length.
    replace (pos + S (length pre)) with (S pos + length pre) by lia.
    assert (Hno' : ∀ pre1 pre2 len g, pre = pre1 ++ pre2 → pre2 ≠ [] →
      p (last_or (Some c) pre1) (pre2 ++ rest) = Some (len, g) → len ≤ length pre2).
    { intros pre1 pre2 len g -> Hne Hp.
      apply (Hno (c :: pre1) pre2 len g); [done..|]. by rewrite last_or_cons. }
    intros Hm. simpl. destruct skip as [|k].
    + destruct (p prev (c :: pre ++ rest)) as [[len g]|] eqn:Hp.
      * right. apply IH; [|done..].
        assert (len ≤ length (c :: pre)) as Hlen
          by (by apply (Hno [] (c :: pre) len g)).
        simpl in Hlen. lia.
      * apply IH; [lia | done..].
    + apply IH; [simpl in Hskip; lia | done..].
Qed.

Lemma DOMAIN_HR_PATTERN_at0 prev (t : str) len dom ds :
  DOMAIN_HR_PATTERN prev t = Some (len, (dom, ds)) →
  domain_shape t 0 len (length dom) (length ds).
Proof.
  intros Hp. apply DOMAIN_HR_PATTERN_Some in Hp
    as (Hb & Hdom & Hn & Hds & Hlen & -> & rest & Hdrop & Hw).
  rewrite <- (drop_0 t) in Hdrop.
  apply drop_app_split in Hdrop as [Hlit Hdrop].
  apply drop_app_split in Hdrop as [Hlit2 Hdrop].
  apply drop_app_split in Hdrop as [Hlitd Hdrop].
  split_and!; try done.
  - by apply literal_run.
  - by apply literal_run.
  - rewrite <- head_drop. simpl in *. rewrite Hdrop. done.
Qed.

(** A domain-prefixed match cannot run from before a non-word character
    into an [S] that follows it. *)
Lemma domain_no_overrun prev (pre2 rest : str) len g c0 :
  last pre2 = Some c0 → is_word c0 = false →
  DOMAIN_HR_PATTERN prev (pre2 ++ 83%N :: rest) = Some (len, g) →
  len ≤ length pre2.
Proof.
  intros Hlast Hc0 Hp. destruct g as [dom ds].
  apply DOMAIN_HR_PATTERN_at0 in Hp
    as (Hdn & Hup & Hlit2 & Hdig2 & Hdnd & -> & Hend).
  apply last_Some in Hlast as [pre' ->].
  rewrite length_app. simpl length.
  set (t := (pre' ++ [c0]) ++ 83%N :: rest) in *.
  assert (Hj : t !! length pre' = Some c0).
  { unfold t. rewrite <- app_assoc. simpl. by apply list_lookup_middle. }
  assert (HS : t !! (length pre' + 1) = Some 83%N).
  { unfold t. rewrite lookup_app_r; rewrite length_app; simpl; [|lia].
    by replace (length pre' + 1 - (length pre' + 1)) with 0 by lia. }
  simpl in *.
  destruct (decide (length dom + 4 + length ds ≤ length pre' + 1)) as [|Hgt];
    [done|exfalso].
  destruct (decide (length pre' < length dom)).
  { destruct (run_at_pos is_upper t 0 (length dom) (length pre') Hup)
      as (c & Hc & Hcu); [lia|].
    rewrite Hc in Hj. injection Hj as ->.
    apply is_upper_word in Hcu. congruence. }
  destruct (decide (length pre' = length dom)) as [Heq|].
  { pose proof (literal_at_pos t (length dom) (lit "-HR-")
                  (length pre' + 1) 72%N Hlit2) as Hc.
    rewrite Hc in HS; [done | lia |].
    by replace (length pre' + 1 - length dom) with 1 by lia. }
  destruct (decide (length pre' = length dom + 1)) as [Heq|].
  { pose proof (literal_at_pos t (length dom) (lit "-HR-")
                  (length pre') 72%N Hlit2) as Hc.
    rewrite Hc in Hj; [by injection Hj as <- | lia |].
    by replace (length pre' - length dom) with 1 by lia. }
  destruct (decide (length pre' = length dom + 2)) as [Heq|].
  { pose proof (literal_at_pos t (length dom) (lit "-HR-")
                  (length pre') 82%N Hlit2) as Hc.
    rewrite Hc in Hj; [by injection Hj as <- | lia |].
    by replace (length pre' - length dom) with 2 by lia. }
  destruct (decide (length pre' = length dom + 3)) as [Heq|].
  { destruct (run_at_pos is_digit t (length dom + 4) (length ds)
                (length pre' + 1) Hdig2) as (c & Hc & Hcd); [lia|].
    rewrite Hc in HS. injection HS as ->. unfold is_digit in Hcd. done. }
  destruct (run_at_pos is_digit t (length dom + 4) (length ds)
              (length pre') Hdig2) as (c & Hc & Hcd); [lia|].
  rewrite Hc in Hj. injection Hj as ->.
  apply is_digit_word in Hcd. congruence.
Qed.

(** At the token, between a non-word character (or the start) and a non-word
    character (or the end), the domain pattern matches all of it. *)
Lemma DOMAIN_HR_PATTERN_token prev (post : str) :
  opt_word prev = false → opt_word (head post) = false →
  DOMAIN_HR_PATTERN prev (token ++ post) = Some (10, (lit "SEC", lit "001")).
Proof.
  intros Hprev Hpost. unfold DOMAIN_HR_PATTERN.
  replace (word_boundary prev (head (token ++ post))) with true
    by (symmetry; by apply boundary_before_word).
  change (token ++ post) with (lit "SEC" ++ (lit "-HR-" ++ lit "001" ++ post)).
  apply greedy_run.
  - repeat constructor.
  - intros c [= <-]. done.
  - cbv beta. rewrite startswith_app.
    change (1 <=? 0 + length (lit "SEC")) with true. cbv iota zeta.
    rewrite andb_true_l.
    change (drop 4 (lit "-HR-" ++ lit "001" ++ post)) with (lit "001" ++ post).
    rewrite (number_run _ (lit "001") post); [|repeat constructor | simpl; lia | done].
    rewrite !take_app_length. done.
Qed.

(** The token is found as one domain-prefixed match. *)
Lemma token_domain_match (pre post : str) :
  opt_word (last pre) = false → opt_word (head post) = false →
  {| m_start := length pre; m_end := length pre + 10;
     m_groups := (lit "SEC", lit "001") |}
  ∈ finditer DOMAIN_HR_PATTERN (pre ++ token ++ post).
Proof.
  intros Hpre Hpost. unfold finditer.
  apply finditer_from_reach; [lia | |].
  - intros pre1 pre2 len g -> Hne Hp.
    destruct (last pre2) as [c0|] eqn:Hl; [|by apply last_None in Hl].
    eapply (domain_no_overrun _ pre2 _ len g c0); [done | | exact Hp].
    rewrite last_app, Hl in Hpre. done.
  - rewrite last_or_None.
    pose proof (DOMAIN_HR_PATTERN_token (last pre) post Hpre Hpost) as Ht.
    change (token ++ post) with (83%N :: (lit "EC-HR-001" ++ post)) in *.
    cbn [finditer_from]. rewrite Ht. rewrite Nat.add_0_l. left.
Qed.

End Token.

Section NoDoubleCounting.
Context {U : UnicodeDB}.

Lemma overlapping_match_suppressed text g d :
  g ∈ finditer ID_PATTERN text → d ∈ finditer DOMAIN_HR_PATTERN text →
  overlap g d →
  _is_inside_domain_hr (m_start g) (m_end g) (_domain_hr_spans text) = true.
Proof.
  intros Hg Hd [Ho1 Ho2].
  apply ID_PATTERN_shape in Hg as [Hg _].
  pose proof (DOMAIN_HR_PATTERN_shape text d Hd) as [Hsd _].
  destruct (overlap_inside _ _ _ _ _ _ _ _ _ Hg Hsd Ho1 Ho2) as [H1 H2].
  apply is_inside_domain_hr_true. eauto.
Qed.

(** C2.  [extract_ids] never counts a domain-prefixed match and a generic
    match for overlapping text.  (1) The set returned holds the identifiers of
    the domain-prefixed matches and of those generic matches that do not lie
    inside the span of a domain-prefixed match, and nothing else.  (2) A
    generic match that shares any character with a domain-prefixed match lies
    inside it and is not counted.  (3) For a text with the token SEC-HR-001
    between non-word characters (or the ends of the text), the set contains
    SEC-HR-001, and every generic match counted lies wholly before or wholly
    after the token: no HR-001 arises from it. *)
Theorem extract_ids_no_double_counting :
  (∀ text x,
     x ∈ extract_ids text
     ↔ (∃ g, g ∈ finditer ID_PATTERN text
             ∧ _is_inside_domain_hr (m_start g) (m_end g) (_domain_hr_spans text)
               = false
             ∧ generic_id g = x)
       ∨ (∃ d, d ∈ finditer DOMAIN_HR_PATTERN text ∧ domain_id d = x))
  ∧ (∀ text g d,
       g ∈ finditer ID_PATTERN text → d ∈ finditer DOMAIN_HR_PATTERN text →
       overlap g d →
       (m_start d ≤ m_start g ∧ m_end g ≤ m_end d) ∧ ¬ counted text g)
  ∧ (∀ pre post,
       opt_word (last pre) = false → opt_word (head post) = false →
       token ∈ extract_ids (pre ++ token ++ post)
       ∧ ∀ g, counted (pre ++ token ++ post) g →
              m_end g ≤ length pre ∨ length pre + length token ≤ m_start g).
Proof.
  split_and!.
  - intros text x. rewrite extract_ids_elem. unfold counted.
    split; (intros [(g & ? & ?) | ?]; [left; exists g; tauto | by right]).
  - intros text g d Hg Hd Hov. split.
    + destruct Hov as [Ho1 Ho2].
      apply ID_PATTERN_shape in Hg as [Hg _].
      apply DOMAIN_HR_PATTERN_shape in Hd as [Hd _].
      by eapply overlap_inside.
    + intros [_ Hc].
      rewrite (overlapping_match_suppressed text g d) in Hc; done.
  - intros pre post Hpre Hpost.
    pose proof (token_domain_match pre post Hpre Hpost) as Hd. split.
    + apply extract_ids_elem. right. eexists. split; [exact Hd | done].
    + intros g [Hg Hc].
      destruct (decide (m_end g ≤ length pre)) as [|Hn1]; [by left|].
      destruct (decide (length pre + length token ≤ m_start g)) as [|Hn2];
        [by right|].
      rewrite (overlapping_match_suppressed _ g _ Hg Hd) in Hc; [done|].
      split; simpl in *; lia.
Qed.

End NoDoubleCounting.

(** The theorem at a concrete text: a generic [HR-001] before the token is
    counted, the one inside the token is not. *)
Lemma extract_ids_no_double_counting_witness :
  token ∈ extract_ids (U := ascii_db) (lit "HR-001, " ++ token ++ lit " applies")
  ∧ ∀ g, counted (U := ascii_db) (lit "HR-001, " ++ token ++ lit " applies") g →
         m_end g ≤ 8 ∨ 18 ≤ m_start g.
Proof.
  apply (extract_ids_no_double_counting (U := ascii_db)); reflexivity.
Defined.

(** The example of the test suite, with an ASCII continuation. *)
Example extract_ids_token_only :
  elements (extract_ids (U := ascii_db) (lit "SEC-HR-001 only once")) = [token].
Proof. vm_compute. reflexivity. Qed.

(** ** Check 2 *)

Section Check2Facts.
Context {U : UnicodeDB}.

Lemma issues_fold_fail {B} (f : B → issue) (l : list B) (r : CheckResult) :
  issues (fold_left (λ r d, fail r (f d)) l r) = issues r ++ (f <$> l).
Proof.
  revert r. induction l as [|d l IH]; intros r; simpl.
  - by rewrite app_nil_r.
  - rewrite IH. simpl. by rewrite <- app_assoc.
Qed.

Lemma length_sorted (X : gset str) : length (sorted X) = size X.
Proof.
  unfold sorted. by rewrite merge_sort_Permutation.
Qed.

(** The duplicate loop issues no dangling-reference message. *)
Lemma duplicate_loop_issues (d : list (str * nat)) (r : CheckResult) :
  filter (λ i, is_dangling_issue i = true) (issues r) = [] →
  filter (λ i, is_dangling_issue i = true)
    (issues (fold_left
       (λ r '(id_str, count),
          if 1 <? count then fail r (DuplicateIdDefinition id_str count) else r)
       d r)) = [].
Proof.
  revert r. induction d as [|[x c] d IH]; intros r Hr; simpl; [done|].
  apply IH. destruct (1 <? c); [|done]. simpl.
  rewrite filter_app, Hr. done.
Qed.

(** C8, as the code has it.  Check 2 is a total function of the text: it
    raises nothing.  It reports one dangling-reference issue for each of the
    first ten, in sorted order, of the identifiers referenced but never
    defined: with [N] such identifiers it reports [min N 10] issues. *)
Theorem check_2_dangling_capped (rfc : str) :
  let dangling := (extract_defined_ids rfc).2 ∖ (extract_defined_ids rfc).1 in
  filter (λ i, is_dangling_issue i = true) (issues (check_2_id_integrity rfc))
    = DanglingReference <$> take 10 (sorted dangling)
  ∧ length (filter (λ i, is_dangling_issue i = true)
              (issues (check_2_id_integrity rfc)))
    = min (size dangling) 10.
Proof.
  cbn zeta. unfold check_2_id_integrity.
  destruct (extract_defined_ids rfc) as [defined all_ids]. cbn [fst snd].
  replace (all_ids ∖ defined ∖ defined) with (all_ids ∖ defined) by set_solver.
  set (dangling := all_ids ∖ defined).
  set (r1 := fold_left _ (id_def_count rfc) _).
  assert (Hr1 : filter (λ i, is_dangling_issue i = true) (issues r1) = [])
    by (by apply duplicate_loop_issues).
  assert (Hmap : ∀ l : list str,
    filter (λ i, is_dangling_issue i = true) (DanglingReference <$> l)
    = DanglingReference <$> l).
  { induction l as [|x l IH]; [done|].
    rewrite fmap_cons, filter_cons. rewrite decide_True by done.
    by rewrite IH. }
  assert (Hkey :
    filter (λ i, is_dangling_issue i = true)
      (issues (if bool_decide (dangling ≠ ∅)
               then fold_left (λ r d, fail r (DanglingReference d))
                      (take 10 (sorted dangling)) r1
               else r1))
    = DanglingReference <$> take 10 (sorted dangling)).
  { case_bool_decide as Hd.
    - rewrite issues_fold_fail, filter_app, Hr1. apply Hmap.
    - assert (dangling = ∅) as -> by (destruct (decide (dangling = ∅)); done).
      rewrite Hr1. unfold sorted. rewrite elements_empty. done. }
  rewrite Hkey. split; [done|].
  rewrite length_fmap, length_take, length_sorted. lia.
Qed.

End Check2Facts.

(** C8, as stated, fails: eleven identifiers are referenced and never
    defined, and check 2 reports ten issues. *)
Lemma check_2_eleven_dangling_ten_issues :
  size ((extract_defined_ids (U := ascii_db) eleven_dangling).2
        ∖ (extract_defined_ids (U := ascii_db) eleven_dangling).1) = 11
  ∧ length (issues (check_2_id_integrity (U := ascii_db) eleven_dangling)) = 10.
Proof. vm_compute. done. Qed.

(** C3 at its failing input.  Both lines of the document define [DEC-001]
    after a bullet, which is a definition for [extract_defined_ids]; check 2
    passes and reports nothing.  Whatever the Unicode database, the text
    being ASCII. *)
Theorem check_2_misses_bulleted_duplicate (U : UnicodeDB) :
  Forall (λ line, is_definition (lit "DEC-001") (strip line) = true)
    (split_lines bulleted_duplicate)
  ∧ length (split_lines bulleted_duplicate) = 2
  ∧ lit "DEC-001" ∈ (extract_defined_ids bulleted_duplicate).1
  ∧ passed (check_2_id_integrity bulleted_duplicate) = true
  ∧ issues (check_2_id_integrity bulleted_duplicate) = [].
Proof.
  split_and!.
  - vm_compute. repeat constructor.
  - done.
  - vm_compute. done.
  - vm_compute. done.
  - vm_compute. done.
Qed.

(** The same for a domain-prefixed identifier defined twice in table cells. *)
Lemma check_2_misses_table_duplicate (U : UnicodeDB) :
  Forall (λ line, is_definition (lit "SEC-HR-001") (strip line) = true)
    (split_lines table_duplicate)
  ∧ issues (check_2_id_integrity table_duplicate) = [].
Proof.
  split.
  - vm_compute. repeat constructor.
  - vm_compute. done.
Qed.

(** ** Section slicer *)

Section SlicerFacts.
Context {U : UnicodeDB}.

(** What the heading pattern accepts: one to six [#], white space, and a
    title free of line feeds.  The level is the number of [#]. *)
Lemma heading_match_Some stripped level title :
  heading_match stripped = Some (level, title) →
  ∃ ws rest, stripped = replicate level 35%N ++ ws ++ title ++ rest
        ∧ 1 ≤ level ≤ 6 ∧ ws ≠ [] ∧ Forall (λ c, is_space c = true) ws
        ∧ title ≠ [] ∧ Forall (λ c, c ≠ 10%N) title.
Proof.
  unfold heading_match. intros H.
  apply greedy_upto_Some in H as (hs & r & -> & Hhs & Hmax & Hk).
  cbv beta in Hk. rewrite Nat.add_0_l in Hk.
  destruct (1 <=? length hs) eqn:Hl; [|done]. apply Nat.leb_le in Hl.
  apply greedy_Some in Hk as (ws & r2 & -> & Hws & Hk).
  cbv beta in Hk. rewrite Nat.add_0_l in Hk.
  destruct (1 <=? length ws) eqn:Hlw; [|done]. apply Nat.leb_le in Hlw.
  apply greedy_Some in Hk as (ti & r3 & -> & Hti & Hk).
  cbv beta in Hk. rewrite Nat.add_0_l in Hk.
  destruct (1 <=? length ti) eqn:Hlt; [|done]. apply Nat.leb_le in Hlt.
  injection Hk as <- <-. rewrite take_app_length.
  assert (hs = replicate (length hs) 35%N) as Hrep.
  { clear -Hhs. induction Hhs as [|c l Hc _ IH]; [done|]. simpl.
    unfold is_hash in Hc. apply N.eqb_eq in Hc. by rewrite Hc, <- IH. }
  exists ws, r3. split_and!.
  - by rewrite <- Hrep.
  - done.
  - assert (hs ≠ []) as Hne by (intros ->; simpl in Hl; lia).
    specialize (Hmax Hne). lia.
  - intros ->. simpl in Hlw. lia.
  - done.
  - intros ->. simpl in Hlt. lia.
  - eapply Forall_impl; [exact Hti|]. intros c Hc ->. done.
Qed.

(** Before the section: lines without a matching heading leave the state as
    it is. *)
Lemma section_loop_before pat (before rest : list str) level :
  Forall (λ line, ¬ matching_heading pat line) before →
  section_loop pat (before ++ rest) false level []
  = section_loop pat rest false level [].
Proof.
  induction 1 as [|line before Hline _ IH]; [done|]. simpl.
  destruct (heading_match (strip line)) as [[lv title]|] eqn:Hh; [|done].
  destruct (pat title) eqn:Hp; [|done].
  destruct Hline. by exists lv, title.
Qed.

(** Inside the section: lines that are no closing heading are gathered. *)
Lemma section_loop_body pat (body rest : list str) level acc :
  Forall (λ line, ¬ closing_heading level line) body →
  section_loop pat (body ++ rest) true level acc
  = section_loop pat rest true level (acc ++ (strip <$> body)).
Proof.
  intros H. revert acc.
  induction H as [|line body Hline _ IH]; intros acc; simpl.
  - by rewrite app_nil_r.
  - destruct (heading_match (strip line)) as [[lv title]|] eqn:Hh.
    + destruct (lv <=? level) eqn:Hle.
      * apply Nat.leb_le in Hle. destruct Hline. by exists lv, title.
      * rewrite IH. by rewrite <- app_assoc.
    + rewrite IH. by rewrite <- app_assoc.
Qed.

(** Once inside, what was gathered stays. *)
Lemma section_loop_keeps pat (lines : list str) level acc :
  acc `prefix_of` section_loop pat lines true level acc.
Proof.
  revert acc. induction lines as [|line lines IH]; intros acc; simpl; [done|].
  destruct (heading_match (strip line)) as [[lv title]|].
  - destruct (lv <=? level); [done|].
    etrans; [|apply IH]. by apply prefix_app_r.
  - etrans; [|apply IH]. by apply prefix_app_r.
Qed.

Lemma section_loop_nil pat (lines : list str) level :
  section_loop pat lines false level [] = []
  ↔ Forall (λ line, ¬ matching_heading pat line) lines.
Proof.
  induction lines as [|line lines IH]; simpl.
  - split; [constructor | done].
  - destruct (heading_match (strip line)) as [[lv title]|] eqn:Hh.
    + destruct (pat title) eqn:Hp.
      * split.
        -- intros Hnil.
           pose proof (section_loop_keeps pat lines lv [strip line]) as Hpre.
           rewrite Hnil in Hpre. by apply prefix_nil_inv in Hpre.
        -- intros Hall. apply Forall_cons in Hall as [Hline _].
           destruct Hline. by exists lv, title.
      * rewrite IH. split.
        -- intros Hall. constructor; [|done].
           intros (lv' & t' & Hh' & Hp'). congruence.
        -- intros Hall. by apply Forall_cons in Hall as [_ ?].
    + rewrite IH. split.
      * intros Hall. constructor; [|done].
        intros (lv' & t' & Hh' & Hp'). congruence.
      * intros Hall. by apply Forall_cons in Hall as [_ ?].
Qed.

(** The decomposition exists: the first matching heading, and the lines up to
    the first heading that closes the section. *)
Lemma first_matching_heading pat (lines : list str) :
  ¬ Forall (λ line, ¬ matching_heading pat line) lines →
  ∃ before h rest, lines = before ++ h :: rest
    ∧ Forall (λ line, ¬ matching_heading pat line) before
    ∧ matching_heading pat h.
Proof.
  induction lines as [|line lines IH]; intros Hn.
  - destruct Hn. constructor.
  - destruct (heading_match (strip line)) as [[lv title]|] eqn:Hh.
    + destruct (pat title) eqn:Hp.
      * exists [], line, lines. split_and!; [done | constructor|].
        by exists lv, title.
      * destruct IH as (before & h & rest & -> & Hb & Hm).
        { intros Hall. apply Hn. constructor; [|done].
          intros (lv' & t' & Hh' & Hp'). congruence. }
        exists (line :: before), h, rest. split_and!; [done | | done].
        constructor; [|done]. intros (lv' & t' & Hh' & Hp'). congruence.
    + destruct IH as (before & h & rest & -> & Hb & Hm).
      { intros Hall. apply Hn. constructor; [|done].
        intros (lv' & t' & Hh' & Hp'). congruence. }
      exists (line :: before), h, rest. split_and!; [done | | done].
      constructor; [|done]. intros (lv' & t' & Hh' & Hp'). congruence.
Qed.

Lemma first_closing_heading level (lines : list str) :
  ∃ body after, lines = body ++ after
    ∧ Forall (λ line, ¬ closing_heading level line) body
    ∧ (after = [] ∨ ∃ l rest, after = l :: rest ∧ closing_heading level l).
Proof.
  induction lines as [|line lines (body & after & -> & Hb & Ha)].
  - exists [], []. split_and!; [done | constructor | by left].
  - destruct (heading_match (strip line)) as [[lv title]|] eqn:Hh.
    + destruct (decide (lv ≤ level)) as [Hle|Hgt].
      * exists [], (line :: body ++ after). split_and!; [done | constructor|].
        right. exists line, (body ++ after). split; [done|]. by exists lv, title.
      * exists (line :: body), after. split_and!; [done | | done].
        constructor; [|done]. intros (lv' & t' & Hh' & Hle'). 
        rewrite Hh in Hh'. injection Hh' as <- <-. lia.
    + exists (line :: body), after. split_and!; [done | | done].
      constructor; [|done]. intros (lv' & t' & Hh' & _). congruence.
Qed.

(** C6.  The slicer returns [None] exactly when no line is a heading whose
    title the pattern matches.  Otherwise, with [h] the first such heading,
    [body] the lines after it up to the first later heading of depth at most
    that of [h] (or up to the end), it returns the lines [h :: body], each
    trimmed, joined by line feeds: deeper sub-headings are kept, the closing
    heading is not.  Such [h] and [body] exist whenever some heading
    matches. *)
Theorem extract_section_span (rfc : str) (pat : str → bool) :
  (_extract_section rfc pat = None
   ↔ Forall (λ line, ¬ matching_heading pat line) (split_lines rfc))
  ∧ (∀ before h body after level title,
       split_lines rfc = before ++ h :: body ++ after →
       Forall (λ line, ¬ matching_heading pat line) before →
       heading_match (strip h) = Some (level, title) → pat title = true →
       Forall (λ line, ¬ closing_heading level line) body →
       (after = [] ∨ ∃ l rest, after = l :: rest ∧ closing_heading level l) →
       _extract_section rfc pat = Some (join_lines (strip <$> h :: body)))
  ∧ (¬ Forall (λ line, ¬ matching_heading pat line) (split_lines rfc) →
     ∃ before h body after level title,
       split_lines rfc = before ++ h :: body ++ after
       ∧ Forall (λ line, ¬ matching_heading pat line) before
       ∧ heading_match (strip h) = Some (level, title) ∧ pat title = true
       ∧ Forall (λ line, ¬ closing_heading level line) body
       ∧ (after = [] ∨ ∃ l rest, after = l :: rest ∧ closing_heading level l)).
Proof.
  unfold _extract_section. split_and!; [| |
    intros Hn;
    destruct (first_matching_heading pat _ Hn)
      as (before & h & rest & Hsplit & Hb & (level & title & Hh & Hp));
    destruct (first_closing_heading level rest) as (body & after & -> & Hbody & Ha);
    by exists before, h, body, after, level, title ].
  - rewrite <- (section_loop_nil pat (split_lines rfc) 0).
    destruct (section_loop pat (split_lines rfc) false 0 []); simpl; split; done.
  - intros before h body after level title Hsplit Hbefore Hh Hp Hbody Hafter.
    rewrite Hsplit, section_loop_before by done. simpl.
    rewrite Hh, Hp. rewrite section_loop_body by done. simpl.
    assert (section_loop pat after true level (strip h :: (strip <$> body))
            = strip h :: (strip <$> body)) as ->.
    { destruct Hafter as [-> | (l & rest & -> & lv & t & Hl & Hle)]; [done|].
      simpl. rewrite Hl.
      replace (lv <=? level) with true by (symmetry; by apply Nat.leb_le).
      done. }
    done.
Qed.

End SlicerFacts.

(** ** Check 5: paragraphs and list items *)

(** C7 at its failing input.  The document is a list of eleven items marked
    with [*].  Every line of it is a list item, as check 16 of the script
    itself reads one, so it holds no run of lines that are none of heading,
    list item, table row and quote; check 5 fails all the same and reports a
    paragraph too long at line 11.  Whatever the Unicode database, the text
    being ASCII. *)
Theorem check_5_flags_starred_list (U : UnicodeDB) :
  Forall (λ line, is_list_item (strip line) = true) (split_lines starred_list)
  ∧ length (split_lines starred_list) = 11
  ∧ passed (check_5_readability starred_list) = false
  ∧ issues (check_5_readability starred_list) = [ParagraphTooLong 11].
Proof.
  split_and!.
  - vm_compute. repeat constructor.
  - done.
  - vm_compute. done.
  - vm_compute. done.
Qed.

(** The same for eleven numbered steps. *)
Lemma check_5_flags_numbered_steps (U : UnicodeDB) :
  Forall (λ line, is_list_item (strip line) = true) (split_lines numbered_steps)
  ∧ passed (check_5_readability numbered_steps) = false
  ∧ issues (check_5_readability numbered_steps) = [ParagraphTooLong 11].
Proof.
  split_and!.
  - vm_compute. repeat constructor.
  - vm_compute. done.
  - vm_compute. done.
Qed.

(** A list marked with [-], the one marker the paragraph loop knows, passes. *)
Lemma check_5_accepts_dashed_list (U : UnicodeDB) :
  Forall (λ line, is_list_item (strip line) = true) (split_lines dashed_list)
  ∧ passed (check_5_readability dashed_list) = true
  ∧ issues (check_5_readability dashed_list) = [].
Proof.
  split_and!.
  - vm_compute. repeat constructor.
  - vm_compute. done.
  - vm_compute. done.
Qed.

(** ** Check 7: the ids of the store *)

Lemma elem_of_sorted (X : gset str) x : x ∈ sorted X ↔ x ∈ X.
Proof.
  unfold sorted. rewrite merge_sort_Permutation. apply elem_of_elements.
Qed.

Lemma existsb_json_is_str x (ids : list json) :
  existsb (json_is_str x) ids = true ↔ JStr x ∈ ids.
Proof.
  rewrite existsb_exists. split.
  - intros (v & Hin & Hv). apply list_elem_of_In in Hin.
    destruct v; try done. simpl in Hv. unfold str_eqb in Hv.
    apply bool_decide_eq_true in Hv. by subst.
  - intros Hin. exists (JStr x). split; [by apply list_elem_of_In|].
    simpl. unfold str_eqb. by apply bool_decide_eq_true.
Qed.

Lemma evd_ids_in_json_elem items ids v :
  evd_ids_in_json items = Some ids →
  v ∈ ids ↔ ∃ item, item ∈ items ∧ item_evd_id item = Some v.
Proof.
  revert ids. induction items as [|item items IH]; intros ids; simpl.
  - intros [= <-]. split; [by intros ?%elem_of_nil|].
    intros (? & ?%elem_of_nil & _). done.
  - destruct (item_evd_id item) as [w|] eqn:Hw; [|done].
    destruct (evd_ids_in_json items) as [vs|]; [|done].
    intros [= <-]. rewrite elem_of_cons, (IH vs) by done. split.
    + intros [-> | (it & Hit & Hv)].
      * exists item. split; [left | done].
      * exists it. split; [by right | done].
    + intros (it & Hit & Hv). apply elem_of_cons in Hit as [-> | Hit].
      * left. congruence.
      * right. eauto.
Qed.

Lemma evd_ids_in_json_total items :
  Forall (λ item, is_Some (item_evd_id item)) items →
  is_Some (evd_ids_in_json items).
Proof.
  induction 1 as [|item items [v Hv] _ [vs Hvs]]; simpl; [by eexists|].
  rewrite Hv, Hvs. by eexists.
Qed.

(** ** The object store *)

(** Induction on values through their lists. *)
Lemma json_nested_ind (P : json → Prop) :
  P JNull → (∀ b, P (JBool b)) → (∀ n, P (JNum n)) → (∀ s, P (JStr s)) →
  (∀ items, Forall P items → P (JArr items)) →
  (∀ fields, Forall (λ kv, P (snd kv)) fields → P (JObj fields)) →
  ∀ j, P j.
Proof.
  intros Hnull Hbool Hnum Hstr Harr Hobj.
  fix IH 1. intros [ | b | n | s | items | fields].
  - apply Hnull.
  - apply Hbool.
  - apply Hnum.
  - apply Hstr.
  - apply Harr. induction items as [|x xs IHxs]; constructor; [apply IH | apply IHxs].
  - apply Hobj. induction fields as [|[k x] xs IHxs]; constructor;
      [apply IH | apply IHxs].
Qed.

Lemma alloc_JArr items h :
  alloc (JArr items) h
  = let '(h', vs) := alloc_items items h in (h' ++ [OList vs], VRef (length h')).
Proof.
  assert (Heq : ∀ items h,
    (fix go (items : list json) (h : list obj) : list obj * list val :=
       match items with
       | [] => (h, [])
       | x :: xs =>
           let '(h1, v) := alloc x h in
           let '(h2, vs) := go xs h1 in (h2, v :: vs)
       end) items h = alloc_items items h).
  { clear. induction items as [|x xs IH]; intros h; [done|].
    simpl. destruct (alloc x h) as [h1 v]. by rewrite IH. }
  simpl. by rewrite Heq.
Qed.

Lemma alloc_JObj fields h :
  alloc (JObj fields) h
  = let '(h', kvs) := alloc_fields fields h in (h' ++ [ODict kvs], VRef (length h')).
Proof.
  assert (Heq : ∀ fields h,
    (fix go (fields : list (str * json)) (h : list obj)
       : list obj * list (str * val) :=
       match fields with
       | [] => (h, [])
       | (k, x) :: xs =>
           let '(h1, v) := alloc x h in
           let '(h2, kvs) := go xs h1 in (h2, (k, v) :: kvs)
       end) fields h = alloc_fields fields h).
  { clear. induction fields as [|[k x] xs IH]; intros h; [done|].
    simpl. destruct (alloc x h) as [h1 v]. by rewrite IH. }
  simpl. by rewrite Heq.
Qed.

Lemma mapM_ext_Forall {A B} (f g : A → option B) (l : list A) :
  Forall (λ x, f x = g x) l → mapM f l = mapM g l.
Proof.
  induction 1 as [|x l Hx _ IH]; [done|]. simpl. by rewrite Hx, IH.
Qed.

(** Framing: reading a value whose objects all lie in a closed region looks
    at nothing outside the region. *)
Lemma read_frame a b (H H' : list obj) n v :
  val_in a b v → closed_region a b H → agree_on a b H H' →
  read n H' v = read n H v.
Proof.
  intros Hv [Hlen Hclosed] Hagree. revert v Hv.
  induction n as [|n IH]; intros v Hv; destruct v as [ | | | |l]; try done.
  simpl in *. rewrite (Hagree l Hv).
  destruct (H !! l) as [o|] eqn:Hl; [|done].
  specialize (Hclosed l o Hv Hl).
  destruct o as [items|fields]; simpl in Hclosed.
  - f_equal. apply mapM_ext_Forall.
    eapply Forall_impl; [exact Hclosed|]. intros x Hx. by apply IH.
  - f_equal. apply mapM_ext_Forall.
    eapply Forall_impl; [exact Hclosed|]. intros [k x] Hx. simpl in *.
    by rewrite IH.
Qed.

Lemma agree_on_app a b (h ext : list obj) :
  b ≤ length h → agree_on a b h (h ++ ext).
Proof. intros Hb l Hl. apply lookup_app_l. lia. Qed.

Lemma agree_on_trans a b (h1 h2 h3 : list obj) :
  agree_on a b h1 h2 → agree_on a b h2 h3 → agree_on a b h1 h3.
Proof. intros H12 H23 l Hl. by rewrite H23, H12. Qed.

Lemma agree_on_weaken a b a' b' (h h' : list obj) :
  a ≤ a' → b' ≤ b → agree_on a b h h' → agree_on a' b' h h'.
Proof. intros Ha Hb H l Hl. apply H. lia. Qed.

Lemma agree_on_insert a b (h : list obj) l o :
  ¬ (a ≤ l < b) → agree_on a b h (<[l := o]> h).
Proof.
  intros Hl l' Hl'. apply list_lookup_insert_ne. intros ->. done.
Qed.

Lemma val_in_weaken a b a' b' v :
  a' ≤ a → b ≤ b' → val_in a b v → val_in a' b' v.
Proof. destruct v; simpl; try done. lia. Qed.

Lemma obj_in_weaken a b a' b' o :
  a' ≤ a → b ≤ b' → obj_in a b o → obj_in a' b' o.
Proof.
  intros Ha Hb. destruct o; simpl; intros H; (eapply Forall_impl; [exact H|]).
  - intros v. by apply val_in_weaken.
  - intros [k v]. by apply val_in_weaken.
Qed.

(** A closed region stays closed when the store grows at its end by an
    object that refers into the region extended by it. *)
Lemma closed_region_snoc a (h : list obj) o :
  a ≤ length h → closed_region a (length h) h → obj_in a (length h) o →
  closed_region a (length (h ++ [o])) (h ++ [o]).
Proof.
  intros Ha [_ Hc] Ho. split; [done|]. rewrite length_app. simpl.
  intros l o' Hl Hlook.
  destruct (decide (l < length h)) as [Hlt|Hge].
  - rewrite lookup_app_l in Hlook by done.
    apply (obj_in_weaken a (length h)); [lia | lia |].
    apply (Hc l o'); [lia | done].
  - assert (l = length h) as -> by lia.
    rewrite list_lookup_middle in Hlook by done. injection Hlook as <-.
    apply (obj_in_weaken a (length h)); [lia | lia | done].
Qed.

Lemma closed_region_empty (h : list obj) : closed_region (length h) (length h) h.
Proof. split; [done|]. intros l o Hl. lia. Qed.

Lemma alloc_items_spec items :
  Forall (λ x, ∀ h a, a ≤ length h → closed_region a (length h) h →
                      alloc_post a h x (alloc x h).1 (alloc x h).2) items →
  ∀ h a, a ≤ length h → closed_region a (length h) h →
         alloc_items_post a h items (alloc_items items h).1 (alloc_items items h).2.
Proof.
  induction 1 as [|x xs Hx _ IH]; intros h a Ha Hc.
  - simpl. split_and!;
      [exists []; by rewrite app_nil_r | done | done | done | simpl; lia].
  - simpl.
    pose proof (Hx h a Ha Hc) as (Hext1 & Hc1 & _ & _ & _).
    pose proof (Hx h (length h) (Nat.le_refl _) (closed_region_empty h))
      as (_ & Hloc1 & Hv1 & Hr1 & Hlen1).
    destruct (alloc x h) as [h1 v]. simpl in *.
    destruct Hext1 as [ext1 ->].
    assert (a ≤ length (h ++ ext1)) as Ha1 by (rewrite length_app; lia).
    pose proof (IH (h ++ ext1) a Ha1 Hc1) as (Hext2 & Hc2 & Hvs & Hrs & Hlen2).
    destruct (alloc_items xs (h ++ ext1)) as [h2 vs]. simpl in *.
    destruct Hext2 as [ext2 ->].
    rewrite !length_app in *.
    split_and!; rewrite ?length_app.
    + exists (ext1 ++ ext2). by rewrite app_assoc.
    + done.
    + constructor.
      * eapply val_in_weaken; [| |exact Hv1]; lia.
      * eapply Forall_impl; [exact Hvs|]. intros w Hw.
        eapply val_in_weaken; [| |exact Hw]; lia.
    + intros n Hn. apply Forall_cons in Hn as [Hnx Hnxs]. simpl.
      rewrite (read_frame (length h) (length h + length ext1) (h ++ ext1));
        [|done | done | apply agree_on_app; rewrite length_app; lia].
      rewrite (Hr1 n Hnx). simpl. rewrite (Hrs n Hnxs). done.
    + cbn [foldr snd]. lia.
Qed.

Lemma alloc_fields_spec fields :
  Forall (λ kv, ∀ h a, a ≤ length h → closed_region a (length h) h →
                       alloc_post a h (snd kv) (alloc (snd kv) h).1 (alloc (snd kv) h).2)
    fields →
  ∀ h a, a ≤ length h → closed_region a (length h) h →
         alloc_fields_post a h fields
           (alloc_fields fields h).1 (alloc_fields fields h).2.
Proof.
  induction 1 as [|[k x] xs Hx _ IH]; intros h a Ha Hc.
  - simpl. split_and!;
      [exists []; by rewrite app_nil_r | done | done | done | simpl; lia].
  - simpl in *.
    pose proof (Hx h a Ha Hc) as (Hext1 & Hc1 & _ & _ & _).
    pose proof (Hx h (length h) (Nat.le_refl _) (closed_region_empty h))
      as (_ & Hloc1 & Hv1 & Hr1 & Hlen1).
    destruct (alloc x h) as [h1 v]. simpl in *.
    destruct Hext1 as [ext1 ->].
    assert (a ≤ length (h ++ ext1)) as Ha1 by (rewrite length_app; lia).
    pose proof (IH (h ++ ext1) a Ha1 Hc1) as (Hext2 & Hc2 & Hvs & Hrs & Hlen2).
    destruct (alloc_fields xs (h ++ ext1)) as [h2 vs]. simpl in *.
    destruct Hext2 as [ext2 ->].
    rewrite !length_app in *.
    split_and!; rewrite ?length_app.
    + exists (ext1 ++ ext2). by rewrite app_assoc.
    + done.
    + constructor.
      * simpl. eapply val_in_weaken; [| |exact Hv1]; lia.
      * eapply Forall_impl; [exact Hvs|]. intros w Hw.
        eapply val_in_weaken; [| |exact Hw]; lia.
    + intros n Hn. apply Forall_cons in Hn as [Hnx Hnxs]. simpl in *.
      rewrite (read_frame (length h) (length h + length ext1) (h ++ ext1));
        [|done | done | apply agree_on_app; rewrite length_app; lia].
      rewrite (Hr1 n Hnx). simpl. rewrite (Hrs n Hnxs). done.
    + cbn [foldr snd]. lia.
Qed.

Lemma foldr_max_le {A} (f : A → nat) (l : list A) n :
  foldr (λ x m, max (f x) m) 0 l ≤ n → Forall (λ x, f x ≤ n) l.
Proof.
  induction l as [|x l IH]; simpl; intros H; constructor; [lia|].
  apply IH. lia.
Qed.

(** Allocation: the old objects are kept, the new ones form a closed
    region, and the value returned reads back as the value allocated. *)
Lemma alloc_spec j :
  ∀ h a, a ≤ length h → closed_region a (length h) h →
         alloc_post a h j (alloc j h).1 (alloc j h).2.
Proof.
  induction j as [ | b | n | s | items IH | fields IH] using json_nested_ind;
    intros h a Ha Hc.
  1-4: (simpl; split_and!;
        [exists []; by rewrite app_nil_r | done | done
        | by intros [|?] _ | simpl; lia]).
  - rewrite alloc_JArr.
    pose proof (alloc_items_spec items IH h a Ha Hc) as (Hext & Hc2 & _ & _ & _).
    pose proof (alloc_items_spec items IH h (length h) (Nat.le_refl _)
                  (closed_region_empty h)) as (_ & Hloc & Hvs & Hrs & Hlen).
    destruct (alloc_items items h) as [h2 vs]. simpl in *.
    destruct Hext as [ext ->].
    assert (Hobj : obj_in a (length (h ++ ext)) (OList vs)).
    { simpl. eapply Forall_impl; [exact Hvs|]. intros v Hv.
      eapply val_in_weaken; [| |exact Hv]; lia. }
    assert (a ≤ length (h ++ ext)) as Ha2 by (rewrite length_app; lia).
    split_and!.
    + exists (ext ++ [OList vs]). by rewrite app_assoc.
    + by apply closed_region_snoc.
    + rewrite !length_app. simpl. lia.
    + intros n Hn. cbn [depth] in Hn. destruct n as [|n]; [lia|]. simpl.
      rewrite list_lookup_middle by done.
      rewrite (mapM_ext_Forall _ (read n (h ++ ext))).
      * rewrite Hrs; [done|]. apply foldr_max_le. lia.
      * eapply Forall_impl; [exact Hvs|]. intros v Hv.
        apply (read_frame (length h) (length (h ++ ext))); [done..|].
        by apply agree_on_app.
    + rewrite !length_app in *. simpl. lia.
  - rewrite alloc_JObj.
    pose proof (alloc_fields_spec fields IH h a Ha Hc) as (Hext & Hc2 & _ & _ & _).
    pose proof (alloc_fields_spec fields IH h (length h) (Nat.le_refl _)
                  (closed_region_empty h)) as (_ & Hloc & Hvs & Hrs & Hlen).
    destruct (alloc_fields fields h) as [h2 kvs]. simpl in *.
    destruct Hext as [ext ->].
    assert (Hobj : obj_in a (length (h ++ ext)) (ODict kvs)).
    { simpl. eapply Forall_impl; [exact Hvs|]. intros v Hv.
      eapply val_in_weaken; [| |exact Hv]; lia. }
    assert (a ≤ length (h ++ ext)) as Ha2 by (rewrite length_app; lia).
    split_and!.
    + exists (ext ++ [ODict kvs]). by rewrite app_assoc.
    + by apply closed_region_snoc.
    + rewrite !length_app. simpl. lia.
    + intros n Hn. cbn [depth] in Hn. destruct n as [|n]; [lia|]. simpl.
      rewrite list_lookup_middle by done.
      rewrite (mapM_ext_Forall _
                 (λ kv, pair (fst kv) <$> read n (h ++ ext) (snd kv))).
      * rewrite Hrs; [done|].
        apply (foldr_max_le (λ kv : str * json, depth (snd kv))). lia.
      * eapply Forall_impl; [exact Hvs|]. intros [k v] Hv. simpl in *.
        rewrite (read_frame (length h) (length (h ++ ext)) (h ++ ext));
          [done..|].
        by apply agree_on_app.
    + rewrite !length_app in *. simpl. lia.
Qed.

(** ** Configuration resolution *)

Lemma module_heap_spec :
  alloc_post 0 [] DEFAULT_CONFIG_literal module_heap DEFAULT_CONFIG.
Proof.
  apply (alloc_spec DEFAULT_CONFIG_literal [] 0); [done|].
  apply (closed_region_empty []).
Qed.

Lemma defaults_intact_length h : defaults_intact h → length module_heap ≤ length h.
Proof.
  intros Hd. destruct (length module_heap) as [|n] eqn:Hn; [lia|].
  assert (is_Some (module_heap !! n)) as [o Ho]
    by (apply lookup_lt_is_Some; lia).
  unfold defaults_intact in Hd. rewrite Hn in Hd.
  specialize (Hd n ltac:(lia)). rewrite Ho in Hd.
  apply lookup_lt_Some in Hd. lia.
Qed.

(** While its objects are intact, [DEFAULT_CONFIG] denotes the literal of the
    script. *)
Lemma defaults_denote h :
  defaults_intact h → denotes h DEFAULT_CONFIG = Some DEFAULT_CONFIG_literal.
Proof.
  intros Hd. pose proof (defaults_intact_length h Hd) as Hlen.
  destruct module_heap_spec as (_ & Hc & Hv & Hr & Hdep). simpl in *.
  unfold denotes.
  rewrite (read_frame 0 (length module_heap) module_heap); [|done..].
  apply Hr. lia.
Qed.

Lemma deepcopy_defaults h :
  defaults_intact h →
  deepcopy h DEFAULT_CONFIG = Some (alloc DEFAULT_CONFIG_literal h).
Proof. intros Hd. unfold deepcopy. by rewrite defaults_denote. Qed.

Lemma dict_set_Forall {V} (P : V → Prop) (d : list (str * V)) k v :
  Forall (λ kv, P (snd kv)) d → P v → Forall (λ kv, P (snd kv)) (dict_set d k v).
Proof.
  intros Hd Hv. induction Hd as [|[k' v'] d Hkv Hd IH]; simpl.
  - by repeat constructor.
  - destruct (str_eqb k' k); constructor; done.
Qed.

Lemma dict_update_fields_Forall {V} (P : V → Prop) (kvs d : list (str * V)) :
  Forall (λ kv, P (snd kv)) d → Forall (λ kv, P (snd kv)) kvs →
  Forall (λ kv, P (snd kv))
    (fold_left (λ d kv, dict_set d (fst kv) (snd kv)) kvs d).
Proof.
  intros Hd Hkvs. revert d Hd.
  induction Hkvs as [|[k v] kvs Hkv _ IH]; intros d Hd; simpl; [done|].
  apply IH. by apply dict_set_Forall.
Qed.

(** [cfg.update] changes the one object at [c] and keeps a region that holds
    [c] and the new values closed. *)
Lemma dict_update_closed a (h : list obj) c kvs :
  closed_region a (length h) h → a ≤ c < length h →
  Forall (λ kv, val_in a (length h) (snd kv)) kvs →
  closed_region a (length (dict_update h c kvs)) (dict_update h c kvs)
  ∧ length (dict_update h c kvs) = length h
  ∧ agree_on 0 a h (dict_update h c kvs).
Proof.
  intros [Hlen Hc] Hrange Hkvs. unfold dict_update.
  destruct (h !! c) as [[items|fields]|] eqn:Hlook;
    [by split_and! | | by split_and!].
  rewrite length_insert. split_and!; [|done|].
  - split; [by rewrite length_insert|]. intros l o Hl Hlo.
    destruct (decide (l = c)) as [->|Hne].
    + rewrite list_lookup_insert_eq in Hlo by lia. injection Hlo as <-.
      simpl. apply dict_update_fields_Forall; [|done].
      by apply (Hc c (ODict fields)).
    + rewrite list_lookup_insert_ne in Hlo by done. by eapply Hc.
  - apply agree_on_insert. lia.
Qed.

(** What one resolution does to the store: it keeps every object that was
    there, and returns a configuration made of new objects that refer to new
    objects only. *)
Lemma load_config_spec env p h h1 c1 :
  defaults_intact h →
  load_config env p h = Some (Returned (h1, c1)) →
  length h ≤ length h1 ∧ agree_on 0 (length h) h h1
  ∧ closed_region (length h) (length h1) h1 ∧ val_in (length h) (length h1) c1
  ∧ ∃ l, c1 = VRef l.
Proof.
  intros Hd. unfold load_config. rewrite deepcopy_defaults by done.
  pose proof (alloc_spec DEFAULT_CONFIG_literal h (length h) (Nat.le_refl _)
                (closed_region_empty h)) as ([ext Hext] & Hc0 & Hv0 & _ & _).
  assert (Href : ∃ l, (alloc DEFAULT_CONFIG_literal h).2 = VRef l).
  { unfold DEFAULT_CONFIG_literal. rewrite alloc_JObj.
    destruct (alloc_fields _ h). simpl. eauto. }
  destruct (alloc DEFAULT_CONFIG_literal h) as [h0 c]. simpl in *. subst h0.
  assert (Hfallback :
    length h ≤ length (h ++ ext) ∧ agree_on 0 (length h) h (h ++ ext)
    ∧ closed_region (length h) (length (h ++ ext)) (h ++ ext)
    ∧ val_in (length h) (length (h ++ ext)) c ∧ ∃ l, c = VRef l).
  { split_and!; try done; [rewrite length_app; lia | by apply agree_on_app]. }
  destruct (open_and_load env _) as [overrides|e].
  - destruct (update_pairs env overrides) as [fields|e]; [|done].
    assert (Hall : Forall (λ kv : str * json, ∀ h a, a ≤ length h →
      closed_region a (length h) h →
      alloc_post a h (snd kv) (alloc (snd kv) h).1 (alloc (snd kv) h).2) fields).
    { apply Forall_forall. intros kv _. apply alloc_spec. }
    pose proof (alloc_fields_spec fields Hall (h ++ ext) (length h)
                  ltac:(rewrite length_app; lia) Hc0)
      as ([ext2 Hext2] & Hc2 & Hkvs & _ & _).
    destruct (alloc_fields fields (h ++ ext)) as [h2 kvs]. simpl in *. subst h2.
    destruct Href as [l ->]. intros [= <- <-]. simpl in Hv0.
    destruct (dict_update_closed (length h) ((h ++ ext) ++ ext2) l kvs)
      as (Hc3 & Hlen3 & Hag3); [done | rewrite !length_app in *; lia | |].
    { eapply Forall_impl; [exact Hkvs|]. intros kv Hkv.
      eapply val_in_weaken; [| |exact Hkv]; rewrite ?length_app; lia. }
    rewrite Hlen3 in *. split_and!.
    + rewrite !length_app. lia.
    + eapply agree_on_trans; [|exact Hag3].
      rewrite <- app_assoc. by apply agree_on_app.
    + done.
    + simpl. rewrite !length_app in *. lia.
    + eauto.
  - destruct e; try done; by intros [= <- <-].
Qed.

(** ** What a resolution returns *)

(** More fuel reads the same tree. *)
Lemma read_fuel_mono (H : list obj) n m v j :
  read n H v = Some j → n ≤ m → read m H v = Some j.
Proof.
  revert m v j. induction n as [|n IH]; intros m v j Hr Hle.
  - destruct v; simpl in Hr; try done; by destruct m.
  - destruct v as [ | | | |l]; try (by destruct m).
    destruct m as [|m]; [lia|]. simpl in *.
    destruct (H !! l) as [[items|fields]|]; [| |done].
    + destruct (mapM (read n H) items) as [js|] eqn:Hm; [|done].
      injection Hr as <-.
      assert (mapM (read m H) items = Some js) as ->; [|done].
      apply mapM_Some. apply mapM_Some in Hm.
      eapply Forall2_impl; [exact Hm|]. intros x y Hxy. apply IH; [done | lia].
    + destruct (mapM _ fields) as [js|] eqn:Hm; [|done].
      injection Hr as <-.
      assert (mapM (λ kv, pair kv.1 <$> read m H kv.2) fields = Some js) as ->;
        [|done].
      apply mapM_Some. apply mapM_Some in Hm.
      eapply Forall2_impl; [exact Hm|]. intros [k x] y Hxy. simpl in *.
      destruct (read n H x) as [jx|] eqn:Hx; [|done].
      by rewrite (IH m x jx Hx ltac:(lia)).
Qed.

(** Setting a key in a dict of references and in the tree it reads as. *)
Lemma mapM_dict_set (r : val → option json) (d : list (str * val))
    (D : list (str * json)) k v j :
  mapM (λ kv, pair kv.1 <$> r kv.2) d = Some D → r v = Some j →
  mapM (λ kv, pair kv.1 <$> r kv.2) (dict_set d k v) = Some (dict_set D k j).
Proof.
  revert D. induction d as [|[k' v'] d IH]; intros D Hd Hv; simpl in *.
  - injection Hd as <-. by rewrite Hv.
  - destruct (r v') as [j'|] eqn:Hv'; [|done]. simpl in Hd.
    destruct (mapM _ d) as [D'|] eqn:HD'; [|done]. simpl in Hd.
    injection Hd as <-. simpl.
    destruct (str_eqb k' k); simpl.
    + by rewrite Hv, HD'.
    + rewrite Hv'. simpl. by rewrite (IH D').
Qed.

Lemma mapM_merge_fields (r : val → option json) (kvs d : list (str * val))
    (O D : list (str * json)) :
  mapM (λ kv, pair kv.1 <$> r kv.2) d = Some D →
  mapM (λ kv, pair kv.1 <$> r kv.2) kvs = Some O →
  mapM (λ kv, pair kv.1 <$> r kv.2) (merge_fields d kvs) = Some (merge_fields D O).
Proof.
  unfold merge_fields. revert d D O.
  induction kvs as [|[k v] kvs IH]; intros d D O Hd Hk; simpl in *.
  - by injection Hk as <-.
  - destruct (r v) as [j|] eqn:Hv; [|done]. simpl in Hk.
    destruct (mapM _ kvs) as [O'|] eqn:HO'; [|done]. simpl in Hk.
    injection Hk as <-. simpl. apply IH; [|done].
    by apply mapM_dict_set.
Qed.

Lemma alloc_fields_spec_all fields h a :
  a ≤ length h → closed_region a (length h) h →
  alloc_fields_post a h fields (alloc_fields fields h).1 (alloc_fields fields h).2.
Proof.
  apply alloc_fields_spec. apply Forall_forall. intros kv _. apply alloc_spec.
Qed.

Lemma mapM_read_frame a b (H H' : list obj) n (kvs : list (str * val)) :
  Forall (λ kv, val_in a b kv.2) kvs → closed_region a b H → agree_on a b H H' →
  mapM (λ kv, pair kv.1 <$> read n H' kv.2) kvs
  = mapM (λ kv, pair kv.1 <$> read n H kv.2) kvs.
Proof.
  intros Hkvs Hc Hag. apply mapM_ext_Forall.
  eapply Forall_impl; [exact Hkvs|]. intros [k v] Hv. simpl in *.
  by rewrite (read_frame a b H H').
Qed.

(** With an override document, the configuration returned reads as the
    defaults with each override key set: the shallow merge. *)
Lemma load_config_override env p h overrides fields :
  defaults_intact h →
  open_and_load env (match p with None => adjacent_config env | Some q => q end)
    = Returned overrides →
  update_pairs env overrides = Returned fields →
  ∃ h1 c1, load_config env p h = Some (Returned (h1, c1))
           ∧ denotes h1 c1 = Some (JObj (merge_fields default_fields fields)).
Proof.
  intros Hd Hopen Hupd. unfold load_config. rewrite deepcopy_defaults by done.
  change DEFAULT_CONFIG_literal with (JObj default_fields). rewrite alloc_JObj.
  pose proof (alloc_fields_spec_all default_fields h (length h) (Nat.le_refl _)
                (closed_region_empty h)) as (Hext & Hc & Hkvs & Hrs & Hlen).
  destruct (alloc_fields default_fields h) as [h' kvs]. cbn [fst snd] in *.
  rewrite Hopen, Hupd.
  set (h0 := h' ++ [ODict kvs]).
  assert (Hlen0 : length h0 = S (length h'))
    by (unfold h0; rewrite length_app; simpl; lia).
  pose proof (alloc_fields_spec_all fields h0 (length h0) (Nat.le_refl _)
                (closed_region_empty h0)) as ([ext2 Hext2] & Hc2 & Hokvs & Hrs2 & Hlen2).
  destruct (alloc_fields fields h0) as [h2 okvs]. cbn [fst snd] in *.
  eexists _, _. split; [reflexivity|].
  assert (Hlook : h2 !! length h' = Some (ODict kvs)).
  { rewrite Hext2. rewrite lookup_app_l by lia. unfold h0.
    by apply list_lookup_middle. }
  unfold dict_update. rewrite Hlook. fold (merge_fields kvs okvs).
  set (h3 := <[length h' := ODict (merge_fields kvs okvs)]> h2).
  assert (Hlen3 : length h3 = length h2) by apply length_insert.
  assert (Hlt : length h' < length h2).
  { apply lookup_lt_Some in Hlook. done. }
  unfold denotes. rewrite Hlen3.
  destruct (length h2) as [|n] eqn:Hn; [lia|]. simpl.
  unfold h3 at 1. rewrite list_lookup_insert_eq by lia.
  rewrite (mapM_merge_fields (read n h3) okvs kvs fields default_fields); [done| |].
  - rewrite (mapM_read_frame (length h) (length h') h'); [|done..|].
    + apply Hrs. apply (foldr_max_le (λ kv : str * json, depth kv.2)). lia.
    + intros l Hl. unfold h3. rewrite list_lookup_insert_ne by lia.
      rewrite Hext2. unfold h0. rewrite <- app_assoc. apply lookup_app_l. lia.
  - rewrite (mapM_read_frame (length h0) (S n) h2); [|done|done|].
    + apply Hrs2. apply (foldr_max_le (λ kv : str * json, depth kv.2)). lia.
    + intros l Hl. unfold h3. apply list_lookup_insert_ne. lia.
Qed.

(** Falling back: when the file is absent or is not JSON, the configuration
    returned is the fresh copy of the defaults. *)
Lemma load_config_default env cp h :
  defaults_intact h →
  open_and_load env (match cp with None => adjacent_config env | Some q => q end)
    = Raised FileNotFoundError
  ∨ open_and_load env (match cp with None => adjacent_config env | Some q => q end)
    = Raised JSONDecodeError →
  load_config env cp h = Some (Returned (alloc DEFAULT_CONFIG_literal h))
  ∧ denotes (alloc DEFAULT_CONFIG_literal h).1 (alloc DEFAULT_CONFIG_literal h).2
    = Some DEFAULT_CONFIG_literal.
Proof.
  intros Hd Hq. split.
  - unfold load_config. rewrite deepcopy_defaults by done.
    destruct (alloc DEFAULT_CONFIG_literal h) as [h0 c].
    by destruct Hq as [-> | ->].
  - pose proof (alloc_spec DEFAULT_CONFIG_literal h (length h) (Nat.le_refl _)
                  (closed_region_empty h)) as (_ & _ & _ & Hr & Hlen).
    unfold denotes. apply Hr. lia.
Qed.

(** Every resolution that returns, returns a configuration that reads as a
    tree. *)
Lemma load_config_readable env p h h1 c1 :
  defaults_intact h → load_config env p h = Some (Returned (h1, c1)) →
  ∃ j, denotes h1 c1 = Some j.
Proof.
  intros Hd Hl.
  destruct (open_and_load env
              (match p with None => adjacent_config env | Some q => q end))
    as [overrides|e] eqn:Hopen.
  - destruct (update_pairs env overrides) as [fields|e] eqn:Hupd.
    + destruct (load_config_override env p h overrides fields Hd Hopen Hupd)
        as (h1' & c1' & Hl' & Hden).
      rewrite Hl in Hl'. injection Hl' as <- <-. eauto.
    + unfold load_config in Hl. rewrite deepcopy_defaults in Hl by done.
      destruct (alloc DEFAULT_CONFIG_literal h) as [h0 c].
      by rewrite Hopen, Hupd in Hl.
  - assert (e = FileNotFoundError ∨ e = JSONDecodeError) as He.
    { unfold load_config in Hl. rewrite deepcopy_defaults in Hl by done.
      destruct (alloc DEFAULT_CONFIG_literal h) as [h0 c].
      rewrite Hopen in Hl. destruct e; [by left | by right | done]. }
    destruct (load_config_default env p h Hd) as [Hl' Hden].
    { destruct He as [-> | ->]; [by left | by right]. }
    assert (Heq : alloc DEFAULT_CONFIG_literal h = (h1, c1)) by congruence.
    rewrite Heq in Hden. cbn [fst snd] in Hden. eauto.
Qed.




(** C9.  Two resolutions in a row, whatever the paths and the files.  The
    resolution step changes no object that existed before it, so the default
    configuration is never mutated and still denotes the literal of the
    script.  Each result reads as a tree, the first one the same after the
    second resolution.  The collections held by the fields of each result are
    objects the call itself made.  Hence replacing the contents of a
    collection-valued field of one result (appending to it, say) changes
    neither what the other result reads as nor the defaults. *)
Theorem load_config_isolation (env : environment) (p1 p2 : option str)
    (h h1 h2 : list obj) (c1 c2 : val) :
  defaults_intact h →
  load_config env p1 h = Some (Returned (h1, c1)) →
  load_config env p2 h1 = Some (Returned (h2, c2)) →
  agree_on 0 (length h) h h1 ∧ agree_on 0 (length h1) h1 h2
  ∧ defaults_intact h1 ∧ defaults_intact h2
  ∧ denotes h2 DEFAULT_CONFIG = Some DEFAULT_CONFIG_literal
  ∧ (∀ k l, field_ref h2 c1 k l → length h ≤ l < length h1)
  ∧ (∀ k l, field_ref h2 c2 k l → length h1 ≤ l < length h2)
  ∧ ∃ j1 j2,
      denotes h1 c1 = Some j1 ∧ denotes h2 c1 = Some j1 ∧ denotes h2 c2 = Some j2
      ∧ (∀ k l o, field_ref h2 c1 k l →
           denotes (<[l := o]> h2) c2 = Some j2
           ∧ defaults_intact (<[l := o]> h2)
           ∧ denotes (<[l := o]> h2) DEFAULT_CONFIG = Some DEFAULT_CONFIG_literal)
      ∧ (∀ k l o, field_ref h2 c2 k l →
           denotes (<[l := o]> h2) c1 = Some j1
           ∧ defaults_intact (<[l := o]> h2)
           ∧ denotes (<[l := o]> h2) DEFAULT_CONFIG = Some DEFAULT_CONFIG_literal).
Proof.
  intros Hd Hl1 Hl2.
  pose proof (defaults_intact_length h Hd) as Hlen0.
  destruct (load_config_readable env p1 h h1 c1 Hd Hl1) as [j1 Hj1].
  destruct (load_config_spec env p1 h h1 c1 Hd Hl1)
    as (Hlen1 & Hag1 & Hc1 & Hv1 & [lc1 ->]).
  assert (Hd1 : defaults_intact h1).
  { eapply agree_on_trans; [exact Hd|]. eapply agree_on_weaken; [| |exact Hag1]; lia. }
  destruct (load_config_readable env p2 h1 h2 c2 Hd1 Hl2) as [j2 Hj2].
  destruct (load_config_spec env p2 h1 h2 c2 Hd1 Hl2)
    as (Hlen2 & Hag2 & Hc2 & Hv2 & [lc2 ->]).
  assert (Hd2 : defaults_intact h2).
  { eapply agree_on_trans; [exact Hd1|].
    eapply agree_on_weaken; [| |exact Hag2]; lia. }
  assert (Hf1 : ∀ k l, field_ref h2 (VRef lc1) k l → length h ≤ l < length h1).
  { intros k l (c & fields & [= <-] & Hlook & Hget). simpl in Hv1.
    rewrite (Hag2 lc1) in Hlook by lia.
    destruct Hc1 as [_ Hc1]. specialize (Hc1 lc1 _ Hv1 Hlook). simpl in Hc1.
    clear -Hc1 Hget. induction Hc1 as [|[k' v'] fs Hkv _ IH]; [done|].
    simpl in *. destruct (str_eqb k' k); [|by apply IH].
    injection Hget as ->. done. }
  assert (Hf2 : ∀ k l, field_ref h2 (VRef lc2) k l → length h1 ≤ l < length h2).
  { intros k l (c & fields & [= <-] & Hlook & Hget). simpl in Hv2.
    destruct Hc2 as [_ Hc2]. specialize (Hc2 lc2 _ Hv2 Hlook). simpl in Hc2.
    clear -Hc2 Hget. induction Hc2 as [|[k' v'] fs Hkv _ IH]; [done|].
    simpl in *. destruct (str_eqb k' k); [|by apply IH].
    injection Hget as ->. done. }
  assert (Hmut : ∀ l o, length module_heap ≤ l →
    defaults_intact (<[l := o]> h2)).
  { intros l o Hl. eapply agree_on_trans; [exact Hd2|].
    apply agree_on_insert. lia. }
  assert (Hc1' : closed_region (length h) (length h1) h2).
  { destruct Hc1 as [Hb Hc1]. split; [lia|].
    intros l' o' Hl' Hlook. rewrite (Hag2 l') in Hlook by lia. by eapply Hc1. }
  assert (Hj1' : denotes h2 (VRef lc1) = Some j1).
  { unfold denotes in *.
    rewrite (read_frame (length h) (length h1) h1); [|done..|].
    - by apply (read_fuel_mono h1 (length h1)).
    - eapply agree_on_weaken; [| |exact Hag2]; lia. }
  split_and!; try done.
  - by apply defaults_denote.
  - exists j1, j2. split_and!; try done.
    + intros k l o Hf. pose proof (Hf1 k l Hf) as Hl. split_and!.
      * unfold denotes in *. rewrite length_insert.
        rewrite (read_frame (length h1) (length h2) h2); [done..|].
        apply agree_on_insert. lia.
      * apply Hmut. lia.
      * apply defaults_denote, Hmut. lia.
    + intros k l o Hf. pose proof (Hf2 k l Hf) as Hl. split_and!.
      * unfold denotes in *. rewrite length_insert.
        rewrite (read_frame (length h) (length h1) h2); [done..|].
        apply agree_on_insert. lia.
      * apply Hmut. lia.
      * apply defaults_denote, Hmut. lia.
Qed.

(** The isolation theorem at the two resolutions [first_resolution] and
    [second_resolution]. *)
Lemma load_config_isolation_witness :
  defaults_intact (heap_of second_resolution)
  ∧ ∃ j2, denotes (heap_of second_resolution) (cfg_of second_resolution) = Some j2
    ∧ ∀ k l o,
        field_ref (heap_of second_resolution) (cfg_of first_resolution) k l →
        denotes (<[l := o]> (heap_of second_resolution)) (cfg_of second_resolution)
        = Some j2.
Proof.
  destruct (load_config_isolation adjacent_override None (Some nonexistent_path)
              module_heap (heap_of first_resolution) (heap_of second_resolution)
              (cfg_of first_resolution) (cfg_of second_resolution))
    as (_ & _ & _ & Hd2 & _ & _ & _ & j1 & j2 & _ & _ & Hj2 & Hmut & _).
  - intros l Hl. reflexivity.
  - vm_compute. reflexivity.
  - vm_compute. reflexivity.
  - split; [exact Hd2|]. exists j2. split; [exact Hj2|].
    intros k l o Hf. by apply (Hmut k l o).
Defined.

(** The regression test of the suite, on the model: after appending to
    [min_scn_categories] of the first result, the second result and the
    defaults read as before. *)
Example injected_category_stays_local :
  let h2 := heap_of second_resolution in
  field_ref h2 (cfg_of first_resolution) (lit "min_scn_categories") 9
  ∧ ∃ items, h2 !! 9 = Some (OList items)
    ∧ let h3 := <[9 := OList (items ++ [VStr (lit "INJECTED")])]> h2 in
      denotes h3 (cfg_of first_resolution) ≠ denotes h2 (cfg_of first_resolution)
      ∧ denotes h3 (cfg_of second_resolution) = Some DEFAULT_CONFIG_literal
      ∧ denotes h3 DEFAULT_CONFIG = Some DEFAULT_CONFIG_literal.
Proof.
  cbn zeta. split.
  - eexists _, _. split_and!; [reflexivity | vm_compute; reflexivity | vm_compute; reflexivity].
  - eexists. split; [vm_compute; reflexivity|]. split_and!.
    + vm_compute. discriminate.
    + vm_compute. reflexivity.
    + vm_compute. reflexivity.
Qed.

(** The slicer theorem at a document with a nested sub-section. *)
Lemma extract_section_span_witness :
  _extract_section (U := ascii_db) sliced_document (contains (lit "Acceptance"))
  = Some (lit "## 11. Acceptance" ++ [10%N] ++ lit "must pass" ++ [10%N]
          ++ lit "### 11.1 Cases" ++ [10%N] ++ lit "SCN-001").
Proof.
  apply (proj1 (proj2 (extract_section_span (U := ascii_db) sliced_document
                  (contains (lit "Acceptance"))))
           [lit "intro"] (lit "## 11. Acceptance")
           [lit "  must pass"; lit "### 11.1 Cases"; lit "SCN-001"]
           [lit "## 12. Next"; lit "tail"] 2 (lit "11. Acceptance")).
  - reflexivity.
  - constructor; [|constructor].
    intros (lv & t & H & _). vm_compute in H. discriminate.
  - reflexivity.
  - reflexivity.
  - repeat constructor.
    + intros (lv & t & H & _). vm_compute in H. discriminate.
    + intros (lv & t & H & Hle). vm_compute in H. injection H as <- <-. lia.
    + intros (lv & t & H & _). vm_compute in H. discriminate.
  - right. eexists _, _. split; [reflexivity|].
    exists 2, (lit "12. Next"). split; [reflexivity | lia].
Defined.


(** * Further properties of the script *)

(** ** The identifiers extracted *)

Section ExtractSound.
Context {U : UnicodeDB}.

Lemma generic_match_occurs text g :
  g ∈ finditer ID_PATTERN text →
  occurs_in (generic_id g) text ∧ generic_form (generic_id g).
Proof.
  intros Hg. apply finditer_elem in Hg as (_ & Hp & _).
  destruct (m_groups g) as [a ds] eqn:Hgr. unfold generic_id. rewrite Hgr.
  apply ID_PATTERN_Some in Hp as (_ & Ha & Hds & Hlen & _ & rest & Hdrop & _).
  split.
  - exists (take (m_start g) text), rest.
    rewrite <- (take_drop (m_start g) text) at 1. rewrite Hdrop. simpl.
    by rewrite <- !app_assoc.
  - by exists a, ds.
Qed.

Lemma domain_match_occurs text d :
  d ∈ finditer DOMAIN_HR_PATTERN text →
  occurs_in (domain_id d) text ∧ domain_form (domain_id d).
Proof.
  intros Hd. apply finditer_elem in Hd as (_ & Hp & _).
  destruct (m_groups d) as [dom ds] eqn:Hgr. unfold domain_id. rewrite Hgr.
  apply DOMAIN_HR_PATTERN_Some in Hp
    as (_ & Hdom & Hn & Hds & Hlen & _ & rest & Hdrop & _).
  split.
  - exists (take (m_start d) text), rest.
    rewrite <- (take_drop (m_start d) text) at 1. rewrite Hdrop. simpl.
    by rewrite <- !app_assoc.
  - exists dom, ds. split_and!; try done. intros ->. simpl in Hn. lia.
Qed.

(** X1.  [extract_ids] invents nothing: every identifier it returns occurs
    verbatim in the text and has one of the two canonical forms, a kind or an
    upper-case domain with [-HR], a hyphen and at least three digits. *)
Theorem extract_ids_sound (text x : str) :
  x ∈ extract_ids text →
  occurs_in x text ∧ (generic_form x ∨ domain_form x).
Proof.
  intros Hx. apply extract_ids_elem in Hx as [(g & [Hg _] & <-) | (d & Hd & <-)].
  - destruct (generic_match_occurs text g Hg). eauto.
  - destruct (domain_match_occurs text d Hd). eauto.
Qed.

End ExtractSound.

Lemma extract_ids_sound_witness :
  occurs_in (lit "DEC-001") (lit "see DEC-001.")
  ∧ (generic_form (U := ascii_db) (lit "DEC-001")
     ∨ domain_form (U := ascii_db) (lit "DEC-001")).
Proof.
  apply (extract_ids_sound (U := ascii_db) (lit "see DEC-001.") (lit "DEC-001")).
  vm_compute. reflexivity.
Defined.

(** A loop over a pair of sets, when each iteration adds to each set the
    elements a relation names. *)
Lemma fold_pair_spec {B} (step : gset str * gset str → B → gset str * gset str)
    (inA inD : B → str → Prop) (l : list B) (st : gset str * gset str) (x : str) :
  (∀ st m y, (y ∈ (step st m).2 ↔ y ∈ st.2 ∨ inA m y)
             ∧ (y ∈ (step st m).1 ↔ y ∈ st.1 ∨ inD m y)) →
  (x ∈ (fold_left step l st).2 ↔ x ∈ st.2 ∨ ∃ m, m ∈ l ∧ inA m x)
  ∧ (x ∈ (fold_left step l st).1 ↔ x ∈ st.1 ∨ ∃ m, m ∈ l ∧ inD m x).
Proof.
  intros Hstep. revert st. induction l as [|m l IH]; intros st; simpl.
  - split; (split; [by left|]); intros [?|(m & Hm & _)]; try done;
      by apply elem_of_nil in Hm.
  - destruct (IH (step st m)) as [IHa IHd].
    destruct (Hstep st m x) as [Ha Hd].
    rewrite IHa, IHd, Ha, Hd. split; split.
    + intros [[?|?]|(m' & ? & ?)]; [by left | right | right].
      * exists m. split; [left | done].
      * exists m'. split; [by right | done].
    + intros [?|(m' & Hm' & ?)]; [by left; left|].
      apply elem_of_cons in Hm' as [-> | ?]; [by left; right|].
      right. by exists m'.
    + intros [[?|?]|(m' & ? & ?)]; [by left | right | right].
      * exists m. split; [left | done].
      * exists m'. split; [by right | done].
    + intros [?|(m' & Hm' & ?)]; [by left; left|].
      apply elem_of_cons in Hm' as [-> | ?]; [by left; right|].
      right. by exists m'.
Qed.

Section ExtractDefinedSpec.
Context {U : UnicodeDB}.

(** X2.  What [extract_defined_ids] returns, line by line: an identifier is
    among all identifiers seen exactly when [extract_ids] finds it in some
    trimmed line, and it is among the defined ones exactly when, in such a
    line, it stands at the start, after a leading marker, or at the start of a
    table row. *)
Theorem extract_defined_ids_by_line (text x : str) :
  (x ∈ (extract_defined_ids text).2
   ↔ ∃ line, line ∈ split_lines text ∧ x ∈ extract_ids (strip line))
  ∧ (x ∈ (extract_defined_ids text).1
     ↔ ∃ line, line ∈ split_lines text ∧ x ∈ extract_ids (strip line)
               ∧ is_definition x (strip line) = true).
Proof.
  unfold extract_defined_ids.
  match goal with |- context [fold_left ?f (split_lines text) _] =>
    pose proof (fold_pair_spec f
      (λ line y, y ∈ extract_ids (strip line))
      (λ line y, y ∈ extract_ids (strip line) ∧ is_definition y (strip line) = true)
      (split_lines text) (∅, ∅) x) as Hfold
  end.
  destruct Hfold as [Ha Hd].
  - clear x. intros [d a] line y.
    set (stripped := strip line).
    match goal with |- context [fold_left ?f2 (finditer DOMAIN_HR_PATTERN stripped)
                                  (fold_left ?f1 (finditer ID_PATTERN stripped) _)] =>
      destruct (fold_pair_spec f1
        (λ m z, _is_inside_domain_hr (m_start m) (m_end m) (_domain_hr_spans stripped)
                  = false ∧ generic_id m = z)
        (λ m z, _is_inside_domain_hr (m_start m) (m_end m) (_domain_hr_spans stripped)
                  = false ∧ generic_id m = z ∧ is_definition z stripped = true)
        (finditer ID_PATTERN stripped) (d, a) y) as [Ha1 Hd1];
      [| destruct (fold_pair_spec f2
           (λ m z, domain_id m = z)
           (λ m z, domain_id m = z ∧ is_definition z stripped = true)
           (finditer DOMAIN_HR_PATTERN stripped)
           (fold_left f1 (finditer ID_PATTERN stripped) (d, a)) y) as [Ha2 Hd2] ]
    end.
    + intros [d' a'] m z. cbn [fst snd].
      destruct (_is_inside_domain_hr _ _ _) eqn:Hin; cbn [fst snd].
      * split; (split; [by left | intros [?|[? ?]]; done]).
      * cbv zeta.
        destruct (is_definition (generic_id m) stripped) eqn:Hdef; cbn [fst snd];
          rewrite ?elem_of_union, ?elem_of_singleton; split; split.
        -- intros [? | ->]; [by left | by right].
        -- intros [?|[_ <-]]; [by left | by right].
        -- intros [? | ->]; [by left | by right].
        -- intros [?|(_ & <- & _)]; [by left | by right].
        -- intros [? | ->]; [by left | by right].
        -- intros [?|[_ <-]]; [by left | by right].
        -- by left.
        -- intros [?|(_ & <- & ?)]; [done | congruence].
    + clear Ha1 Hd1. intros [d' a'] m z. cbv zeta.
      destruct (is_definition (domain_id m) stripped) eqn:Hdef; cbn [fst snd];
        rewrite ?elem_of_union, ?elem_of_singleton; split; split.
      * intros [? | ->]; [by left | by right].
      * intros [? | <-]; [by left | by right].
      * intros [? | ->]; [by left | by right].
      * intros [?|[<- _]]; [by left | by right].
      * intros [? | ->]; [by left | by right].
      * intros [? | <-]; [by left | by right].
      * by left.
      * intros [?|[<- ?]]; [done | congruence].
    + cbn [fst snd] in *. rewrite Ha2, Hd2, Ha1, Hd1. clear Ha1 Ha2 Hd1 Hd2.
      rewrite (extract_ids_elem stripped y). unfold counted. split; split.
      * intros [[?|(m & ? & ? & ?)]|(m & ? & ?)];
          [by left | right; left; by exists m | right; right; by exists m].
      * intros [?|[(g & [? ?] & ?)|(m & ? & ?)]];
          [by left; left | left; right; by exists g | right; by exists m].
      * intros [[?|(m & ? & ? & ? & ?)]|(m & ? & ? & ?)];
          [by left | right; split; [left; by exists m | done]
          | right; split; [right; by exists m | done]].
      * intros [?|[[(g & [? ?] & ?)|(m & ? & ?)] ?]];
          [by left; left | left; right; by exists g | right; by exists m].
  - cbn [fst snd] in Ha, Hd. rewrite Ha, Hd. clear Ha Hd. split; split.
    + intros [Hx|?]; [by apply elem_of_empty in Hx | done].
    + by right.
    + intros [Hx|?]; [by apply elem_of_empty in Hx | done].
    + by right.
Qed.

End ExtractDefinedSpec.

(** ** The verdict of check 2 *)

Lemma passed_fold_fail {B} (f : B → issue) (l : list B) (r : CheckResult) :
  passed (fold_left (λ r d, fail r (f d)) l r) = passed r && bool_decide (l = []).
Proof.
  revert r. induction l as [|d l IH]; intros r; simpl.
  - by rewrite andb_true_r.
  - rewrite IH. simpl. by rewrite andb_false_r.
Qed.

Lemma duplicate_loop_passed (d : list (str * nat)) (r : CheckResult) :
  passed (fold_left
            (λ r '(id_str, count),
               if 1 <? count then fail r (DuplicateIdDefinition id_str count) else r)
            d r) = true
  ↔ passed r = true ∧ ∀ id c, (id, c) ∈ d → c ≤ 1.
Proof.
  revert r. induction d as [|[x n] d IH]; intros r; simpl.
  - split; [|by intros [? _]]. intros Hp. split; [done|].
    intros id c Hin. by apply elem_of_nil in Hin.
  - rewrite IH. destruct (1 <? n) eqn:E.
    + apply Nat.ltb_lt in E. simpl. split; [by intros [? _]|].
      intros [_ H]. specialize (H x n ltac:(left)). lia.
    + apply Nat.ltb_ge in E. split.
      * intros [Hp H]. split; [done|]. intros id c Hin.
        apply elem_of_cons in Hin as [[= -> ->] | Hin]; [done | by eapply H].
      * intros [Hp H]. split; [done|]. intros id c Hin. eapply H. by right.
Qed.

Lemma duplicate_loop_consistent (d : list (str * nat)) (r : CheckResult) :
  (passed r = true ↔ issues r = []) →
  let r' := fold_left
              (λ r '(id_str, count),
                 if 1 <? count then fail r (DuplicateIdDefinition id_str count) else r)
              d r in
  passed r' = true ↔ issues r' = [].
Proof.
  revert r. induction d as [|[x n] d IH]; intros r Hr; simpl; [done|].
  apply IH. destruct (1 <? n); [|done]. simpl.
  split; [done|]. intros H. by apply app_eq_nil in H as [_ ?].
Qed.

Section Check2Verdict.
Context {U : UnicodeDB}.

(** X3.  Check 2 passes exactly when it reports no issue, and that is exactly
    when no identifier is counted as defined more than once and every
    identifier seen in the text is defined somewhere. *)
Theorem check_2_passes_iff (rfc : str) :
  (passed (check_2_id_integrity rfc) = true
   ↔ issues (check_2_id_integrity rfc) = [])
  ∧ (passed (check_2_id_integrity rfc) = true
     ↔ (∀ id c, (id, c) ∈ id_def_count rfc → c ≤ 1)
       ∧ (extract_defined_ids rfc).2 ⊆ (extract_defined_ids rfc).1).
Proof.
  unfold check_2_id_integrity.
  destruct (extract_defined_ids rfc) as [defined all_ids]. cbn [fst snd].
  replace (all_ids ∖ defined ∖ defined) with (all_ids ∖ defined) by set_solver.
  set (r0 := new_result _ Hard).
  pose proof (duplicate_loop_passed (id_def_count rfc) r0) as Hp1.
  pose proof (duplicate_loop_consistent (id_def_count rfc) r0) as Hc1.
  cbn zeta in Hc1.
  set (r1 := fold_left _ (id_def_count rfc) r0) in *.
  assert (Hc1' : passed r1 = true ↔ issues r1 = []) by (by apply Hc1).
  case_bool_decide as Hd.
  - assert (Hne : take 10 (sorted (all_ids ∖ defined)) ≠ []).
    { intros Hnil. apply (f_equal length) in Hnil.
      rewrite length_take, length_sorted in Hnil. cbn [length] in Hnil.
      assert (size (all_ids ∖ defined) = 0) as Hz by lia.
      apply size_empty_iff in Hz. by apply leibniz_equiv in Hz. }
    rewrite passed_fold_fail, issues_fold_fail.
    rewrite bool_decide_eq_false_2 by done. rewrite andb_false_r.
    split; (split; [done|]).
    + intros H. apply app_eq_nil in H as [_ H].
      by apply fmap_nil_inv in H.
    + intros [_ Hsub]. destruct Hd. set_solver.
  - assert (all_ids ∖ defined = ∅) as Hempty
      by (destruct (decide (all_ids ∖ defined = ∅)); done).
    split; [done|]. rewrite Hp1. split.
    + intros [_ H]. split; [done|]. set_solver.
    + intros [H _]. done.
Qed.

End Check2Verdict.

(** ** Duplicate definitions at the start of lines *)

Section MatchAtStart.
Context {U : UnicodeDB}.

Lemma first_alt_kinds {A} (k : str → str → option A) a rest :
  a ∈ kinds → first_alt kinds k (a ++ rest) = k a rest.
Proof.
  unfold kinds. intros H.
  repeat (apply elem_of_cons in H as [-> | H];
          [vm_compute first_alt; by destruct (k _ rest)|]).
  by apply elem_of_nil in H.
Qed.

Lemma kinds_head_word a rest :
  a ∈ kinds → opt_word (head (a ++ rest)) = true.
Proof.
  unfold kinds. intros H.
  repeat (apply elem_of_cons in H as [-> | H]; [done|]).
  by apply elem_of_nil in H.
Qed.

(** A well-formed generic identifier followed by no word character is matched
    where it stands, when no word character precedes it. *)
Lemma ID_PATTERN_complete prev a ds rest :
  opt_word prev = false → a ∈ kinds →
  Forall (λ c, is_digit c = true) ds → 3 ≤ length ds →
  opt_word (head rest) = false →
  ID_PATTERN prev (a ++ lit "-" ++ ds ++ rest)
  = Some (length a + 1 + length ds, (a, ds)).
Proof.
  intros Hprev Ha Hds Hlen Hrest. unfold ID_PATTERN.
  unfold word_boundary. rewrite Hprev, (kinds_head_word a _ Ha). simpl xorb.
  cbv iota. rewrite first_alt_kinds by done. simpl.
  rewrite number_run by done. by rewrite take_app_length.
Qed.

Lemma DOMAIN_HR_PATTERN_complete prev dom ds rest :
  opt_word prev = false → dom ≠ [] →
  Forall (λ c, is_upper c = true) dom →
  Forall (λ c, is_digit c = true) ds → 3 ≤ length ds →
  opt_word (head rest) = false →
  DOMAIN_HR_PATTERN prev (dom ++ lit "-HR-" ++ ds ++ rest)
  = Some (length dom + 4 + length ds, (dom, ds)).
Proof.
  intros Hprev Hne Hdom Hds Hlen Hrest. unfold DOMAIN_HR_PATTERN.
  assert (opt_word (head (dom ++ lit "-HR-" ++ ds ++ rest)) = true) as Hw.
  { destruct dom as [|c dom]; [done|]. simpl.
    apply Forall_cons in Hdom as [Hc _]. by apply is_upper_word. }
  unfold word_boundary. rewrite Hprev, Hw. simpl xorb. cbv iota.
  apply greedy_run; [done | by intros c [= <-] |].
  cbv beta. rewrite startswith_app, Nat.add_0_l.
  replace (1 <=? length dom) with true
    by (symmetry; apply Nat.leb_le; destruct dom; [done | simpl; lia]).
  cbv iota zeta. rewrite andb_true_l.
  change (drop 4 (lit "-HR-" ++ ds ++ rest)) with (ds ++ rest).
  rewrite number_run by done. by rewrite !take_app_length.
Qed.

(** The first match [finditer] reports, when the pattern matches at the
    start of the text. *)
Lemma finditer_head p (text : str) len g :
  text ≠ [] → p None text = Some (len, g) →
  {| m_start := 0; m_end := len; m_groups := g |} ∈ finditer p text.
Proof.
  intros Hne Hp. unfold finditer. destruct text as [|c tl]; [done|].
  simpl. rewrite Hp. left.
Qed.

End MatchAtStart.

Lemma count_of_dict_incr (d : list (str * nat)) k x :
  count_of (dict_incr d k) x
  = count_of d x + (if bool_decide (k = x) then 1 else 0).
Proof.
  unfold count_of. induction d as [|[k' c] d IH]; simpl.
  - unfold str_eqb. case_bool_decide; simpl; lia.
  - unfold str_eqb in *.
    destruct (decide (k' = k)) as [->|Hne].
    + rewrite (bool_decide_eq_true_2 (k = k)) by done. simpl.
      unfold str_eqb. case_bool_decide; simpl; lia.
    + rewrite (bool_decide_eq_false_2 (k' = k)) by done. simpl.
      unfold str_eqb. destruct (decide (k' = x)) as [->|Hne2].
      * rewrite (bool_decide_eq_true_2 (x = x)) by done.
        rewrite (bool_decide_eq_false_2 (k = x)) by done. simpl. lia.
      * rewrite (bool_decide_eq_false_2 (k' = x)) by done. exact IH.
Qed.

Lemma dict_get_elem {V} (d : list (str * V)) k v :
  dict_get d k = Some v → (k, v) ∈ d.
Proof.
  induction d as [|[k' v'] d IH]; simpl; [done|].
  unfold str_eqb. case_bool_decide as E.
  - intros [= <-]. subst. left.
  - intros H. right. by apply IH.
Qed.

(** A counting loop never lowers a count, and raises it at an iteration that
    counts the key. *)
Lemma fold_count_mono {B} (f : list (str * nat) → B → list (str * nat)) x l cnt :
  (∀ c m, count_of c x ≤ count_of (f c m) x) →
  count_of cnt x ≤ count_of (fold_left f l cnt) x.
Proof.
  intros Hmono. revert cnt. induction l as [|m l IH]; intros cnt; simpl; [done|].
  etrans; [apply (Hmono cnt m) | apply IH].
Qed.

Lemma fold_count_hit {B} (f : list (str * nat) → B → list (str * nat)) x l cnt m0 :
  (∀ c m, count_of c x ≤ count_of (f c m) x) →
  m0 ∈ l → (∀ c, count_of c x + 1 ≤ count_of (f c m0) x) →
  count_of cnt x + 1 ≤ count_of (fold_left f l cnt) x.
Proof.
  intros Hmono Hin Hhit. revert cnt.
  induction l as [|m l IH]; intros cnt; [by apply elem_of_nil in Hin|].
  simpl. apply elem_of_cons in Hin as [<- | Hin].
  - etrans; [apply Hhit|]. by apply fold_count_mono.
  - etrans; [|apply IH; done]. pose proof (Hmono cnt m). lia.
Qed.

Lemma duplicate_loop_reports (d : list (str * nat)) (r : CheckResult) x c :
  (x, c) ∈ d → 1 < c →
  DuplicateIdDefinition x c
  ∈ issues (fold_left
       (λ r '(id_str, count),
          if 1 <? count then fail r (DuplicateIdDefinition id_str count) else r)
       d r).
Proof.
  intros Hin Hc. revert r.
  assert (Hkeep : ∀ d r i,
    i ∈ issues r →
    i ∈ issues (fold_left
       (λ r '(id_str, count),
          if 1 <? count then fail r (DuplicateIdDefinition id_str count) else r)
       d r)).
  { clear. induction d as [|[y n] d IH]; intros r i Hi; simpl; [done|].
    apply IH. destruct (1 <? n); [|done]. simpl. apply elem_of_app. by left. }
  induction d as [|[y n] d IH]; intros r; [by apply elem_of_nil in Hin|].
  simpl. apply elem_of_cons in Hin as [[= <- <-] | Hin]; [|by apply IH].
  apply Hkeep. replace (1 <? c) with true by (symmetry; by apply Nat.ltb_lt).
  simpl. apply elem_of_app. right. left.
Qed.

Section LineStartDuplicates.
Context {U : UnicodeDB}.

(** A generic match at the start of a line lies inside no domain-prefixed
    match. *)
Lemma generic_at_start_not_inside (t : str) m :
  m ∈ finditer ID_PATTERN t → m_start m = 0 →
  _is_inside_domain_hr (m_start m) (m_end m) (_domain_hr_spans t) = false.
Proof.
  intros Hm H0. apply not_true_iff_false. intros Hin.
  apply is_inside_domain_hr_true in Hin as (d & Hd & Hs & He).
  apply ID_PATTERN_shape in Hm as [(Ha & Hlit & Hhyp & Hdig & Hn & _ & _) _].
  apply DOMAIN_HR_PATTERN_shape in Hd as [(Hdn & Hup & Hlit2 & Hdig2 & _) _].
  rewrite H0 in *. assert (m_start d = 0) as Hd0 by lia. rewrite Hd0 in *.
  set (a := (m_groups m).1) in *. set (dn := length (m_groups d).1) in *.
  simpl in *.
  pose proof (literal_at_pos t dn (lit "-HR-") dn 45%N Hlit2 (Nat.le_refl _)) as Hh1.
  rewrite Nat.sub_diag in Hh1. specialize (Hh1 eq_refl).
  destruct (decide (length a < dn)) as [Hlt|Hge].
  - destruct (run_at_pos is_upper t 0 dn (length a) Hup) as (c & Hc & Hcu); [lia|].
    rewrite Hc in Hhyp. injection Hhyp as ->. done.
  - destruct (decide (dn < length a)) as [Hlt|Hge'].
    + destruct (kind_letter_at t 0 a dn Ha Hlit) as (c & Hc & Hcu); [lia|].
      rewrite Hc in Hh1. injection Hh1 as ->. done.
    + assert (length a = dn) as Heq by lia.
      destruct (run_at_pos is_digit t (length a + 1) (length (m_groups m).2)
                  (length a + 1) Hdig) as (c & Hc & Hcd); [lia|].
      pose proof (literal_at_pos t dn (lit "-HR-") (dn + 1) 72%N Hlit2) as Hh2.
      rewrite Heq in Hc. rewrite Hh2 in Hc; [|lia|].
      * injection Hc as <-. unfold is_digit in Hcd. done.
      * by replace (dn + 1 - dn) with 1 by lia.
Qed.

End LineStartDuplicates.

Section DuplicateDetection.
Context {U : UnicodeDB}.

Lemma id_def_count_lines rfc :
  id_def_count rfc = fold_left count_line (split_lines rfc) [].
Proof. reflexivity. Qed.

Lemma count_line_mono cnt line x :
  count_of cnt x ≤ count_of (count_line cnt line) x.
Proof.
  unfold count_line. cbv zeta.
  etrans; [|apply fold_count_mono].
  - apply fold_count_mono. intros c m.
    destruct (_is_inside_domain_hr _ _ _); [done|].
    destruct (startswith _ _); [|done]. rewrite count_of_dict_incr. lia.
  - intros c m. destruct (_ || _); [|done]. rewrite count_of_dict_incr. lia.
Qed.

Lemma count_line_hit_generic cnt line a ds rest :
  a ∈ kinds → Forall (λ c, is_digit c = true) ds → 3 ≤ length ds →
  strip line = a ++ lit "-" ++ ds ++ rest → opt_word (head rest) = false →
  count_of cnt (a ++ lit "-" ++ ds) + 1
  ≤ count_of (count_line cnt line) (a ++ lit "-" ++ ds).
Proof.
  intros Ha Hds Hlen Hline Hrest. unfold count_line. cbv zeta.
  set (stripped := strip line) in *. set (x := a ++ lit "-" ++ ds).
  assert (Hx : stripped = x ++ rest)
    by (rewrite Hline; unfold x; by rewrite <- !app_assoc).
  assert (Hsw : startswith x stripped = true)
    by (rewrite Hx; apply startswith_app).
  assert (Hne : stripped ≠ []).
  { rewrite Hline. apply kinds_facts in Ha as [_ ?]. by destruct a. }
  pose proof (ID_PATTERN_complete None a ds rest eq_refl Ha Hds Hlen Hrest) as Hp.
  rewrite <- Hline in Hp.
  pose proof (finditer_head ID_PATTERN stripped _ _ Hne Hp) as Hm.
  etrans; [|apply fold_count_mono].
  - eapply fold_count_hit; [|exact Hm|].
    + intros c m. destruct (_is_inside_domain_hr _ _ _); [done|].
      destruct (startswith (generic_id m) stripped); [|done]. rewrite count_of_dict_incr. lia.
    + intros c. cbv beta.
      rewrite (generic_at_start_not_inside stripped _ Hm eq_refl).
      change (generic_id _) with x. rewrite Hsw.
      rewrite count_of_dict_incr, bool_decide_eq_true_2 by done. lia.
  - intros c m. destruct (_ || _); [|done]. rewrite count_of_dict_incr. lia.
Qed.

Lemma count_line_hit_domain cnt line dom ds rest :
  dom ≠ [] → Forall (λ c, is_upper c = true) dom →
  Forall (λ c, is_digit c = true) ds → 3 ≤ length ds →
  strip line = dom ++ lit "-HR-" ++ ds ++ rest → opt_word (head rest) = false →
  count_of cnt (dom ++ lit "-HR-" ++ ds) + 1
  ≤ count_of (count_line cnt line) (dom ++ lit "-HR-" ++ ds).
Proof.
  intros Hne Hdom Hds Hlen Hline Hrest. unfold count_line. cbv zeta.
  set (stripped := strip line) in *. set (x := dom ++ lit "-HR-" ++ ds).
  assert (Hx : stripped = x ++ rest)
    by (rewrite Hline; unfold x; by rewrite <- !app_assoc).
  assert (Hsw : startswith x stripped = true)
    by (rewrite Hx; apply startswith_app).
  assert (Hne' : stripped ≠ []) by (rewrite Hline; by destruct dom).
  pose proof (DOMAIN_HR_PATTERN_complete None dom ds rest eq_refl Hne Hdom Hds
                Hlen Hrest) as Hp.
  rewrite <- Hline in Hp.
  pose proof (finditer_head DOMAIN_HR_PATTERN stripped _ _ Hne' Hp) as Hm.
  set (cnt1 := fold_left _ (finditer ID_PATTERN stripped) cnt).
  assert (Hmono : count_of cnt x ≤ count_of cnt1 x).
  { apply fold_count_mono. intros c m.
    destruct (_is_inside_domain_hr _ _ _); [done|].
    destruct (startswith (generic_id m) stripped); [|done]. rewrite count_of_dict_incr. lia. }
  etrans; [|eapply fold_count_hit; [|exact Hm|]].
  - apply Nat.add_le_mono_r. exact Hmono.
  - intros c m. destruct (_ || _); [|done]. rewrite count_of_dict_incr. lia.
  - intros c. cbv beta zeta. change (domain_id _) with x. rewrite Hsw.
    cbn [orb]. rewrite count_of_dict_incr, bool_decide_eq_true_2 by done. lia.
Qed.

Lemma count_line_hit cnt line x :
  generic_form x ∨ domain_form x → starts_line x (strip line) →
  count_of cnt x + 1 ≤ count_of (count_line cnt line) x.
Proof.
  intros Hform (rest & Hline & Hrest).
  destruct Hform as [(a & ds & Ha & Hds & Hlen & Hx)
                    | (dom & ds & Hne & Hdom & Hds & Hlen & Hx)]; subst x.
  - apply (count_line_hit_generic cnt line a ds rest); try done.
    by rewrite Hline, <- !app_assoc.
  - apply (count_line_hit_domain cnt line dom ds rest); try done.
    by rewrite Hline, <- !app_assoc.
Qed.

(** X4.  Duplicate detection at line starts.  When two lines of the document
    start, after trimming, with the same identifier as a whole token (generic
    or domain-prefixed), check 2 fails and reports a duplicate definition of
    that identifier with a count of at least two. *)
Theorem check_2_detects_line_start_duplicates (rfc x : str)
    (l1 l2 l3 : list str) (a b : str) :
  generic_form x ∨ domain_form x →
  split_lines rfc = l1 ++ a :: l2 ++ b :: l3 →
  starts_line x (strip a) → starts_line x (strip b) →
  passed (check_2_id_integrity rfc) = false
  ∧ ∃ c, 2 ≤ c ∧ DuplicateIdDefinition x c ∈ issues (check_2_id_integrity rfc).
Proof.
  intros Hform Hsplit Ha Hb.
  assert (Hcount : 2 ≤ count_of (id_def_count rfc) x).
  { rewrite id_def_count_lines, Hsplit.
    rewrite fold_left_app. cbn [fold_left]. rewrite fold_left_app. cbn [fold_left].
    set (c1 := fold_left count_line l1 []).
    set (c2 := fold_left count_line l2 (count_line c1 a)).
    pose proof (count_line_hit c1 a x Hform Ha) as H1.
    pose proof (fold_count_mono count_line x l2 (count_line c1 a)
                  (λ c m, count_line_mono c m x)) as H2.
    pose proof (count_line_hit c2 b x Hform Hb) as H3.
    pose proof (fold_count_mono count_line x l3 (count_line c2 b)
                  (λ c m, count_line_mono c m x)) as H4.
    fold c2 in H2. lia. }
  destruct (dict_get (id_def_count rfc) x) as [c|] eqn:Hget;
    [|unfold count_of in Hcount; rewrite Hget in Hcount; simpl in Hcount; lia].
  assert (Hc : 2 ≤ c)
    by (unfold count_of in Hcount; by rewrite Hget in Hcount).
  apply dict_get_elem in Hget.
  unfold check_2_id_integrity.
  destruct (extract_defined_ids rfc) as [defined all_ids].
  set (r1 := fold_left _ (id_def_count rfc) _).
  assert (Hin : DuplicateIdDefinition x c ∈ issues r1)
    by (apply duplicate_loop_reports; [done | lia]).
  assert (Hp : passed r1 = false).
  { apply not_true_iff_false. intros Hp.
    apply duplicate_loop_passed in Hp as [_ Hp]. specialize (Hp x c Hget). lia. }
  case_bool_decide.
  - rewrite passed_fold_fail, issues_fold_fail, Hp. split; [done|].
    exists c. split; [done|]. apply elem_of_app. by left.
  - split; [done|]. by exists c.
Qed.

End DuplicateDetection.

Lemma check_2_detects_line_start_duplicates_witness :
  passed (check_2_id_integrity (U := ascii_db) line_start_duplicate) = false
  ∧ ∃ c, 2 ≤ c
         ∧ DuplicateIdDefinition (lit "DEC-001") c
           ∈ issues (check_2_id_integrity (U := ascii_db) line_start_duplicate).
Proof.
  apply (check_2_detects_line_start_duplicates (U := ascii_db)
           line_start_duplicate (lit "DEC-001")
           [] [lit "text"] [] (lit "DEC-001: choose plan A")
           (lit "  DEC-001: choose plan B")).
  - left. exists (lit "DEC"), (lit "001"). split_and!.
    + unfold kinds. right. left.
    + repeat constructor.
    + simpl. lia.
    + reflexivity.
  - reflexivity.
  - exists (lit ": choose plan A"). split; reflexivity.
  - exists (lit ": choose plan B"). split; reflexivity.
Defined.

(** ** The WHEN/THEN rule of check 5 *)

Section WhenThen.
Context {U : UnicodeDB}.

Lemma scn_loop_cons line lines i b id r :
  scn_loop (line :: lines) i b id r
  = scn_loop lines (S i) (scn_step (b, id) line).1 (scn_step (b, id) line).2
      (if (scn_step (b, id) line).1 && contains (lit "WHEN") (strip line)
          && contains (lit "THEN") (strip line)
       then fail r (WhenThenSameLine i (scn_step (b, id) line).2) else r).
Proof.
  cbn [scn_loop]. unfold scn_step. cbv zeta. cbn [fst snd].
  destruct (starts_with_id [lit "SCN"] (strip line)); [done|].
  by destruct (b && _).
Qed.

(** The first loop reports line [i] exactly when, after that line, the
    tracker is inside a scenario and the line holds both words. *)
Lemma scn_loop_spec lines i0 b id r i s :
  WhenThenSameLine i s ∈ issues (scn_loop lines i0 b id r)
  ↔ WhenThenSameLine i s ∈ issues r
    ∨ ∃ q line, i = i0 + q ∧ lines !! q = Some line
        ∧ fold_left scn_step (take (S q) lines) (b, id) = (true, s)
        ∧ when_and_then line.
Proof.
  revert i0 b id r. induction lines as [|l lines IH]; intros i0 b id r.
  - cbn [scn_loop]. split; [by left|]. intros [?|(q & line & _ & Hq & _)]; [done|].
    by rewrite lookup_nil in Hq.
  - rewrite scn_loop_cons, IH. clear IH.
    destruct (scn_step (b, id) l) as [b' id'] eqn:Hst. cbn [fst snd].
    split.
    + intros [Hr | (q & line & -> & Hq & Hf & Hw)].
      * destruct (b' && _ && _) eqn:Hc; [|by left].
        cbn [fail issues] in Hr. apply elem_of_app in Hr as [?|Hr]; [by left|].
        apply list_elem_of_singleton in Hr. injection Hr as -> ->.
        apply andb_prop in Hc as [Hc Ht]. apply andb_prop in Hc as [-> Hwh].
        right. exists 0, l. split_and!; [lia | done | | done].
        cbn [take fold_left]. done.
      * right. exists (S q), line. split_and!; [lia | done | | done].
        cbn [take fold_left]. by rewrite Hst.
    + intros [Hr | (q & line & -> & Hq & Hf & Hw)].
      * left. destruct (b' && _ && _); [|done].
        cbn [fail issues]. apply elem_of_app. by left.
      * destruct q as [|q].
        -- left. cbn [take fold_left] in Hf. rewrite Hst in Hf.
           injection Hf as -> ->. injection Hq as ->.
           destruct Hw as [-> ->]. cbn [andb fail issues].
           apply elem_of_app. right. rewrite Nat.add_0_r. left.
        -- right. exists q, line. split_and!; [lia | done | | done].
           cbn [take fold_left] in Hf. by rewrite Hst in Hf.
Qed.

(** The tracker is inside a scenario with id [s] exactly when it started
    there and no line opened or closed one, or a line opened one with these
    first eight characters and no later line opened or closed one. *)
Lemma scn_state_spec ls b id s :
  fold_left scn_step ls (b, id) = (true, s)
  ↔ (b = true ∧ s = id ∧ Forall continues_scenario ls)
    ∨ ∃ pre opener post,
        ls = pre ++ opener :: post ∧ opens_scenario opener
        ∧ s = take 8 (strip opener) ∧ Forall continues_scenario post.
Proof.
  induction ls as [|l ls IH] using rev_ind.
  - cbn [fold_left]. split.
    + intros [= -> ->]. left. by split_and!.
    + intros [(-> & -> & _) | (pre & o & post & Hnil & _)]; [done|].
      by destruct pre.
  - rewrite fold_left_app. cbn [fold_left].
    destruct (fold_left scn_step ls (b, id)) as [b1 id1] eqn:Hst.
    unfold scn_step at 1. cbv zeta. cbn [fst snd].
    destruct (starts_with_id [lit "SCN"] (strip l)) eqn:Ho.
    + split.
      * intros [= <-]. right. exists ls, l, []. by split_and!.
      * intros [(_ & _ & Hall) | (pre & o & post & Heq & Hop & -> & Hall)].
        -- apply Forall_app in Hall as [_ Hl]. inversion Hl as [|? ? [Hno _] _]; subst.
           by destruct Hno.
        -- destruct post as [|p post _] using rev_ind.
           ++ apply app_inj_tail in Heq as [_ ->]. done.
           ++ rewrite app_comm_cons, app_assoc in Heq.
              apply app_inj_tail in Heq as [_ ->].
              apply Forall_app in Hall as [_ Hl].
              inversion Hl as [|? ? [Hno _] _]; subst. by destruct Hno.
    + destruct (startswith (lit "#") (strip l) || str_eqb (strip l) []
                || starts_with_id [lit "HR"; lit "DEC"; lit "REQ"; lit "CHG"] (strip l))
        eqn:Hc.
      * rewrite andb_true_r. 
        assert (Hnc : ¬ continues_scenario l) by (intros [_ Hn]; by apply Hn).
        split.
        -- destruct b1; [done|]. intros [= ]. 
        -- intros [(_ & _ & Hall) | (pre & o & post & Heq & Hop & -> & Hall)].
           ++ apply Forall_app in Hall as [_ Hl]. inversion Hl; subst. done.
           ++ destruct post as [|p post _] using rev_ind.
              ** apply app_inj_tail in Heq as [_ ->].
                 unfold opens_scenario in Hop. congruence.
              ** rewrite app_comm_cons, app_assoc in Heq.
                 apply app_inj_tail in Heq as [_ ->].
                 apply Forall_app in Hall as [_ Hl]. inversion Hl; subst. done.
      * rewrite andb_false_r.
        assert (Hcont : continues_scenario l).
        { split; unfold opens_scenario, closes_scenario; congruence. }
        destruct (decide (b1 = true)) as [-> | Hb1].
        -- destruct IH as [IH1 IH2]. split.
           ++ intros [= ->]. destruct (IH1 eq_refl)
                as [(-> & -> & Hall) | (pre & o & post & -> & Hop & -> & Hall)].
              ** left. split_and!; [done | done |].
                 apply Forall_app. split; [done | by constructor].
              ** right. exists pre, o, (post ++ [l]). split_and!; [|done|done|].
                 { by rewrite <- app_assoc. }
                 apply Forall_app. split; [done | by constructor].
           ++ intros [(-> & -> & Hall) | (pre & o & post & Heq & Hop & -> & Hall)].
              ** apply Forall_app in Hall as [Hall _].
                 rewrite IH2; [done|]. left. by split_and!.
              ** destruct post as [|p post _] using rev_ind.
                 { apply app_inj_tail in Heq as [_ ->].
                   unfold opens_scenario in Hop. congruence. }
                 rewrite app_comm_cons, app_assoc in Heq.
                 apply app_inj_tail in Heq as [-> ->].
                 apply Forall_app in Hall as [Hall _].
                 rewrite IH2; [done|]. right. exists pre, o, post. by split_and!.
        -- destruct b1; [done|]. split; [done|].
           intros [(-> & -> & Hall) | (pre & o & post & Heq & Hop & -> & Hall)].
           ++ apply Forall_app in Hall as [Hall _].
              assert (Ht : (false, id1) = (true, id)); [|done].
              apply IH. left. by split_and!.
           ++ destruct post as [|p post _] using rev_ind.
              { apply app_inj_tail in Heq as [_ ->].
                unfold opens_scenario in Hop. congruence. }
              rewrite app_comm_cons, app_assoc in Heq.
              apply app_inj_tail in Heq as [-> ->].
              apply Forall_app in Hall as [Hall _].
              assert (Ht : (false, id1) = (true, take 8 (strip o))); [|done].
              apply IH. right. exists pre, o, post. by split_and!.
Qed.

Lemma paragraph_loop_when_then lines i0 c b r i s :
  WhenThenSameLine i s ∈ issues (paragraph_loop lines i0 c b r)
  ↔ WhenThenSameLine i s ∈ issues r.
Proof.
  revert i0 c b r. induction lines as [|l lines IH]; intros i0 c b r;
    cbn [paragraph_loop]; [done|]. cbv zeta.
  destruct (is_fence (strip l)); [by apply IH|].
  destruct b; [by apply IH|].
  destruct (is_text_line (strip l)); [|by apply IH].
  destruct (10 <? c + 1); [|by apply IH].
  rewrite IH. cbn [fail issues]. rewrite elem_of_app, list_elem_of_singleton.
  split; [intros [?|?]; [done | congruence] | by left].
Qed.

(** X5.  The WHEN/THEN rule of check 5.  A line is reported exactly when it
    holds both words [WHEN] and [THEN] and lies in a scenario block: some line
    at or before it opens a scenario (it starts with [SCN-] and at least three
    digits) and no line after that one, up to and including the reported
    line, opens or closes a scenario.  The id in the message is the first
    eight characters of the opening line, and the line number counts from
    1. *)
Theorem check_5_when_then_same_line (rfc : str) (i : nat) (s : str) :
  WhenThenSameLine i s ∈ issues (check_5_readability rfc)
  ↔ ∃ pre opener between rest line,
      split_lines rfc = pre ++ opener :: between ++ rest
      ∧ i = length pre + 1 + length between
      ∧ opens_scenario opener ∧ s = take 8 (strip opener)
      ∧ Forall continues_scenario between
      ∧ last (opener :: between) = Some line
      ∧ when_and_then line.
Proof.
  unfold check_5_readability. cbv zeta.
  rewrite paragraph_loop_when_then, scn_loop_spec.
  cbn [new_result issues]. split.
  - intros [Hnil | (q & line & -> & Hq & Hst & Hw)]; [by apply elem_of_nil in Hnil|].
    apply scn_state_spec in Hst
      as [(? & _) | (pre & o & post & Heq & Hop & -> & Hall)]; [done|].
    exists pre, o, post, (drop (S q) (split_lines rfc)), line.
    assert (Hlen : length (take (S q) (split_lines rfc)) = S q).
    { apply length_take_le. apply lookup_lt_Some in Hq. lia. }
    split_and!; try done.
    + rewrite <- (take_drop (S q) (split_lines rfc)) at 1.
      rewrite Heq. by rewrite <- app_assoc.
    + rewrite Heq, length_app in Hlen. cbn [length] in Hlen. lia.
    + assert (Hl : last (take (S q) (split_lines rfc)) = Some line).
      { rewrite last_lookup, Hlen. cbn [pred]. rewrite lookup_take_lt by lia. done. }
      rewrite Heq, last_app in Hl.
      destruct (last (o :: post)) eqn:Hlast; [done|].
      by apply last_None in Hlast.
  - intros (pre & o & between & rest & line & Heq & -> & Hop & -> & Hall & Hlast & Hw).
    right. exists (length pre + length between), line.
    assert (Htake : take (S (length pre + length between)) (split_lines rfc)
                    = pre ++ o :: between).
    { rewrite Heq.
      change (pre ++ o :: between ++ rest) with (pre ++ (o :: between) ++ rest).
      rewrite app_assoc. apply take_app_length'.
      rewrite length_app. cbn [length]. lia. }
    split_and!; [lia | | | done].
    + assert (Hl : last (pre ++ o :: between) = Some line).
      { rewrite last_app. by rewrite Hlast. }
      rewrite last_lookup in Hl. rewrite length_app in Hl. cbn [length] in Hl.
      replace (pred (length pre + S (length between)))
        with (length pre + length between) in Hl by lia.
      rewrite <- Htake in Hl. rewrite lookup_take_lt in Hl by lia. done.
    + rewrite Htake. apply scn_state_spec. right. exists pre, o, between.
      by split_and!.
Qed.

End WhenThen.

(** ** The details of the report *)

Lemma dict_get_dict_set {V} (d : list (str * V)) k v n :
  dict_get (dict_set d k v) n = if str_eqb k n then Some v else dict_get d n.
Proof.
  induction d as [|[k' v'] d IH]; cbn [dict_set dict_get]; [done|].
  unfold str_eqb in *. destruct (decide (k' = k)) as [->|Hne].
  - rewrite (bool_decide_eq_true_2 (k = k)) by done. cbn [dict_get].
    unfold str_eqb. by case_bool_decide.
  - rewrite (bool_decide_eq_false_2 (k' = k)) by done. cbn [dict_get].
    unfold str_eqb. rewrite IH.
    destruct (decide (k' = n)) as [->|Hn].
    + rewrite (bool_decide_eq_true_2 (n = n)) by done.
      by rewrite (bool_decide_eq_false_2 (k = n)) by done.
    + by rewrite (bool_decide_eq_false_2 (k' = n)) by done.
Qed.

Lemma dict_get_fold_set {A V} (key : A → str) (value : A → V) (l : list A)
    (d : list (str * V)) n :
  dict_get (fold_left (λ d r, dict_set d (key r) (value r)) l d) n
  = match last (filter (λ r, key r = n) l) with
    | Some r => Some (value r)
    | None => dict_get d n
    end.
Proof.
  induction l as [|r l IH] using rev_ind; [done|].
  rewrite fold_left_app. cbn [fold_left]. rewrite dict_get_dict_set, IH.
  rewrite filter_app, last_app. unfold str_eqb.
  case_bool_decide as E.
  - rewrite filter_cons_True by done. rewrite filter_nil. done.
  - rewrite filter_cons_False by done. rewrite filter_nil. done.
Qed.

(** X6.  The details of the report, looked up by check name: the entry is
    that of the last result with this name, hard results before soft ones;
    a name no result has is absent.  So of two results with one name only
    the later one is kept. *)
Theorem run_gate_a_details (hard_results soft_results : list CheckResult)
    (n : str) :
  dict_get (details (run_gate_a hard_results soft_results)) n
  = detail_of <$> last (filter (λ r, name r = n) (hard_results ++ soft_results)).
Proof.
  unfold run_gate_a. cbv zeta. cbn [details].
  rewrite (dict_get_fold_set name detail_of).
  by destruct (last _).
Qed.

(** ** More on configuration resolution *)

Lemma dict_get_merge_absent {V} (d o : list (str * V)) k :
  k ∉ o.*1 → dict_get (merge_fields d o) k = dict_get d k.
Proof.
  unfold merge_fields. revert d. induction o as [|[k' v'] o IH]; intros d Hk; [done|].
  cbn [fold_left fst snd]. rewrite fmap_cons in Hk. cbn [fst] in Hk.
  apply not_elem_of_cons in Hk as [Hne Hk].
  rewrite IH by done. rewrite dict_get_dict_set. unfold str_eqb.
  by rewrite bool_decide_eq_false_2 by done.
Qed.

Lemma dict_get_merge_last {V} (d pre post : list (str * V)) k v :
  k ∉ post.*1 → dict_get (merge_fields d (pre ++ (k, v) :: post)) k = Some v.
Proof.
  intros Hk. unfold merge_fields. rewrite fold_left_app. cbn [fold_left fst snd].
  fold (merge_fields (dict_set (fold_left (λ d kv, dict_set d kv.1 kv.2) pre d) k v) post).
  rewrite dict_get_merge_absent by done. rewrite dict_get_dict_set.
  unfold str_eqb. by rewrite bool_decide_eq_true_2.
Qed.

(** X7.  The merge of an override document is shallow.  When the file opened
    holds a JSON object, the configuration returned reads as a dict in which
    a key of the override has the override's value as a whole (the last one,
    should the pairs repeat a key), whatever the default held there, and
    every other key has its default value. *)
Theorem load_config_shallow_merge (env : environment) (p : option str)
    (h : list obj) (fields : list (str * json)) :
  defaults_intact h →
  open_and_load env (resolved_path env p) = Returned (JObj fields) →
  ∃ h1 c1 merged,
    load_config env p h = Some (Returned (h1, c1))
    ∧ denotes h1 c1 = Some (JObj merged)
    ∧ (∀ k, k ∉ fields.*1 → dict_get merged k = dict_get default_fields k)
    ∧ (∀ pre k v post, fields = pre ++ (k, v) :: post → k ∉ post.*1 →
         dict_get merged k = Some v).
Proof.
  intros Hd Hopen.
  destruct (load_config_override env p h (JObj fields) fields Hd Hopen eq_refl)
    as (h1 & c1 & Hload & Hden).
  exists h1, c1, (merge_fields default_fields fields). split_and!; [done..| |].
  - intros k Hk. by apply dict_get_merge_absent.
  - intros pre k v post -> Hk. by apply dict_get_merge_last.
Qed.

Lemma load_config_shallow_merge_witness :
  ∃ h1 c1 merged,
    load_config adjacent_override None module_heap = Some (Returned (h1, c1))
    ∧ denotes h1 c1 = Some (JObj merged)
    ∧ (∀ k, k ∉ [(lit "meta_fields", JArr [JStr (lit "strictness")])].*1 →
         dict_get merged k = dict_get default_fields k)
    ∧ (∀ pre k v post,
         [(lit "meta_fields", JArr [JStr (lit "strictness")])]
         = pre ++ (k, v) :: post →
         k ∉ post.*1 → dict_get merged k = Some v).
Proof.
  apply (load_config_shallow_merge adjacent_override None module_heap).
  - intros l Hl. reflexivity.
  - reflexivity.
Defined.

(** X8.  What resolution lets through.  A resolution raises exactly when
    opening or parsing the file raises something other than
    FileNotFoundError and JSONDecodeError, or when the document parsed is no
    mapping and [dict.update] raises on it; the exception is passed on
    unchanged.  Otherwise it returns. *)
Theorem load_config_raises (env : environment) (p : option str) (h : list obj)
    (e : exn) :
  defaults_intact h →
  (load_config env p h = Some (Raised e)
   ↔ (open_and_load env (resolved_path env p) = Raised e
      ∧ e ≠ FileNotFoundError ∧ e ≠ JSONDecodeError)
     ∨ ∃ overrides,
         open_and_load env (resolved_path env p) = Returned overrides
         ∧ update_pairs env overrides = Raised e)
  ∧ (load_config env p h ≠ None).
Proof.
  intros Hd. unfold load_config. rewrite (deepcopy_defaults h Hd).
  destruct (alloc DEFAULT_CONFIG_literal h) as [h1 cfg].
  fold (resolved_path env p). split; [|done].
  destruct (open_and_load env (resolved_path env p)) as [overrides | e'].
  - destruct (update_pairs env overrides) as [fields | e''] eqn:Hu.
    + destruct (alloc_fields fields h1) as [h2 kvs].
      split.
      * by destruct cfg.
      * intros [(? & _) | (o & [= <-] & Hu')]; [done | congruence].
    + split.
      * intros [= ->]. right. by exists overrides.
      * intros [(? & _) | (o & [= <-] & Hu')]; [done | congruence].
  - destruct e' as [| | w]; (split; [intros [= <-] | intros [(He & ? & ?) | (o & ? & _)]]);
      try done; try congruence.
    left. by split_and!.
Qed.

Lemma load_config_raises_witness :
  load_config unreadable_files None module_heap
  = Some (Raised (OtherError (lit "PermissionError"))).
Proof.
  apply (load_config_raises unreadable_files None module_heap
           (OtherError (lit "PermissionError"))).
  - intros l Hl. reflexivity.
  - left. by split_and!.
Defined.

(** ** Check 3: placeholders *)

(** [finditer] finds something exactly when the pattern matches somewhere. *)
Lemma finditer_from_nonempty p prev pos (rest : str) :
  finditer_from p prev pos rest 0 ≠ []
  ↔ ∃ i, i < length rest
         ∧ is_Some (p (match i with O => prev | S j => rest !! j end) (drop i rest)).
Proof.
  split.
  - destruct (finditer_from p prev pos rest 0) as [|m l] eqn:E; [done|]. intros _.
    assert (Hm : m ∈ finditer_from p prev pos rest 0) by (rewrite E; left).
    apply finditer_from_elem in Hm as (i & Hi & _ & Hp & _).
    exists i. split; [done|]. by rewrite Hp.
  - revert prev pos. induction rest as [|c tl IH]; intros prev pos (i & Hi & Hp).
    + cbn [length] in Hi. lia.
    + cbn [finditer_from]. destruct (p prev (c :: tl)) as [[len g]|] eqn:E; [done|].
      destruct i as [|j].
      * cbn [drop] in Hp. rewrite E in Hp. by destruct Hp.
      * apply IH. exists j. split; [cbn [length] in Hi; lia|].
        cbn [drop] in Hp. by destruct j.
Qed.

Lemma finditer_nonempty p (text : str) :
  finditer p text ≠ []
  ↔ ∃ pre post, text = pre ++ post ∧ post ≠ [] ∧ is_Some (p (last pre) post).
Proof.
  unfold finditer. rewrite finditer_from_nonempty. split.
  - intros (i & Hi & Hp). exists (take i text), (drop i text). split_and!.
    + by rewrite take_drop.
    + intros Hnil. apply (f_equal length) in Hnil.
      rewrite length_drop in Hnil. cbn [length] in Hnil. lia.
    + destruct i as [|j]; [done|].
      rewrite last_lookup, length_take_le by lia. cbn [pred].
      by rewrite lookup_take_lt by lia.
  - intros (pre & post & -> & Hne & Hp). exists (length pre). split.
    + rewrite length_app. destruct post; [done|]. cbn [length]. lia.
    + rewrite drop_app_length.
      destruct pre as [|c pre _] using rev_ind; [done|].
      rewrite last_snoc in Hp. rewrite length_app. cbn [length].
      replace (length pre + 1) with (S (length pre)) by lia.
      rewrite <- app_assoc. rewrite lookup_app_r by lia.
      by rewrite Nat.sub_diag.
Qed.

Lemma bare_word_Some w prev s :
  is_Some (bare_word w prev s)
  ↔ ∃ post, s = w ++ post ∧ opt_letter prev = false ∧ opt_letter (head post) = false.
Proof.
  unfold bare_word. split.
  - destruct (negb (opt_letter prev) && startswith w s
              && negb (opt_letter (head (drop (length w) s)))) eqn:E;
      [|by intros [? ?]].
    intros _. apply andb_prop in E as [E H3]. apply andb_prop in E as [H1 H2].
    apply startswith_spec in H2 as [post ->]. exists post.
    rewrite drop_app_length in H3.
    split_and!; [done | by apply negb_true_iff | by apply negb_true_iff].
  - intros (post & -> & H1 & H2).
    rewrite H1, startswith_app, drop_app_length, H2. by eexists.
Qed.

Lemma literal_here_Some w prev s :
  is_Some (literal_here w prev s) ↔ ∃ post, s = w ++ post.
Proof.
  unfold literal_here. rewrite <- startswith_spec.
  destruct (startswith w s); split; intros H;
    first [done | by eexists | by destruct H].
Qed.

Lemma first_match_Some alts prev s :
  is_Some (first_match alts prev s) ↔ ∃ a, a ∈ alts ∧ is_Some (a prev s).
Proof.
  induction alts as [|a alts IH]; cbn [first_match].
  - split; [by intros [? ?] | intros (a & Ha & _); by apply elem_of_nil in Ha].
  - destruct (a prev s) as [m|] eqn:E.
    + split; [|by eexists]. intros _. exists a. split; [left | by rewrite E].
    + rewrite IH. split.
      * intros (b & Hb & Hs). exists b. split; [by right | done].
      * intros (b & Hb & Hs). apply elem_of_cons in Hb as [-> | Hb].
        -- rewrite E in Hs. by destruct Hs.
        -- by exists b.
Qed.

Lemma PLACEHOLDER_PATTERN_Some prev s :
  is_Some (PLACEHOLDER_PATTERN prev s)
  ↔ ∃ w post, s = w ++ post
      ∧ (w = lit "<...>"
         ∨ (w ∈ placeholder_words
            ∧ opt_letter prev = false ∧ opt_letter (head post) = false)).
Proof.
  unfold PLACEHOLDER_PATTERN. rewrite first_match_Some. split.
  - intros (a & Ha & Hs).
    repeat (apply elem_of_cons in Ha as [-> | Ha]);
      [..| by apply elem_of_nil in Ha].
    1-4: apply bare_word_Some in Hs as (post & -> & H1 & H2);
         eexists _, post; (split; [done|]); right;
         (split; [|done]); unfold placeholder_words; set_solver.
    apply literal_here_Some in Hs as (post & ->). eexists _, post. by split; [|left].
  - intros (w & post & -> & [-> | (Hw & H1 & H2)]).
    + exists (literal_here (lit "<...>")). split; [set_solver|].
      apply literal_here_Some. by exists post.
    + exists (bare_word w). split.
      * unfold placeholder_words in Hw.
        repeat (apply elem_of_cons in Hw as [-> | Hw]);
          [..| by apply elem_of_nil in Hw]; set_solver.
      * apply bare_word_Some. by exists post.
Qed.

Lemma placeholder_found (line : str) :
  finditer PLACEHOLDER_PATTERN line ≠ [] ↔ has_placeholder line.
Proof.
  rewrite finditer_nonempty. unfold has_placeholder. split.
  - intros (pre & post & -> & _ & Hp).
    apply PLACEHOLDER_PATTERN_Some in Hp as (w & post' & -> & Hw).
    by exists pre, w, post'.
  - intros (pre & w & post & -> & Hw). exists pre, (w ++ post). split_and!; [done| |].
    + destruct Hw as [-> | (Hw & _)]; [done|].
      unfold placeholder_words in Hw.
      repeat (apply elem_of_cons in Hw as [-> | Hw]);
        [..| by apply elem_of_nil in Hw]; done.
    + apply PLACEHOLDER_PATTERN_Some. by exists w, post.
Qed.

Lemma placeholder_loop_failed lines i r :
  passed (placeholder_loop lines i r) = false
  ↔ passed r = false
    ∨ ∃ line, line ∈ lines ∧ finditer PLACEHOLDER_PATTERN line ≠ [].
Proof.
  revert i r. induction lines as [|l lines IH]; intros i r; cbn [placeholder_loop].
  - split; [by left|]. intros [?|(line & Hl & _)]; [done|]. by apply elem_of_nil in Hl.
  - rewrite IH, (passed_fold_fail (placeholder_message i)). split.
    + intros [Hp | (line & Hl & Hf)].
      * apply andb_false_iff in Hp as [Hp | Hp]; [by left|].
        right. exists l. split; [left|]. by apply bool_decide_eq_false in Hp.
      * right. exists line. split; [by right | done].
    + intros [Hp | (line & Hl & Hf)].
      * left. by rewrite Hp.
      * apply elem_of_cons in Hl as [-> | Hl].
        -- left. apply andb_false_iff. right. by apply bool_decide_eq_false.
        -- right. by exists line.
Qed.

(** X9.  Check 3, with the built-in placeholder patterns, fails exactly when
    some line of the document holds the literal [<...>] or one of the words
    TBD, XXX, TODO, FIXME with no ASCII letter directly before or after
    it. *)
Theorem check_3_fails_iff (rfc : str) :
  passed (check_3_placeholders rfc) = false
  ↔ ∃ line, line ∈ split_lines rfc ∧ has_placeholder line.
Proof.
  unfold check_3_placeholders. rewrite placeholder_loop_failed.
  cbn [new_result passed]. split.
  - intros [? | (line & Hl & Hf)]; [done|]. exists line. split; [done|].
    by apply placeholder_found.
  - intros (line & Hl & Hf). right. exists line. split; [done|].
    by apply placeholder_found.
Qed.

(** The message of check 3 on a document with a bare TODO on line 2. *)
Example check_3_todo_document :
  issues (check_3_placeholders todo_document)
  = [OtherIssue (lit "Line 2: placeholder 'TODO' found")].
Proof. vm_compute. reflexivity. Qed.

(** ** Flag and issue list *)

Lemma consistent_fail r msg : consistent r → consistent (fail r msg).
Proof.
  intros (_ & Hw & Hk). split_and!; [|done..]. cbn [fail passed issues].
  split; [done|]. intros H. by destruct (issues r).
Qed.

Lemma consistent_fold_fail {B} (f : B → issue) (l : list B) r :
  consistent r → consistent (fold_left (λ r d, fail r (f d)) l r).
Proof.
  revert r. induction l as [|d l IH]; intros r Hr; [done|].
  cbn [fold_left]. apply IH. by apply consistent_fail.
Qed.

Section Consistency.
Context {U : UnicodeDB}.

Lemma scn_loop_consistent lines i b id r :
  consistent r → consistent (scn_loop lines i b id r).
Proof.
  revert i b id r. induction lines as [|l lines IH]; intros i b id r Hr; [done|].
  rewrite scn_loop_cons. apply IH.
  destruct (_ && _ && _); [|done]. by apply consistent_fail.
Qed.

Lemma paragraph_loop_consistent lines i c b r :
  consistent r → consistent (paragraph_loop lines i c b r).
Proof.
  revert i c b r. induction lines as [|l lines IH]; intros i c b r Hr; [done|].
  cbn [paragraph_loop]. cbv zeta.
  destruct (is_fence (strip l)); [by apply IH|].
  destruct b; [by apply IH|].
  destruct (is_text_line (strip l)); [|by apply IH].
  destruct (10 <? c + 1); [|by apply IH].
  apply IH. by apply consistent_fail.
Qed.

Lemma placeholder_loop_consistent lines i r :
  consistent r → consistent (placeholder_loop lines i r).
Proof.
  revert i r. induction lines as [|l lines IH]; intros i r Hr; [done|].
  cbn [placeholder_loop]. apply IH.
  by apply (consistent_fold_fail (placeholder_message i)).
Qed.

Lemma duplicate_loop_consistent' (d : list (str * nat)) r :
  consistent r →
  consistent (fold_left
    (λ r '(id_str, count),
       if 1 <? count then fail r (DuplicateIdDefinition id_str count) else r) d r).
Proof.
  revert r. induction d as [|[x c] d IH]; intros r Hr; [done|].
  cbn [fold_left]. apply IH. destruct (1 <? c); [|done].
  by apply consistent_fail.
Qed.

(** X12.  In the results of checks 2, 3 and 5 the flag and the issue list
    never disagree: the check passed exactly when it lists no issue, and it
    carries no warning.  The report line of such a result says PASS exactly
    when no issue line follows it. *)
Theorem checks_consistent (rfc : str) (r : CheckResult) :
  r ∈ [check_2_id_integrity rfc; check_3_placeholders rfc;
       check_5_readability rfc] →
  (passed r = true ↔ issues r = []) ∧ warnings r = [] ∧ kind r = Hard.
Proof.
  assert (H0 : ∀ n, consistent (new_result n Hard)) by (intros n; by split_and!).
  intros Hr. change (consistent r).
  repeat (apply elem_of_cons in Hr as [-> | Hr]); [..| by apply elem_of_nil in Hr].
  - unfold check_2_id_integrity.
    destruct (extract_defined_ids rfc) as [defined all_ids].
    case_bool_decide.
    + apply (consistent_fold_fail DanglingReference).
      apply duplicate_loop_consistent'. apply H0.
    + apply duplicate_loop_consistent'. apply H0.
  - unfold check_3_placeholders. apply placeholder_loop_consistent. apply H0.
  - unfold check_5_readability. cbv zeta.
    apply paragraph_loop_consistent, scn_loop_consistent. apply H0.
Qed.

End Consistency.

Lemma checks_consistent_witness :
  (passed (check_3_placeholders todo_document) = true
   ↔ issues (check_3_placeholders todo_document) = [])
  ∧ warnings (check_3_placeholders todo_document) = []
  ∧ kind (check_3_placeholders todo_document) = Hard.
Proof.
  apply (checks_consistent (U := ascii_db) todo_document). right. left.
Defined.

(** ** The line numbers of the paragraph rule *)

Lemma reported_at_false fl c q :
  reported_at (false :: fl) c q ↔ ∃ q', q = S q' ∧ reported_at fl 0 q'.
Proof.
  unfold reported_at. split.
  - intros [(n & Hn & Hq & Hall) | (s & n & Hn & Hq & Hs & Hall)].
    + specialize (Hall 0 ltac:(lia)). done.
    + destruct s as [|s].
      * exists (q - 1). split; [lia|]. left. exists n. split_and!; [lia..|].
        intros k Hk. apply (Hall (S k)). lia.
      * exists (q - 1). split; [lia|]. right. exists s, n. split_and!; [lia..|done|].
        intros k Hk. apply (Hall (S k)). lia.
  - intros (q' & -> & [(n & Hn & Hq & Hall) | (s & n & Hn & Hq & Hs & Hall)]).
    + right. exists 0, n. split_and!; [lia..|done|].
      intros [|k] Hk; [lia|]. apply (Hall k). lia.
    + right. exists (S s), n. split_and!; [lia..|done|].
      intros [|k] Hk; [lia|]. apply (Hall k). lia.
Qed.

Lemma reported_at_true fl c q :
  c ≤ 10 →
  reported_at (true :: fl) c q
  ↔ (c = 10 ∧ q = 0)
    ∨ ∃ q', q = S q' ∧ reported_at fl (if 10 <? c + 1 then 0 else c + 1) q'.
Proof.
  intros Hc. unfold reported_at. split.
  - intros [(n & Hn & Hq & Hall) | (s & n & Hn & Hq & Hs & Hall)].
    + destruct q as [|q']; [left; lia|]. right. exists q'. split; [done|]. left.
      destruct (10 <? c + 1) eqn:E.
      * apply Nat.ltb_lt in E. exists (n - 1). split_and!; [lia..|].
        intros k Hk. apply (Hall (S k)). lia.
      * apply Nat.ltb_ge in E. exists n. split_and!; [lia..|].
        intros k Hk. apply (Hall (S k)). lia.
    + destruct s as [|s]; [done|]. right. exists (q - 1). split; [lia|]. right.
      exists s, n. split_and!; [lia..|done|].
      intros k Hk. apply (Hall (S k)). lia.
  - intros [[-> ->] | (q' & -> & H)].
    + left. exists 1. split_and!; [lia..|]. intros k Hk. by replace k with 0 by lia.
    + destruct H as [(n & Hn & Hq & Hall) | (s & n & Hn & Hq & Hs & Hall)].
      * left. destruct (10 <? c + 1) eqn:E.
        -- apply Nat.ltb_lt in E. exists (S n). split_and!; [lia..|].
           intros [|k] Hk; [done|]. apply (Hall k). lia.
        -- apply Nat.ltb_ge in E. exists n. split_and!; [lia..|].
           intros [|k] Hk; [done|]. apply (Hall k). lia.
      * right. exists (S s), n. split_and!; [lia..|done|].
        intros [|k] Hk; [lia|]. apply (Hall k). lia.
Qed.

Section ParagraphLines.
Context {U : UnicodeDB}.

Lemma paragraph_loop_lines lines i0 c b r i :
  c ≤ 10 → (b = true → c = 0) →
  ParagraphTooLong i ∈ issues (paragraph_loop lines i0 c b r)
  ↔ ParagraphTooLong i ∈ issues r
    ∨ ∃ q, i = i0 + q ∧ reported_at (text_outside_fences lines b) c q.
Proof.
  revert i0 c b r. induction lines as [|l lines IH]; intros i0 c b r Hc Hb.
  - cbn [paragraph_loop text_outside_fences]. split; [by left|].
    intros [? | (q & _ & [(n & _ & _ & Hall) | (s & n & _ & _ & Hs & _)])]; [done| |].
    + specialize (Hall 0 ltac:(lia)). done.
    + done.
  - cbn [paragraph_loop text_outside_fences]. cbv zeta.
    destruct (is_fence (strip l)) eqn:Hf.
    { rewrite IH by (done || lia). apply or_iff_compat_l.
      setoid_rewrite reported_at_false. split.
      - intros (q & -> & Hq). exists (S q). split; [lia|]. by exists q.
      - intros (q & -> & q' & -> & Hq). exists q'. split; [lia | done]. }
    destruct b.
    { rewrite (Hb eq_refl). cbn [negb andb].
      rewrite IH by (done || lia). apply or_iff_compat_l.
      setoid_rewrite reported_at_false. split.
      - intros (q & -> & Hq). exists (S q). split; [lia|]. by exists q.
      - intros (q & -> & q' & -> & Hq). exists q'. split; [lia | done]. }
    cbn [negb andb].
    destruct (is_text_line (strip l)) eqn:Ht.
    + setoid_rewrite (reported_at_true _ c _ Hc).
      destruct (10 <? c + 1) eqn:E.
      * apply Nat.ltb_lt in E. rewrite IH by (done || lia).
        cbn [fail issues]. rewrite elem_of_app, list_elem_of_singleton. split.
        -- intros [[? | [= ->]] | (q & -> & Hq)].
           ++ by left.
           ++ right. exists 0. split; [lia|]. left. lia.
           ++ right. exists (S q). split; [lia|]. right. by exists q.
        -- intros [? | (q & -> & [[_ ->] | (q' & -> & Hq)])].
           ++ by left; left.
           ++ left. right. f_equal. lia.
           ++ right. exists q'. split; [lia | done].
      * apply Nat.ltb_ge in E. rewrite IH by (done || lia).
        apply or_iff_compat_l. split.
        -- intros (q & -> & Hq). exists (S q). split; [lia|]. right. by exists q.
        -- intros (q & -> & [[? _] | (q' & -> & Hq)]); [lia|].
           exists q'. split; [lia | done].
    + rewrite IH by (done || lia). apply or_iff_compat_l.
      setoid_rewrite reported_at_false. split.
      * intros (q & -> & Hq). exists (S q). split; [lia|]. by exists q.
      * intros (q & -> & q' & -> & Hq). exists q'. split; [lia | done].
Qed.

Lemma scn_loop_paragraph lines i0 b id r i :
  ParagraphTooLong i ∈ issues (scn_loop lines i0 b id r)
  ↔ ParagraphTooLong i ∈ issues r.
Proof.
  revert i0 b id r. induction lines as [|l lines IH]; intros i0 b id r; [done|].
  rewrite scn_loop_cons, IH. destruct (_ && _ && _); [|done].
  cbn [fail issues]. rewrite elem_of_app, list_elem_of_singleton.
  split; [intros [?|?]; [done | congruence] | by left].
Qed.

(** X13.  The line numbers of the paragraph rule.  Check 5 reports line [i]
    exactly when the lines [s+1] to [i] are all running text outside fenced
    blocks, the line before them is not (or there is none), and their number
    is a positive multiple of eleven: the eleventh, twenty-second, ... line of
    each paragraph is reported, the counter starting again after each
    report. *)
Theorem check_5_paragraph_lines (rfc : str) (i : nat) :
  ParagraphTooLong i ∈ issues (check_5_readability rfc)
  ↔ ∃ s n, 1 ≤ n ∧ i = s + 11 * n
      ∧ (s = 0 ∨ text_outside_fences (split_lines rfc) false !! (s - 1) = Some false)
      ∧ ∀ k, s ≤ k < i → text_outside_fences (split_lines rfc) false !! k = Some true.
Proof.
  unfold check_5_readability. cbv zeta.
  rewrite paragraph_loop_lines by (done || lia).
  rewrite scn_loop_paragraph. cbn [new_result issues]. split.
  - intros [Hnil | (q & -> & [(n & Hn & Hq & Hall) | (s & n & Hn & Hq & Hs & Hall)])].
    + by apply elem_of_nil in Hnil.
    + exists 0, n. split_and!; [lia..|by left|]. intros k Hk. apply Hall. lia.
    + exists (S s), n. split_and!; [lia..| |].
      * right. by replace (S s - 1) with s by lia.
      * intros k Hk. apply Hall. lia.
  - intros (s & n & Hn & -> & Hs & Hall). right. exists (s + 11 * n - 1).
    split; [lia|]. destruct Hs as [-> | Hs].
    + left. exists n. split_and!; [lia..|]. intros k Hk. apply Hall. lia.
    + destruct s as [|s].
      * left. exists n. split_and!; [lia..|]. intros k Hk. apply Hall. lia.
      * right. exists s, n. split_and!; [lia..| |].
        -- by replace (S s - 1) with s in Hs by lia.
        -- intros k Hk. apply Hall. lia.
Qed.

End ParagraphLines.

(** ** Completeness of the extractor *)

Section ExtractComplete.
Context {U : UnicodeDB}.

Lemma ID_PATTERN_at0 prev (t : str) len a ds :
  ID_PATTERN prev t = Some (len, (a, ds)) →
  generic_shape t 0 len a (length ds).
Proof.
  intros Hp. apply ID_PATTERN_Some in Hp
    as (Hb & Ha & Hds & Hlen & -> & rest & Hdrop & Hw).
  rewrite <- (drop_0 t) in Hdrop.
  apply drop_app_split in Hdrop as [Hlit Hdrop].
  pose proof (f_equal head Hdrop) as Hh. rewrite head_drop in Hh. cbn [head] in Hh.
  change (45%N :: ds ++ rest) with ([45%N] ++ ds ++ rest) in Hdrop.
  apply drop_app_split in Hdrop as [_ Hdrop]. cbn [length] in Hdrop.
  apply drop_app_split in Hdrop as [Hlitd Hdrop].
  split_and!; try done.
  - by apply literal_run.
  - rewrite <- head_drop. cbn [Nat.add] in *. rewrite Hdrop. done.
Qed.

(** The characters of a text around a piece of it. *)
Lemma lookup_piece (pre x post : str) j c :
  x !! j = Some c → (pre ++ x ++ post) !! (length pre + j) = Some c.
Proof.
  intros Hx. rewrite lookup_app_r by lia.
  replace (length pre + j - length pre) with j by lia.
  by apply lookup_app_l_Some.
Qed.

Lemma lookup_before_piece (pre' : str) c0 (rest : str) :
  ((pre' ++ [c0]) ++ rest) !! length pre' = Some c0.
Proof. rewrite <- app_assoc. by apply list_lookup_middle. Qed.

(** No generic match runs from before a non-word character into an
    upper-case letter that follows it. *)
Lemma generic_no_overrun prev (pre2 x post : str) u len g :
  pre2 ≠ [] → opt_word (last pre2) = false →
  x !! 0 = Some u → is_upper u = true →
  ID_PATTERN prev (pre2 ++ x ++ post) = Some (len, g) →
  len ≤ length pre2.
Proof.
  intros Hne Hlast Hx0 Hu Hp. destruct g as [a ds].
  apply ID_PATTERN_at0 in Hp as (Ha & Hlit & Hhyp & Hdig & Hn & -> & Hend).
  destruct pre2 as [|c0 pre' _] using rev_ind; [done|]. clear Hne.
  rewrite last_snoc in Hlast. cbn [opt_word] in Hlast.
  rewrite length_app. cbn [length].
  set (t := (pre' ++ [c0]) ++ x ++ post) in *.
  assert (Hj : t !! length pre' = Some c0) by apply lookup_before_piece.
  assert (HX : t !! (length pre' + 1) = Some u).
  { pose proof (lookup_piece (pre' ++ [c0]) x post 0 u Hx0) as H.
    rewrite length_app in H. cbn [length] in H.
    by replace (length pre' + 1 + 0) with (length pre' + 1) in H by lia. }
  cbn [Nat.add] in *.
  destruct (decide (length a + 1 + length ds ≤ length pre' + 1)) as [|Hgt];
    [done | exfalso].
  destruct (decide (length pre' < length a)).
  { destruct (kind_letter_at t 0 a (length pre') Ha Hlit) as (c & Hc & Hcu); [lia|].
    rewrite Hc in Hj. injection Hj as ->. apply is_upper_word in Hcu. congruence. }
  destruct (decide (length pre' = length a)) as [Heq|].
  { destruct (run_at_pos is_digit t (length a + 1) (length ds)
                (length pre' + 1) Hdig) as (c & Hc & Hcd); [lia|].
    rewrite Hc in HX. injection HX as ->.
    apply is_upper_not_digit in Hu. congruence. }
  destruct (run_at_pos is_digit t (length a + 1) (length ds)
              (length pre') Hdig) as (c & Hc & Hcd); [lia|].
  rewrite Hc in Hj. injection Hj as ->. apply is_digit_word in Hcd. congruence.
Qed.

(** No domain-prefixed match runs from before a non-word character into a
    domain-prefixed identifier that follows it. *)
Lemma domain_no_overrun_form prev (pre2 post dom ds : str) len g :
  pre2 ≠ [] → opt_word (last pre2) = false →
  dom ≠ [] → Forall (λ c, is_upper c = true) dom →
  DOMAIN_HR_PATTERN prev (pre2 ++ (dom ++ lit "-HR-" ++ ds) ++ post)
  = Some (len, g) →
  len ≤ length pre2.
Proof.
  intros Hne Hlast Hdne Hdom Hp. destruct g as [dom' ds'].
  apply DOMAIN_HR_PATTERN_at0 in Hp
    as (Hdn & Hup & Hlit2 & Hdig2 & Hdnd & -> & Hend).
  destruct pre2 as [|c0 pre' _] using rev_ind; [done|]. clear Hne.
  rewrite last_snoc in Hlast. cbn [opt_word] in Hlast.
  rewrite length_app. cbn [length].
  set (x := dom ++ lit "-HR-" ++ ds) in *.
  set (t := (pre' ++ [c0]) ++ x ++ post) in *.
  set (n := length dom') in *. set (nd := length ds') in *.
  assert (Hj : t !! length pre' = Some c0) by apply lookup_before_piece.
  assert (HX : ∀ j c, x !! j = Some c → t !! (length pre' + 1 + j) = Some c).
  { intros j c Hx. pose proof (lookup_piece (pre' ++ [c0]) x post j c Hx) as H.
    rewrite length_app in H. cbn [length] in H. done. }
  cbn [Nat.add] in *.
  destruct (decide (n + 4 + nd ≤ length pre' + 1)) as [|Hgt]; [done | exfalso].
  destruct (decide (length pre' < n)).
  { destruct (run_at_pos is_upper t 0 n (length pre') Hup) as (c & Hc & Hcu); [lia|].
    rewrite Hc in Hj. injection Hj as ->. apply is_upper_word in Hcu. congruence. }
  destruct (decide (length pre' = n + 1)) as [Heq|].
  { pose proof (literal_at_pos t n (lit "-HR-") (length pre') 72%N Hlit2) as Hc.
    rewrite Hc in Hj; [by injection Hj as <- | lia |].
    by replace (length pre' - n) with 1 by lia. }
  destruct (decide (length pre' = n + 2)) as [Heq|].
  { pose proof (literal_at_pos t n (lit "-HR-") (length pre') 82%N Hlit2) as Hc.
    rewrite Hc in Hj; [by injection Hj as <- | lia |].
    by replace (length pre' - n) with 2 by lia. }
  destruct (decide (length pre' = n + 3)) as [Heq|].
  { destruct (run_at_pos is_digit t (n + 4) nd (length pre' + 1) Hdig2)
      as (c & Hc & Hcd); [lia|].
    destruct dom as [|d0 dom0]; [done|].
    apply Forall_cons in Hdom as [Hd0 _].
    pose proof (HX 0 d0 eq_refl) as H0.
    replace (length pre' + 1 + 0) with (length pre' + 1) in H0 by lia.
    rewrite Hc in H0. injection H0 as ->.
    apply is_upper_not_digit in Hd0. congruence. }
  destruct (decide (length pre' = n)) as [Heq|].
  { pose proof (literal_at_pos t n (lit "-HR-") (n + 2) 82%N Hlit2) as HR.
    pose proof (literal_at_pos t n (lit "-HR-") (n + 3) 45%N Hlit2) as HH.
    destruct (run_at_pos is_digit t (n + 4) nd (n + 4) Hdig2)
      as (c & Hc & Hcd); [lia|].
    rewrite Heq in HX.
    destruct dom as [|d0 [|d1 [|d2 dom0]]]; [done|..].
    - pose proof (HX 1 45%N eq_refl) as H1.
      replace (n + 1 + 1) with (n + 2) in H1 by lia.
      rewrite HR in H1; [done | lia |].
      by replace (n + 2 - n) with 2 by lia.
    - pose proof (HX 3 72%N eq_refl) as H3.
      replace (n + 1 + 3) with (n + 4) in H3 by lia.
      rewrite Hc in H3. injection H3 as ->. unfold is_digit in Hcd. done.
    - apply Forall_cons in Hdom as [_ Hdom].
      apply Forall_cons in Hdom as [_ Hdom].
      apply Forall_cons in Hdom as [Hd2 _].
      pose proof (HX 2 d2 eq_refl) as H2.
      replace (n + 1 + 2) with (n + 3) in H2 by lia.
      rewrite HH in H2; [|lia|by replace (n + 3 - n) with 3 by lia].
      injection H2 as <-. done. }
  destruct (run_at_pos is_digit t (n + 4) nd (length pre') Hdig2)
    as (c & Hc & Hcd); [lia|].
  rewrite Hc in Hj. injection Hj as ->. apply is_digit_word in Hcd. congruence.
Qed.

(** A domain-prefixed identifier between non-word characters is found as
    one match. *)
Lemma domain_token_found (pre post dom ds : str) :
  opt_word (last pre) = false → opt_word (head post) = false →
  dom ≠ [] → Forall (λ c, is_upper c = true) dom →
  Forall (λ c, is_digit c = true) ds → 3 ≤ length ds →
  {| m_start := length pre; m_end := length pre + (length dom + 4 + length ds);
     m_groups := (dom, ds) |}
  ∈ finditer DOMAIN_HR_PATTERN (pre ++ (dom ++ lit "-HR-" ++ ds) ++ post).
Proof.
  intros Hpre Hpost Hne Hdom Hds Hlen. unfold finditer.
  apply finditer_from_reach; [lia | |].
  - intros pre1 pre2 len g -> Hne2 Hp.
    eapply (domain_no_overrun_form _ pre2 post dom ds len g); [done | | done..].
    rewrite last_app in Hpre. destruct (last pre2) eqn:Hl; [done|].
    by apply last_None in Hl.
  - rewrite last_or_None.
    pose proof (DOMAIN_HR_PATTERN_complete (last pre) dom ds post Hpre Hne Hdom
                  Hds Hlen Hpost) as Ht.
    replace ((dom ++ lit "-HR-" ++ ds) ++ post)
      with (dom ++ lit "-HR-" ++ ds ++ post) by (by rewrite <- !app_assoc).
    destruct dom as [|d0 dom0]; [done|].
    cbn [app finditer_from] in *. rewrite Ht. rewrite Nat.add_0_l. left.
Qed.

(** A generic identifier between non-word characters is found as one
    match. *)
Lemma generic_token_found (pre post a ds : str) :
  opt_word (last pre) = false → opt_word (head post) = false →
  a ∈ kinds → Forall (λ c, is_digit c = true) ds → 3 ≤ length ds →
  {| m_start := length pre; m_end := length pre + (length a + 1 + length ds);
     m_groups := (a, ds) |}
  ∈ finditer ID_PATTERN (pre ++ (a ++ lit "-" ++ ds) ++ post).
Proof.
  intros Hpre Hpost Ha Hds Hlen. unfold finditer.
  pose proof (kinds_facts a Ha) as [Hup Hla].
  destruct a as [|a0 a']; [cbn [length] in Hla; lia|].
  apply Forall_cons in Hup as [Ha0 _].
  apply finditer_from_reach; [lia | |].
  - intros pre1 pre2 len g -> Hne2 Hp.
    eapply (generic_no_overrun _ pre2 _ post a0 len g); [done | | | done | exact Hp].
    + rewrite last_app in Hpre. destruct (last pre2) eqn:Hl; [done|].
      by apply last_None in Hl.
    + done.
  - rewrite last_or_None.
    pose proof (ID_PATTERN_complete (last pre) (a0 :: a') ds post Hpre Ha Hds Hlen
                  Hpost) as Ht.
    replace (((a0 :: a') ++ lit "-" ++ ds) ++ post)
      with ((a0 :: a') ++ lit "-" ++ ds ++ post) by (by rewrite <- !app_assoc).
    cbn [app finditer_from] in *. rewrite Ht. rewrite Nat.add_0_l. left.
Qed.

(** A generic match and a domain-prefixed match never start at the same
    place. *)
Lemma same_start_clash (t : str) s e a n de dn dnd :
  generic_shape t s e a n → domain_shape t s de dn dnd → False.
Proof.
  intros (Ha & Hlit & Hhyp & Hdig & Hn & _ & _)
         (Hdn & Hup & Hlit2 & Hdig2 & _).
  pose proof (literal_at_pos t (s + dn) (lit "-HR-") (s + dn) 45%N Hlit2
                (Nat.le_refl _)) as Hh1.
  rewrite Nat.sub_diag in Hh1. specialize (Hh1 eq_refl).
  destruct (decide (length a < dn)) as [Hlt|Hge].
  - destruct (run_at_pos is_upper t s dn (s + length a) Hup) as (c & Hc & Hcu); [lia|].
    rewrite Hc in Hhyp. injection Hhyp as ->. done.
  - destruct (decide (dn < length a)) as [Hlt|Hge'].
    + destruct (kind_letter_at t s a (s + dn) Ha Hlit) as (c & Hc & Hcu); [lia|].
      rewrite Hc in Hh1. injection Hh1 as ->. done.
    + assert (length a = dn) as Heq by lia.
      destruct (run_at_pos is_digit t (s + length a + 1) n
                  (s + length a + 1) Hdig) as (c & Hc & Hcd); [lia|].
      pose proof (literal_at_pos t (s + dn) (lit "-HR-") (s + dn + 1) 72%N Hlit2) as Hh2.
      rewrite Heq in Hc. rewrite Hh2 in Hc; [|lia|].
      * injection Hc as <-. unfold is_digit in Hcd. done.
      * by replace (s + dn + 1 - (s + dn)) with 1 by lia.
Qed.

(** A generic identifier between non-word characters lies inside no
    domain-prefixed match, unless it is an [HR] identifier right after a
    hyphen. *)
Lemma generic_token_not_inside (pre post a ds : str) g :
  opt_word (last pre) = false →
  (last pre = Some 45%N → a ≠ lit "HR") →
  g ∈ finditer ID_PATTERN (pre ++ (a ++ lit "-" ++ ds) ++ post) →
  m_start g = length pre → m_groups g = (a, ds) →
  _is_inside_domain_hr (m_start g) (m_end g)
    (_domain_hr_spans (pre ++ (a ++ lit "-" ++ ds) ++ post)) = false.
Proof.
  intros Hpre Hhr Hg Hs Hgr. apply not_true_iff_false. intros Hin.
  apply is_inside_domain_hr_true in Hin as (d & Hd & Hsd & Hed).
  set (t := pre ++ (a ++ lit "-" ++ ds) ++ post) in *.
  apply ID_PATTERN_shape in Hg as [Hgs _]. rewrite Hgr in Hgs. cbn [fst snd] in Hgs.
  apply DOMAIN_HR_PATTERN_shape in Hd as [Hds _].
  set (n := length (m_groups d).1) in *. set (nd := length (m_groups d).2) in *.
  rewrite Hs in *.
  destruct (decide (m_start d = length pre)) as [Heq | Hlt].
  { rewrite Heq in Hds. by apply (same_start_clash _ _ _ _ _ _ _ _ Hgs Hds). }
  destruct Hgs as (Ha & Hlit & Hhyp & Hdig & Hn & He & _).
  destruct Hds as (Hdn & Hup & Hlit2 & Hdig2 & Hdnd & Hde & _).
  destruct pre as [|c0 pre' _] using rev_ind; [cbn [length] in *; lia|].
  rewrite last_snoc in Hpre, Hhr. cbn [opt_word] in Hpre.
  rewrite length_app in *. cbn [length] in *.
  assert (Hj : t !! length pre' = Some c0) by apply lookup_before_piece.
  set (sd := m_start d) in *.
  destruct (decide (length pre' < sd + n)).
  { destruct (run_at_pos is_upper t sd n (length pre') Hup) as (c & Hc & Hcu); [lia|].
    rewrite Hc in Hj. injection Hj as ->. apply is_upper_word in Hcu. congruence. }
  destruct (decide (length pre' = sd + n + 1)) as [Heq|].
  { pose proof (literal_at_pos t (sd + n) (lit "-HR-") (length pre') 72%N Hlit2) as Hc.
    rewrite Hc in Hj; [by injection Hj as <- | lia |].
    by replace (length pre' - (sd + n)) with 1 by lia. }
  destruct (decide (length pre' = sd + n + 2)) as [Heq|].
  { pose proof (literal_at_pos t (sd + n) (lit "-HR-") (length pre') 82%N Hlit2) as Hc.
    rewrite Hc in Hj; [by injection Hj as <- | lia |].
    by replace (length pre' - (sd + n)) with 2 by lia. }
  destruct (decide (length pre' = sd + n + 3)) as [Heq|].
  { destruct (run_at_pos is_digit t (sd + n + 4) nd (length pre' + 1) Hdig2)
      as (c & Hc & Hcd); [lia|].
    destruct (kind_letter_at t (length pre' + 1) a (length pre' + 1) Ha Hlit)
      as (c' & Hc' & Hcu); [pose proof (kinds_facts a Ha); lia|].
    rewrite Hc in Hc'. injection Hc' as ->.
    apply is_upper_not_digit in Hcu. congruence. }
  destruct (decide (length pre' = sd + n)) as [Heq|].
  { pose proof (literal_at_pos t (sd + n) (lit "-HR-") (length pre') 45%N Hlit2) as Hc.
    rewrite Hc in Hj; [|lia|by replace (length pre' - (sd + n)) with 0 by lia].
    injection Hj as <-. specialize (Hhr eq_refl).
    pose proof (literal_at_pos t (sd + n) (lit "-HR-") (length pre' + 1) 72%N Hlit2) as H1.
    pose proof (literal_at_pos t (sd + n) (lit "-HR-") (length pre' + 2) 82%N Hlit2) as H2.
    rewrite Heq in H1, H2.
    specialize (H1 ltac:(lia)). specialize (H2 ltac:(lia)).
    replace (sd + n + 1 - (sd + n)) with 1 in H1 by lia.
    replace (sd + n + 2 - (sd + n)) with 2 in H2 by lia.
    specialize (H1 eq_refl). specialize (H2 eq_refl).
    rewrite Heq in Hlit.
    unfold kinds in Ha.
    repeat (apply elem_of_cons in Ha as [-> | Ha]); [done|..|by apply elem_of_nil in Ha].
    all: pose proof (Hlit 0 _ eq_refl) as H0;
         replace (sd + n + 1 + 0) with (sd + n + 1) in H0 by lia;
         rewrite H1 in H0; discriminate H0. }
  destruct (run_at_pos is_digit t (sd + n + 4) nd (length pre') Hdig2)
    as (c & Hc & Hcd); [pose proof (kinds_facts a Ha); lia|].
  rewrite Hc in Hj. injection Hj as ->. apply is_digit_word in Hcd. congruence.
Qed.

(** X14.  The extractor misses no identifier that stands alone.  An
    identifier of either form with no word character directly before it and
    none directly after it is in the set [extract_ids] returns.  One case is
    left open: a generic [HR-] identifier right after a hyphen, where a
    domain prefix before the hyphen may absorb it. *)
Theorem extract_ids_complete (pre x post : str) :
  opt_word (last pre) = false → opt_word (head post) = false →
  domain_form x
  ∨ (generic_form x ∧ (last pre = Some 45%N → startswith (lit "HR-") x = false)) →
  x ∈ extract_ids (pre ++ x ++ post).
Proof.
  intros Hpre Hpost Hform. apply extract_ids_elem.
  destruct Hform as [(dom & ds & Hne & Hdom & Hds & Hlen & ->)
                    | [(a & ds & Ha & Hds & Hlen & ->) Hhr]].
  - right. eexists. split; [by apply domain_token_found|]. done.
  - left. eexists. split; [split; [by apply generic_token_found|] |].
    + eapply (generic_token_not_inside pre post a ds);
        [done | | by apply generic_token_found | done | done].
      intros Hl -> . specialize (Hhr Hl). done.
    + done.
Qed.

End ExtractComplete.

Lemma extract_ids_complete_witness :
  lit "DEC-001" ∈ extract_ids (U := ascii_db) (lit "see " ++ lit "DEC-001" ++ lit ".").
Proof.
  apply (extract_ids_complete (U := ascii_db) (lit "see ") (lit "DEC-001") (lit ".")).
  - reflexivity.
  - reflexivity.
  - right. split.
    + exists (lit "DEC"), (lit "001"). split_and!.
      * unfold kinds. right. left.
      * repeat constructor.
      * cbn [length lit]. simpl. lia.
      * reflexivity.
    + intros _. reflexivity.
Defined.

(** ** Evidence identifiers across checks 2 and 7 *)

Section EvidenceIds.
Context {U : UnicodeDB}.

Lemma EVD_PATTERN_Some prev s len g :
  EVD_PATTERN prev s = Some (len, g) →
  ∃ ds rest, s = lit "EVD-" ++ ds ++ rest ∧ Forall (λ c, is_digit c = true) ds
             ∧ len = 4 + length ds.
Proof.
  unfold EVD_PATTERN. destruct (startswith (lit "EVD-") s) eqn:Hsw; [|done].
  apply startswith_spec in Hsw as [r ->]. intros Hg.
  apply greedy_Some in Hg as (ds & rest & Hdrop & Hds & Hk).
  rewrite drop_app_length' in Hdrop by done. subst r.
  exists ds, rest. split_and!; [done..|].
  cbn [Nat.add] in Hk. destruct (3 <=? length ds); [|done]. by injection Hk as <- _.
Qed.

Lemma EVD_PATTERN_run prev (ds rest : str) :
  Forall (λ c, is_digit c = true) ds → 3 ≤ length ds →
  (∀ c, head rest = Some c → is_digit c = false) →
  EVD_PATTERN prev (lit "EVD-" ++ ds ++ rest)
  = Some (4 + length ds, (lit "EVD-" ++ ds, [])).
Proof.
  intros Hds Hlen Hrest. unfold EVD_PATTERN. rewrite startswith_app.
  rewrite drop_app_length' by done.
  apply greedy_run; [done..|]. cbn [Nat.add].
  replace (3 <=? length ds) with true by (symmetry; by apply Nat.leb_le).
  do 3 f_equal. rewrite app_assoc. apply take_app_length'.
  rewrite length_app. done.
Qed.

(** No evidence match runs into an [E] that follows. *)
Lemma evd_no_overrun prev (pre2 rest : str) len g :
  pre2 ≠ [] →
  EVD_PATTERN prev (pre2 ++ 69%N :: rest) = Some (len, g) →
  len ≤ length pre2.
Proof.
  intros Hne Hp. apply EVD_PATTERN_Some in Hp as (ds & rest' & Heq & Hds & ->).
  destruct (decide (4 + length ds ≤ length pre2)) as [|Hgt]; [done | exfalso].
  assert (HE : (lit "EVD-" ++ ds ++ rest') !! length pre2 = Some 69%N).
  { rewrite <- Heq. by apply list_lookup_middle. }
  destruct pre2 as [|p0 [|p1 [|p2 [|p3 pre']]]]; [done|..]; cbn [length] in *.
  1-3: by cbv in HE.
  change (lit "EVD-" ++ ds ++ rest') with (lit "EVD-" ++ (ds ++ rest')) in HE.
  rewrite lookup_app_r in HE by (cbn; lia).
  change (length (lit "EVD-")) with 4 in HE.
  rewrite lookup_app_l in HE by lia.
  rewrite Forall_forall in Hds.
  pose proof (Hds _ (list_elem_of_lookup_2 _ _ _ HE)) as Hd.
  unfold is_digit in Hd. done.
Qed.

(** A generic evidence identifier found by the identifier pattern is found
    by the evidence pattern of check 7 too. *)
Lemma evd_match_found (text : str) g (ds : str) :
  g ∈ finditer ID_PATTERN text → m_groups g = (lit "EVD", ds) →
  ∃ m, m ∈ finditer EVD_PATTERN text ∧ (m_groups m).1 = lit "EVD-" ++ ds.
Proof.
  intros Hg Hgr. apply finditer_elem in Hg as (Hlt & Hp & _).
  rewrite Hgr in Hp.
  apply ID_PATTERN_Some in Hp as (_ & _ & Hds & Hlen & _ & rest & Hdrop & Hw).
  eexists {| m_start := m_start g; m_end := m_start g + (4 + length ds);
             m_groups := (lit "EVD-" ++ ds, []) |}.
  split; [|done]. unfold finditer.
  rewrite <- (take_drop (m_start g) text).
  assert (Hl : length (take (m_start g) text) = m_start g)
    by (apply length_take_le; lia).
  rewrite Hdrop.
  apply finditer_from_reach; [lia | |].
  - intros pre1 pre2 len g' _ Hne2 Hp2.
    by apply (evd_no_overrun _ pre2 _ len g' Hne2 Hp2).
  - rewrite Hl, Nat.add_0_l.
    assert (Hrun : EVD_PATTERN (last_or None (take (m_start g) text))
                     (lit "EVD-" ++ ds ++ rest)
                   = Some (4 + length ds, (lit "EVD-" ++ ds, []))).
    { apply EVD_PATTERN_run; [done..|]. intros c Hc. rewrite Hc in Hw.
      cbn [opt_word] in Hw. destruct (is_digit c) eqn:E; [|done].
      apply is_digit_word in E. congruence. }
    change (lit "EVD" ++ 45%N :: ds ++ rest) with (69%N :: lit "VD-" ++ ds ++ rest).
    change (lit "EVD-" ++ ds ++ rest) with (69%N :: lit "VD-" ++ ds ++ rest) in Hrun.
    cbn [finditer_from]. rewrite Hrun. left.
Qed.

(** X15.  Checks 2 and 7 agree on evidence identifiers: every identifier
    [EVD-] with digits that the extractor of check 2 returns is among the
    evidence references check 7 looks up in the store. *)
Theorem evidence_ids_cross_checked (text ds : str) :
  Forall (λ c, is_digit c = true) ds →
  lit "EVD-" ++ ds ∈ extract_ids text →
  lit "EVD-" ++ ds ∈ rfc_evd_refs text.
Proof.
  intros Hds Hx. unfold rfc_evd_refs. apply fold_add_all_elem. right.
  apply extract_ids_elem in Hx as [(g & [Hg _] & Hid) | (d & Hd & Hid)].
  - pose proof (ID_PATTERN_shape text g Hg) as [(Ha & _) _].
    destruct (m_groups g) as [a dg] eqn:Hgr. unfold generic_id in Hid.
    rewrite Hgr in Hid. cbn [fst snd] in Hid, Ha.
    unfold kinds in Ha.
    repeat (apply elem_of_cons in Ha as [-> | Ha]); [..| by apply elem_of_nil in Ha];
      try discriminate Hid.
    injection Hid as ->. by apply (evd_match_found text g ds).
  - exfalso. apply finditer_elem in Hd as (_ & Hp & _).
    destruct (m_groups d) as [dom dd] eqn:Hgr. unfold domain_id in Hid.
    rewrite Hgr in Hid. cbn [fst snd] in Hid.
    apply DOMAIN_HR_PATTERN_Some in Hp as (_ & Hdom & Hn & _).
    destruct dom as [|d0 [|d1 [|d2 [|d3 dom']]]];
      [cbn [length] in Hn; lia | discriminate Hid | discriminate Hid | |].
    + injection Hid as _ _ _ <-. apply Forall_cons in Hds as [Hh _].
      unfold is_digit in Hh. done.
    + injection Hid as _ _ _ Hd3 _.
      do 3 apply Forall_cons in Hdom as [_ Hdom].
      apply Forall_cons in Hdom as [H3 _]. subst d3. done.
Qed.

End EvidenceIds.

Lemma evidence_ids_cross_checked_witness :
  lit "EVD-" ++ lit "001" ∈ rfc_evd_refs (U := ascii_db) (lit "see EVD-001").
Proof.
  apply (evidence_ids_cross_checked (U := ascii_db) (lit "see EVD-001") (lit "001")).
  - repeat constructor.
  - vm_compute. reflexivity.
Defined.

(** ** Check 7 in full *)

Lemma filter_missing_fail_other (r : CheckResult) (msg : str) :
  filter (λ i, is_missing_issue i = true) (issues (fail r (OtherIssue msg)))
  = filter (λ i, is_missing_issue i = true) (issues r).
Proof.
  cbn [fail issues]. rewrite filter_app, filter_cons_False by done.
  by rewrite filter_nil, app_nil_r.
Qed.

Lemma filter_missing_fmap (l : list str) :
  filter (λ i, is_missing_issue i = true) (MissingEvd <$> l) = MissingEvd <$> l.
Proof.
  induction l as [|x l IH]; [done|].
  rewrite fmap_cons, filter_cons_True by done. by rewrite IH.
Qed.

(** What a step of the check keeps: the messages about missing evidence
    ids, and a failure once recorded. *)
Definition keeps_missing (r r' : CheckResult) : Prop :=
  filter (λ i, is_missing_issue i = true) (issues r')
  = filter (λ i, is_missing_issue i = true) (issues r)
  ∧ (passed r = false → passed r' = false).

Lemma keeps_missing_refl r : keeps_missing r r.
Proof. by split. Qed.

Lemma keeps_missing_trans r1 r2 r3 :
  keeps_missing r1 r2 → keeps_missing r2 r3 → keeps_missing r1 r3.
Proof. intros [H1 P1] [H2 P2]. split; [by rewrite H2 | auto]. Qed.

Lemma keeps_missing_fail_other r msg : keeps_missing r (fail r (OtherIssue msg)).
Proof. split; [apply filter_missing_fail_other | done]. Qed.

Section Check7Facts.
Context {U : UnicodeDB} {R : PyRuntime}.

Lemma truncated_item_keeps rfc fields evd_id r :
  keeps_missing r (truncated_item rfc fields evd_id r).
Proof.
  unfold truncated_item. destruct (_ && _); [|apply keeps_missing_refl].
  generalize (truncated_links fields). intros links.
  assert (H : ∀ r0, keeps_missing r r0 →
    keeps_missing r
      (fold_left
         (λ r link,
            if contains (lit "HR-") (py_str link)
               || contains (lit "REQ-") (py_str link)
            then
              if negb (contains (lit "Unresolved") rfc)
                 && negb (contains (lit "unresolved") (py_lower rfc))
              then fail r (OtherIssue
                     (lit "Truncated evidence " ++ py_str evd_id
                      ++ lit " supports hard assertion but no Unresolved/DEC in rfc.md"))
              else r
            else r) links r0)).
  { induction links as [|link links IH]; intros r0 Hr0; [done|].
    cbn [fold_left]. apply IH.
    destruct (_ || _); [|done]. destruct (_ && _); [|done].
    eapply keeps_missing_trans; [exact Hr0 | apply keeps_missing_fail_other]. }
  apply H, keeps_missing_refl.
Qed.

(** The loop over the items returns when every item is a dict with a
    hashable [evd_id]; it gathers the ids of the items. *)
Lemma evidence_loop_spec rfc items ids0 r :
  Forall (λ item, is_Some (item_evd_id item)) items →
  ∃ ids r',
    evidence_loop rfc items ids0 r = Some (ids0 ++ ids, r')
    ∧ evd_ids_in_json items = Some ids
    ∧ keeps_missing r r'.
Proof.
  intros Hall. revert ids0 r.
  induction Hall as [|item items [v Hv] _ IH]; intros ids0 r.
  - exists [], r. rewrite app_nil_r. split_and!; [done..|apply keeps_missing_refl].
  - destruct item as [| | | |?|fields]; try done.
    cbn [evidence_loop evd_ids_in_json]. rewrite Hv.
    destruct (IH (ids0 ++ [v]) (truncated_item rfc fields v r))
      as (ids & r' & Hloop & Hids & Hkeep).
    exists (v :: ids), r'. split_and!.
    + rewrite Hloop. by rewrite <- app_assoc.
    + by rewrite Hids.
    + eapply keeps_missing_trans; [apply truncated_item_keeps | exact Hkeep].
Qed.

Lemma has_evd_linked_total hr_id items :
  Forall links_well_formed items → is_Some (has_evd_linked hr_id items).
Proof.
  induction 1 as [|item items (fields & -> & Hl) _ IH]; cbn [has_evd_linked];
    [by eexists|].
  destruct Hl as [-> | [[s ->] | [[links ->] | [keyed ->]]]]; cbn [links_iter];
    by destruct (existsb _ _).
Qed.

Lemma hr_loop_spec lines items defs r :
  defs = [] ∨ Forall links_well_formed items →
  ∃ r', hr_loop lines items defs r = Some r' ∧ keeps_missing r r'.
Proof.
  intros Hok. revert r. induction defs as [|[[ln hr_id] text] defs IH]; intros r.
  - exists r. split; [done | apply keeps_missing_refl].
  - destruct Hok as [? | Hok]; [done|].
    cbn [hr_loop]. cbv zeta.
    destruct (has_evd_linked_total hr_id items Hok) as [linked ->].
    edestruct (IH (or_intror Hok)) as (r' & -> & Hkeep).
    eexists. split; [done|].
    eapply keeps_missing_trans; [|exact Hkeep].
    destruct (_ && _); [apply keeps_missing_fail_other | apply keeps_missing_refl].
Qed.

Lemma implicit_part_keeps lines defs r :
  keeps_missing r (implicit_part lines defs r).
Proof.
  unfold implicit_part. destruct (implicit_loop _ _ _ _ _) as [n m].
  destruct (0 <? m); [apply keeps_missing_fail_other | apply keeps_missing_refl].
Qed.

(** C5, as the code has it.  The check reads the key [evd_id] of the items.
    Take a store whose items list is not empty, each item a dict with a
    hashable [evd_id], and, unless the text defines no hard rule, with a
    [links_to] that is absent, a string, a list or a dict.  Then check 7
    returns, and the evidence ids it reports as missing are the first five,
    in sorted order, of the ids cited in the text that are the [evd_id] of no
    item, whatever else it reports.  When at most five are missing, an id
    cited in the text is reported if and only if it is the [evd_id] of no
    item; when every id cited is in the store, none is reported; when one
    is reported the check fails. *)
Theorem check_7_dangling_evidence (rfc : str) (evidence : list (str * json))
    (items : list json) :
  evidence_items evidence = Some items → items ≠ [] →
  Forall (λ item, is_Some (item_evd_id item)) items →
  hr_definitions (split_lines rfc) = [] ∨ Forall links_well_formed items →
  ∃ (missing : gset str) (reported : list str) (r : CheckResult),
    check_7_evidence rfc evidence = Some r
    ∧ (∀ x, x ∈ missing ↔ x ∈ rfc_evd_refs rfc ∧ ¬ in_store x items)
    ∧ filter (λ i, is_missing_issue i = true) (issues r) = MissingEvd <$> reported
    ∧ reported = take 5 (sorted missing)
    ∧ (∀ x, MissingEvd x ∈ issues r ↔ x ∈ reported)
    ∧ (∀ x, x ∈ reported → x ∈ missing)
    ∧ (size missing ≤ 5 → ∀ x, MissingEvd x ∈ issues r ↔ x ∈ missing)
    ∧ ((∀ x, x ∈ rfc_evd_refs rfc → in_store x items) →
       ∀ x, MissingEvd x ∉ issues r)
    ∧ (reported ≠ [] → passed r = false).
Proof.
  intros Hitems Hne Hall Hlinks.
  set (r0 := new_result (lit "7. Evidence cross-check") Hard).
  destruct (evidence_loop_spec rfc items [] r0 Hall)
    as (ids & r1 & Hloop & Hids & [Hk1 _]).
  set (missing := filter (λ x, existsb (json_is_str x) ids = false)
                    (rfc_evd_refs rfc)).
  assert (Hmiss : ∀ x, x ∈ missing ↔ x ∈ rfc_evd_refs rfc ∧ ¬ in_store x items).
  { intros x. unfold missing. rewrite elem_of_filter.
    rewrite <- not_true_iff_false, existsb_json_is_str.
    rewrite (evd_ids_in_json_elem items ids (JStr x) Hids). unfold in_store.
    tauto. }
  set (reported := take 5 (sorted missing)).
  assert (Ha : filter (λ i, is_missing_issue i = true)
                 (issues (part_a rfc items ids r1)) = MissingEvd <$> reported
               ∧ (reported ≠ [] → passed (part_a rfc items ids r1) = false)).
  { unfold part_a. cbv zeta. fold missing. fold reported.
    case_bool_decide as Hm; cbn [andb].
    - replace (nonempty items) with true by (by destruct items).
      rewrite issues_fold_fail, filter_app, Hk1, filter_missing_fmap.
      split; [done|]. intros Hrep.
      rewrite (passed_fold_fail MissingEvd).
      rewrite (bool_decide_eq_false_2 (reported = [])) by done.
      by rewrite andb_false_r.
    - assert (missing = ∅) as Hempty by (destruct (decide (missing = ∅)); done).
      assert (reported = []) as ->.
      { unfold reported. rewrite Hempty. unfold sorted. by rewrite elements_empty. }
      rewrite Hk1. split; [done | done]. }
  destruct Ha as [Ha Hpa].
  destruct (hr_loop_spec (split_lines rfc) items (hr_definitions (split_lines rfc))
              (part_a rfc items ids r1) Hlinks) as (r2 & Hhr & [Hk2 Hp2]).
  pose proof (implicit_part_keeps (split_lines rfc)
                (hr_definitions (split_lines rfc)) r2) as [Hk3 Hp3].
  set (r := implicit_part (split_lines rfc) (hr_definitions (split_lines rfc)) r2)
    in *.
  assert (Hf : filter (λ i, is_missing_issue i = true) (issues r)
               = MissingEvd <$> reported) by (by rewrite Hk3, Hk2).
  assert (Hrep : ∀ x, MissingEvd x ∈ issues r ↔ x ∈ reported).
  { intros x. split.
    - intros Hx.
      assert (Hin : MissingEvd x ∈ filter (λ i, is_missing_issue i = true) (issues r))
        by (by apply list_elem_of_filter).
      rewrite Hf in Hin. apply list_elem_of_fmap in Hin as (y & [= ->] & Hy). done.
    - intros Hx.
      assert (Hin : MissingEvd x ∈ MissingEvd <$> reported)
        by (apply list_elem_of_fmap; by exists x).
      rewrite <- Hf in Hin. by apply list_elem_of_filter in Hin as [_ ?]. }
  assert (Hsub : ∀ x, x ∈ reported → x ∈ missing).
  { intros x Hx. apply elem_of_sorted.
    apply elem_of_take in Hx as (i & Hi & _). by eapply list_elem_of_lookup_2. }
  exists missing, reported, r. split_and!; try done.
  - unfold check_7_evidence. cbv zeta. rewrite Hitems. fold r0. rewrite Hloop.
    cbn [app]. by rewrite Hhr.
  - intros Hsize x. rewrite Hrep. unfold reported.
    rewrite take_ge by (by rewrite length_sorted). apply elem_of_sorted.
  - intros Hin x Hx. apply Hrep, Hsub, Hmiss in Hx as [Hx Hn]. by apply Hn, Hin.
  - intros Hne'. apply Hp3, Hp2, Hpa, Hne'.
Qed.

End Check7Facts.

(** The theorem at a concrete store and text: the text defines a hard rule
    and cites EVD-001, which the store has, and EVD-002, which it has not. *)
Lemma check_7_dangling_evidence_witness :
  ∃ (missing : gset str) (reported : list str) (r : CheckResult),
    check_7_evidence (U := ascii_db) (R := ascii_runtime) hard_rule_text
      store_with_evd_id = Some r
    ∧ (∀ x, x ∈ missing
          ↔ x ∈ rfc_evd_refs (U := ascii_db) hard_rule_text
            ∧ ¬ in_store x [JObj [(lit "evd_id", JStr (lit "EVD-001"))]])
    ∧ filter (λ i, is_missing_issue i = true) (issues r) = MissingEvd <$> reported
    ∧ reported = take 5 (sorted missing)
    ∧ (∀ x, MissingEvd x ∈ issues r ↔ x ∈ reported)
    ∧ (∀ x, x ∈ reported → x ∈ missing)
    ∧ (size missing ≤ 5 → ∀ x, MissingEvd x ∈ issues r ↔ x ∈ missing)
    ∧ ((∀ x, x ∈ rfc_evd_refs (U := ascii_db) hard_rule_text →
             in_store x [JObj [(lit "evd_id", JStr (lit "EVD-001"))]]) →
       ∀ x, MissingEvd x ∉ issues r)
    ∧ (reported ≠ [] → passed r = false).
Proof.
  apply (check_7_dangling_evidence (U := ascii_db) (R := ascii_runtime)).
  - reflexivity.
  - discriminate.
  - repeat constructor. by eexists.
  - right. repeat constructor. eexists. split; [reflexivity|]. left. reflexivity.
Defined.

(** C5, as stated, fails on the key: the store has an item whose
    [evidence_id] is EVD-001, the text cites EVD-001, and the check reports it
    as missing.  Under the key [evd_id] it reports nothing. *)
Lemma check_7_ignores_evidence_id :
  issues <$> check_7_evidence (U := ascii_db) (R := ascii_runtime)
               (lit "see EVD-001") store_with_evidence_id
    = Some [MissingEvd (lit "EVD-001")]
  ∧ issues <$> check_7_evidence (U := ascii_db) (R := ascii_runtime)
                 (lit "see EVD-001") store_with_evd_id
    = Some [].
Proof. vm_compute. done. Qed.

(** And on the number: of six ids missing from the store, five are
    reported. *)
Lemma check_7_reports_five_of_six :
  issues <$> check_7_evidence (U := ascii_db) (R := ascii_runtime)
               six_missing store_with_evd_id
  = Some (MissingEvd <$> [lit "EVD-101"; lit "EVD-102"; lit "EVD-103";
                          lit "EVD-104"; lit "EVD-105"]).
Proof. vm_compute. done. Qed.

Section Check7Raises.
Context {U : UnicodeDB} {R : PyRuntime}.

(** The precondition on [links_to] is needed: when the text defines a hard
    rule and the first item of the store has a [links_to] that is [None], a
    boolean or a number, the check raises. *)
Lemma check_7_raises_on_link (rfc : str) (evidence : list (str * json))
    (fields : list (str * json)) (rest : list json) :
  evidence_items evidence = Some (JObj fields :: rest) →
  hr_definitions (split_lines rfc) ≠ [] →
  links_iter (dict_get fields (lit "links_to")) = None →
  check_7_evidence rfc evidence = None.
Proof.
  intros Hitems Hdefs Hlink. unfold check_7_evidence. cbv zeta. rewrite Hitems.
  destruct (evidence_loop _ _ _ _) as [[ids r1]|]; [|done].
  destruct (hr_definitions (split_lines rfc)) as [|[[ln hr_id] text] defs]; [done|].
  cbn [hr_loop has_evd_linked]. cbv zeta. by rewrite Hlink.
Qed.

End Check7Raises.

(** With a number for [links_to] and a hard rule in the text, the check
    raises; without a hard rule in the text it returns. *)
Example check_7_numeric_link :
  check_7_evidence (U := ascii_db) (R := ascii_runtime) hard_rule_text
    store_with_numeric_link = None
  ∧ issues <$> check_7_evidence (U := ascii_db) (R := ascii_runtime)
                 (lit "see EVD-001, EVD-002") store_with_numeric_link
    = Some [MissingEvd (lit "EVD-002")].
Proof. vm_compute. done. Qed.
